(** * MyUtils: asynchronous network-service utilities

    A shallow embedding of the C++ sources of the repository:

    - [IOServicePool]  : the round-robin pool of [io_context]s
                         (IOService_pool.hpp / .cpp);
    - [ConnectionPool] : the generic connection pool (connection_pool.h);
    - [ThreadPool]     : the worker thread pool (thread_pool.h / .cpp);
    - [Wire]           : the 4-byte length prefix of the TCP framing;
    - [TCPSession]     : the per-connection session (tcp_session.hpp / .cpp);
    - [TCPServer]      : the acceptor and its set of sessions
                         (tcp_server.hpp / .cpp);
    - [StdString]      : the member functions of [std::string] that the
                         code below calls;
    - [ConfigManager]  : the INI reader (config_manager.h / .cpp);
    - [MemoryPool]     : the free-list object pool (memory_pool.h);
    - [Logger]         : the logger (logger.h / .cpp).

    Each member function becomes a function on a record holding the
    members of its class.  Code that runs under a mutex is one atomic
    transition; an asynchronous operation is a field recording that the
    operation is outstanding, and its completion handler is a function run
    when the environment delivers the completion.  The calls of the logger
    in the other classes are not modelled. *)

From Stdlib Require Import Strings.String Strings.Byte.
From Stdlib Require Import ZArith List Lia Bool Arith PeanoNat Permutation.
Import ListNotations.

Set Implicit Arguments.

(* ================================================================== *)
(** * IOServicePool *)
(* ================================================================== *)

Module IOServicePool.

(** An [io_context] is identified by the order of its allocation: the
    i-th [new IOService()] of the constructor is context [i]. *)
Definition IOService := nat.

Record t : Type := mk {
  io_services_     : list IOService;
  next_io_service_ : nat;
  pool_size_       : nat
}.

(** [IOServicePool::IOServicePool(pool_size)]: the loop pushes one fresh
    context per iteration. *)
Definition ctor (pool_size : nat) : t :=
  {| io_services_ :=
       fold_left (fun v i => v ++ [i]) (seq 0 pool_size) [];
     next_io_service_ := 0;
     pool_size_ := pool_size |}.

(** [IOServicePool::GetIOService].  Indexing the vector out of range has
    no defined behaviour in C++; it is [None] here. *)
Definition GetIOService (p : t) : option IOService * t :=
  let io_service := nth_error (io_services_ p) (next_io_service_ p) in
  let next := next_io_service_ p + 1 in
  let next := if length (io_services_ p) <=? next then 0 else next in
  (io_service,
   {| io_services_ := io_services_ p;
      next_io_service_ := next;
      pool_size_ := pool_size_ p |}).

(** [n] consecutive calls: the results in call order and the final pool. *)
Fixpoint calls (n : nat) (p : t) : list (option IOService) * t :=
  match n with
  | O => ([], p)
  | S n' =>
      let (r, p1) := GetIOService p in
      let (rs, p2) := calls n' p1 in
      (r :: rs, p2)
  end.

(** [IOServicePool::Stop()], when the joins of the threads have returned:
    the vectors are cleared, and [next_io_service_] is left as it is. *)
Definition Stop (p : t) : t :=
  {| io_services_ := [];
     next_io_service_ := next_io_service_ p;
     pool_size_ := pool_size_ p |}.

(** How many of the results are context [c]. *)
Definition times_returned (c : IOService) (rs : list (option IOService)) : nat :=
  length (filter (fun r => match r with
                           | Some c' => c' =? c
                           | None => false
                           end) rs).

End IOServicePool.

(* ================================================================== *)
(** * ConnectionPool *)
(* ================================================================== *)

Module ConnectionPool.

Section WithConnectionType.

Variable ConnectionType : Type.

(** A [ConnectionPtr] is a [shared_ptr], which may be null. *)
Definition ConnectionPtr := option ConnectionType.

(** A [ConnectionFactory] is called without arguments and may answer
    differently each time: it is given the number of calls the pool has
    made so far. *)
Definition ConnectionFactory := nat -> ConnectionPtr.

Record t : Type := mk {
  _stop        : bool;
  _poolSize    : nat;
  _connections : list ConnectionType;      (* std::queue, front first *)
  _factory     : option ConnectionFactory; (* std::function, may be empty *)
  factory_calls : nat                      (* ghost: calls of the factory *)
}.

(** [ConnectionPool::ConnectionPool()] *)
Definition ctor : t :=
  {| _stop := false; _poolSize := 0; _connections := [];
     _factory := None; factory_calls := 0 |}.

(** The loop of [Initialize]: [n] iterations, each calling the factory and
    pushing the connection when it is not null. *)
Fixpoint precreate (n : nat) (factory : ConnectionFactory)
    (q : list ConnectionType) (made : nat) : list ConnectionType * nat :=
  match n with
  | O => (q, made)
  | S n' =>
      match factory made with
      | Some connection => precreate n' factory (q ++ [connection]) (S made)
      | None => precreate n' factory q (S made)
      end
  end.

(** [ConnectionPool::Initialize(poolSize, factory)] *)
Definition Initialize (poolSize : nat) (factory : ConnectionFactory) (p : t) : t :=
  let (q, made) := precreate poolSize factory (_connections p) (factory_calls p) in
  {| _stop := false; _poolSize := poolSize; _connections := q;
     _factory := Some factory; factory_calls := made |}.

(** What a call of [GetConnection] does in the state it finds: [Waits] when
    the predicate of [_condition.wait] is false, so that the caller sleeps
    on the condition variable holding nothing; [Returns c] otherwise. *)
Inductive acquired : Type :=
| Waits
| Returns (connection : ConnectionPtr).

(** [ConnectionPool::GetConnection()] *)
Definition GetConnection (p : t) : acquired * t :=
  if negb (_stop p || negb (match _connections p with [] => true | _ => false end))
  then (Waits, p)
  else if _stop p then (Returns None, p)
  else
    match _connections p with
    | [] =>
        match _factory p with
        | Some factory =>
            (Returns (factory (factory_calls p)),
             {| _stop := _stop p; _poolSize := _poolSize p;
                _connections := _connections p; _factory := _factory p;
                factory_calls := S (factory_calls p) |})
        | None => (Returns None, p)
        end
    | connection :: rest =>
        (Returns (Some connection),
         {| _stop := _stop p; _poolSize := _poolSize p;
            _connections := rest; _factory := _factory p;
            factory_calls := factory_calls p |})
    end.

(** [ConnectionPool::ReturnConnection(connection)] *)
Definition ReturnConnection (connection : ConnectionPtr) (p : t) : t :=
  match connection with
  | None => p
  | Some c =>
      if _stop p then p
      else if _poolSize p <=? length (_connections p) then p
      else {| _stop := _stop p; _poolSize := _poolSize p;
              _connections := _connections p ++ [c]; _factory := _factory p;
              factory_calls := factory_calls p |}
  end.

(** [ConnectionPool::Close()] *)
Definition Close (p : t) : t :=
  {| _stop := true; _poolSize := _poolSize p; _connections := [];
     _factory := _factory p; factory_calls := factory_calls p |}.

Definition GetAvailableCount (p : t) : nat := length (_connections p).

(** The calls made on an initialised pool.  Every member function holds
    [_mutex] for its whole body, so calls from several threads take effect
    one after the other, in some order. *)
Inductive call : Type :=
| CallGetConnection
| CallReturnConnection (connection : ConnectionPtr)
| CallClose.

Definition exec (c : call) (p : t) : t :=
  match c with
  | CallGetConnection => snd (GetConnection p)
  | CallReturnConnection connection => ReturnConnection connection p
  | CallClose => Close p
  end.

Definition run (cs : list call) (p : t) : t :=
  fold_left (fun p c => exec c p) cs p.

(** The bound the pool keeps between calls. *)
Definition within_capacity (p : t) : Prop :=
  length (_connections p) <= _poolSize p.

End WithConnectionType.

Section Observers.

Variable ConnectionType : Type.

(** [GetPoolSize()] *)
Definition GetPoolSize (p : t ConnectionType) : nat := _poolSize p.

(** [GetInUseCount()]: a subtraction of [size_t] values, 64 bits wide. *)
Definition GetInUseCount (p : t ConnectionType) : Z :=
  (Z.of_nat (_poolSize p) - Z.of_nat (length (_connections p))) mod 2 ^ 64.

(** [n] calls of [GetConnection] one after the other: what each one did,
    and the pool they leave. *)
Fixpoint gets (n : nat) (p : t ConnectionType)
    : list (acquired ConnectionType) * t ConnectionType :=
  match n with
  | O => ([], p)
  | S n' =>
      let (r, p1) := GetConnection p in
      let (rs, p2) := gets n' p1 in
      (r :: rs, p2)
  end.

(** The connections that calls number [from], ..., [from + n - 1] of the
    factory give, the null ones left out. *)
Definition produced (factory : ConnectionFactory ConnectionType)
    (from n : nat) : list ConnectionType :=
  flat_map (fun i => match factory i with Some c => [c] | None => [] end)
           (seq from n).

End Observers.

End ConnectionPool.

(* ================================================================== *)
(** * ThreadPool *)
(* ================================================================== *)

Module ThreadPool.

(** A task is identified by a number; the same task may be submitted more
    than once. *)
Definition Task := nat.

(** Where a worker thread is in [WorkerThread]. *)
Inductive worker : Type :=
| AtWait                (* at the top of the loop, about to take the lock *)
| Holding (task : Task) (* has popped [task] and left the critical section *)
| Exited.               (* has returned from [WorkerThread] *)

Record t : Type := mk {
  _threads   : list worker;
  _tasks     : list Task;      (* std::queue, front first *)
  _stop      : bool;
  _taskCount : Z;              (* std::atomic<size_t>, 64 bits *)
  accepted   : list Task;      (* ghost: tasks pushed by Enqueue, in order *)
  executed   : list Task       (* ghost: tasks run by the workers, in order *)
}.

Definition size_t (z : Z) : Z := z mod 2 ^ 64.

(** [ThreadPool::ThreadPool()] *)
Definition ctor : t :=
  {| _threads := []; _tasks := []; _stop := false; _taskCount := 0;
     accepted := []; executed := [] |}.

(** [ThreadPool::Initialize(threadCount)]; [hardware_concurrency] is what
    [std::thread::hardware_concurrency()] answers on the machine. *)
Definition Initialize (hardware_concurrency threadCount : nat) (p : t) : t :=
  let threadCount :=
    if threadCount =? 0 then hardware_concurrency else threadCount in
  {| _threads := _threads p ++ repeat AtWait threadCount;
     _tasks := _tasks p; _stop := false; _taskCount := 0;
     accepted := accepted p; executed := executed p |}.

Inductive enqueued : Type :=
| Future (task : Task)           (* the std::future of the task *)
| Throws (what : string). (* std::runtime_error *)

(** [ThreadPool::Enqueue(f, args...)] *)
Definition Enqueue (task : Task) (p : t) : enqueued * t :=
  if _stop p then (Throws "ThreadPool is shutdown"%string, p)
  else
    (Future task,
     {| _threads := _threads p; _tasks := _tasks p ++ [task];
        _stop := _stop p; _taskCount := size_t (_taskCount p + 1);
        accepted := accepted p ++ [task]; executed := executed p |}).

Definition set_thread (i : nat) (w : worker) (p : t) : t :=
  {| _threads := firstn i (_threads p) ++ w :: skipn (S i) (_threads p);
     _tasks := _tasks p; _stop := _stop p; _taskCount := _taskCount p;
     accepted := accepted p; executed := executed p |}.

(** One pass of worker [i] through the critical section of
    [WorkerThread]: nothing happens while the wait predicate is false. *)
Definition WorkerThread_locked (i : nat) (p : t) : t :=
  if negb (_stop p || negb (match _tasks p with [] => true | _ => false end))
  then p
  else if _stop p && (match _tasks p with [] => true | _ => false end)
  then set_thread i Exited p
  else
    match _tasks p with
    | task :: rest =>
        set_thread i (Holding task)
          {| _threads := _threads p; _tasks := rest; _stop := _stop p;
             _taskCount := _taskCount p;
             accepted := accepted p; executed := executed p |}
    | [] => p
    end.

(** Worker [i] runs the task it holds, outside the lock, and goes back to
    the top of the loop. *)
Definition WorkerThread_run (i : nat) (task : Task) (p : t) : t :=
  set_thread i AtWait
    {| _threads := _threads p; _tasks := _tasks p; _stop := _stop p;
       _taskCount := size_t (_taskCount p - 1);
       accepted := accepted p; executed := executed p ++ [task] |}.

(** The next step of worker [i]. *)
Definition WorkerThread (i : nat) (p : t) : t :=
  match nth_error (_threads p) i with
  | Some AtWait => WorkerThread_locked i p
  | Some (Holding task) => WorkerThread_run i task p
  | Some Exited | None => p
  end.

(** [ThreadPool::Shutdown()], first part: the flag is set under the lock and
    every worker is notified. *)
Definition Shutdown_stop (p : t) : t :=
  {| _threads := _threads p; _tasks := _tasks p; _stop := true;
     _taskCount := _taskCount p;
     accepted := accepted p; executed := executed p |}.

Definition exited (w : worker) : bool :=
  match w with Exited => true | _ => false end.

(** [ThreadPool::Shutdown()], second part: the joins return once every
    worker has exited, then [_threads] is cleared and Shutdown returns; it
    is [None] while a join still blocks. *)
Definition Shutdown_join (p : t) : option t :=
  if forallb exited (_threads p)
  then Some {| _threads := []; _tasks := _tasks p; _stop := _stop p;
               _taskCount := _taskCount p;
               accepted := accepted p; executed := executed p |}
  else None.

(** What can happen between [Initialize] and the return of [Shutdown]: a
    thread calls [Enqueue], a worker takes a step, [Shutdown] sets the
    flag.  The critical sections are atomic under [_queueMutex]. *)
Inductive step : Type :=
| StepEnqueue (task : Task)
| StepWorker (i : nat)
| StepShutdown.

Definition exec (e : step) (p : t) : t :=
  match e with
  | StepEnqueue task => snd (Enqueue task p)
  | StepWorker i => WorkerThread i p
  | StepShutdown => Shutdown_stop p
  end.

Definition run (es : list step) (p : t) : t :=
  fold_left (fun p e => exec e p) es p.

(** The task a worker holds, and the tasks the workers hold together. *)
Definition task_of (w : worker) : list Task :=
  match w with Holding task => [task] | _ => [] end.

Definition held (p : t) : list Task := flat_map task_of (_threads p).

(** The tasks that are somewhere in the pool: run, being run, or queued. *)
Definition pending (p : t) : list Task := executed p ++ held p ++ _tasks p.


(** [ThreadPool::GetTaskCount()] and [GetThreadCount()] *)
Definition GetTaskCount (p : t) : Z := _taskCount p.

Definition GetThreadCount (p : t) : nat := length (_threads p).

(** A schedule that lets each worker in turn run until it exits. *)
Definition drain (p : t) : list step :=
  flat_map (fun i => repeat (StepWorker i) (2 * length (_tasks p) + 2))
           (seq 0 (length (_threads p))).

(** An upper bound on the steps worker [w] takes before it exits from a
    stopped pool with [n] tasks queued, if no other worker moves. *)
Definition steps_left (w : worker) (n : nat) : nat :=
  match w with
  | Exited => 0
  | AtWait => 2 * n + 1
  | Holding _ => 2 * n + 2
  end.



(** The counter is the number of tasks queued or held, as a [size_t]. *)
Definition counted (p : t) : Prop :=
  _taskCount p = size_t (Z.of_nat (length (_tasks p) + length (held p))).

(** With one worker the tasks keep their order. *)
Definition in_order (p : t) : Prop :=
  exists w, _threads p = [w] /\
            executed p ++ task_of w ++ _tasks p = accepted p.

End ThreadPool.

(* ================================================================== *)
(** * The length prefix on the wire *)
(* ================================================================== *)

Module Wire.

(** Byte order of the machine the code runs on. *)
Inductive endianness : Type := little_endian | big_endian.

(** [static_cast<uint32_t>] *)
Definition uint32_t (z : Z) : Z := z mod 2 ^ 32.

Definition byte_value (b : byte) : Z := Z.of_N (Byte.to_N b).

(** The byte holding the low 8 bits of [z]. *)
Definition low_byte (z : Z) : byte :=
  match Byte.of_N (Z.to_N (z mod 256)) with
  | Some b => b
  | None => x00
  end.

(** The four bytes of a [uint32_t] object, in address order. *)
Definition bytes_of_uint32 (host : endianness) (x : Z) : list byte :=
  match host with
  | little_endian =>
      [low_byte x; low_byte (x / 2 ^ 8); low_byte (x / 2 ^ 16); low_byte (x / 2 ^ 24)]
  | big_endian =>
      [low_byte (x / 2 ^ 24); low_byte (x / 2 ^ 16); low_byte (x / 2 ^ 8); low_byte x]
  end.

(** [*reinterpret_cast<uint32_t*>(data)]: the [uint32_t] whose object
    representation is the first four bytes at [data]. *)
Definition uint32_of_bytes (host : endianness) (data : list byte) : Z :=
  let b (i : nat) := byte_value (nth i data x00) in
  match host with
  | little_endian => b 0%nat + b 1%nat * 2 ^ 8 + b 2%nat * 2 ^ 16 + b 3%nat * 2 ^ 24
  | big_endian => b 0%nat * 2 ^ 24 + b 1%nat * 2 ^ 16 + b 2%nat * 2 ^ 8 + b 3%nat
  end.

(** Reversal of the four bytes of a [uint32_t]. *)
Definition bswap32 (x : Z) : Z :=
  uint32_of_bytes big_endian (bytes_of_uint32 little_endian x).

(** [htonl] and [ntohl]: network byte order is big-endian. *)
Definition htonl (host : endianness) (x : Z) : Z :=
  match host with
  | little_endian => bswap32 x
  | big_endian => x
  end.

Definition ntohl (host : endianness) (x : Z) : Z :=
  match host with
  | little_endian => bswap32 x
  | big_endian => x
  end.

(** The buffer sequence of [do_write]: the object [length], then the
    message. *)
Definition frame (host : endianness) (message : list byte) : list byte :=
  let length := htonl host (uint32_t (Z.of_nat (List.length message))) in
  bytes_of_uint32 host length ++ message.

End Wire.

(* ================================================================== *)
(** * TCPSession *)
(* ================================================================== *)

Module TCPSession.
Import Wire.

(** The error codes the session tells apart. *)
Inductive error_code : Type :=
| success
| eof
| connection_reset
| operation_aborted
| other_error (value : nat).

Definition is_error (ec : error_code) : bool :=
  match ec with success => false | _ => true end.

(** An [async_wait] on a timer whose handler has not run yet: still
    waiting, or completed because the timer expired, or completed because
    the wait was cancelled. *)
Inductive wait : Type := Pending | Expired | Aborted.

(** [net::steady_timer]: the expiry (in seconds from when it was set, or
    [None] for [time_point::max()]) and the waits, oldest first. *)
Record steady_timer : Type := mk_timer {
  expiry : option nat;
  waits  : list wait
}.

Definition abort (w : wait) : wait :=
  match w with Pending => Aborted | _ => w end.

Definition expire (w : wait) : wait :=
  match w with Pending => Expired | _ => w end.

(** [cancel()]: waits that have not completed complete with
    [operation_aborted]. *)
Definition cancel (tm : steady_timer) : steady_timer :=
  {| expiry := expiry tm; waits := map abort (waits tm) |}.

(** [expires_at(time_point::max())] and [expires_after(d)] cancel the waits
    as well. *)
Definition expires_at_max (tm : steady_timer) : steady_timer :=
  {| expiry := None; waits := map abort (waits tm) |}.

Definition expires_after (d : nat) (tm : steady_timer) : steady_timer :=
  {| expiry := Some d; waits := map abort (waits tm) |}.

Definition async_wait (tm : steady_timer) : steady_timer :=
  {| expiry := expiry tm; waits := waits tm ++ [Pending] |}.

(** The timer reaches its expiry. *)
Definition expires (tm : steady_timer) : steady_timer :=
  match expiry tm with
  | Some _ => {| expiry := expiry tm; waits := map expire (waits tm) |}
  | None => tm
  end.

(** An outstanding [async_read]: into [header_], or into [body_buffer_]
    resized to [length]. *)
Inductive read_op : Type :=
| ReadHeader
| ReadBody (length : nat).

(** What the session does to the socket and to its callbacks. *)
Inductive effect : Type :=
| SocketShutdown                     (* socket_.shutdown(shutdown_both) *)
| SocketClose                        (* socket_.close() *)
| CloseCallback                      (* close_callback_() *)
| MessageHandler (message : list byte) (* message_handler_(message) *)
| AsyncWrite (buffers : list byte)   (* async_write(socket_, buffers) *)
| Throws.        (* remote_endpoint() throws, out of the handler running *)

Record t : Type := mk {
  socket_open         : bool;             (* socket_.is_open() *)
  heartbeat_timer_    : steady_timer;
  read_timeout_timer_ : steady_timer;
  header_             : list byte;        (* std::array<char, 4> *)
  body_buffer_        : list byte;
  write_queue_        : list (list byte); (* std::deque, front first *)
  message_handler_    : bool;             (* the std::function is set *)
  close_callback_     : bool;             (* the std::function is set *)
  posted   : list (list byte); (* executor: lambdas posted by send *)
  reads    : list read_op;     (* socket: outstanding reads, oldest first *)
  received : list byte;        (* socket: bytes taken by the oldest read *)
  writes   : list (list byte); (* socket: outstanding writes *)
  sent     : list (list byte); (* ghost: the arguments of send, in order *)
  trace    : list effect;      (* ghost: the effects so far *)
  connected : bool             (* socket: the peer is still connected *)
}.

Definition set_socket_open (v : bool) (s : t) : t :=
  mk v (heartbeat_timer_ s) (read_timeout_timer_ s) (header_ s)
     (body_buffer_ s) (write_queue_ s) (message_handler_ s) (close_callback_ s)
     (posted s) (reads s) (received s) (writes s) (sent s) (trace s)
     (connected s).

Definition set_heartbeat_timer_ (v : steady_timer) (s : t) : t :=
  mk (socket_open s) v (read_timeout_timer_ s) (header_ s)
     (body_buffer_ s) (write_queue_ s) (message_handler_ s) (close_callback_ s)
     (posted s) (reads s) (received s) (writes s) (sent s) (trace s)
     (connected s).

Definition set_read_timeout_timer_ (v : steady_timer) (s : t) : t :=
  mk (socket_open s) (heartbeat_timer_ s) v (header_ s)
     (body_buffer_ s) (write_queue_ s) (message_handler_ s) (close_callback_ s)
     (posted s) (reads s) (received s) (writes s) (sent s) (trace s)
     (connected s).

Definition set_header_ (v : list byte) (s : t) : t :=
  mk (socket_open s) (heartbeat_timer_ s) (read_timeout_timer_ s) v
     (body_buffer_ s) (write_queue_ s) (message_handler_ s) (close_callback_ s)
     (posted s) (reads s) (received s) (writes s) (sent s) (trace s)
     (connected s).

Definition set_body_buffer_ (v : list byte) (s : t) : t :=
  mk (socket_open s) (heartbeat_timer_ s) (read_timeout_timer_ s) (header_ s)
     v (write_queue_ s) (message_handler_ s) (close_callback_ s)
     (posted s) (reads s) (received s) (writes s) (sent s) (trace s)
     (connected s).

Definition set_write_queue_ (v : list (list byte)) (s : t) : t :=
  mk (socket_open s) (heartbeat_timer_ s) (read_timeout_timer_ s) (header_ s)
     (body_buffer_ s) v (message_handler_ s) (close_callback_ s)
     (posted s) (reads s) (received s) (writes s) (sent s) (trace s)
     (connected s).

Definition set_message_handler_ (v : bool) (s : t) : t :=
  mk (socket_open s) (heartbeat_timer_ s) (read_timeout_timer_ s) (header_ s)
     (body_buffer_ s) (write_queue_ s) v (close_callback_ s)
     (posted s) (reads s) (received s) (writes s) (sent s) (trace s)
     (connected s).

Definition set_close_callback_ (v : bool) (s : t) : t :=
  mk (socket_open s) (heartbeat_timer_ s) (read_timeout_timer_ s) (header_ s)
     (body_buffer_ s) (write_queue_ s) (message_handler_ s) v
     (posted s) (reads s) (received s) (writes s) (sent s) (trace s)
     (connected s).

Definition set_posted (v : list (list byte)) (s : t) : t :=
  mk (socket_open s) (heartbeat_timer_ s) (read_timeout_timer_ s) (header_ s)
     (body_buffer_ s) (write_queue_ s) (message_handler_ s) (close_callback_ s)
     v (reads s) (received s) (writes s) (sent s) (trace s)
     (connected s).

Definition set_reads (v : list read_op) (s : t) : t :=
  mk (socket_open s) (heartbeat_timer_ s) (read_timeout_timer_ s) (header_ s)
     (body_buffer_ s) (write_queue_ s) (message_handler_ s) (close_callback_ s)
     (posted s) v (received s) (writes s) (sent s) (trace s)
     (connected s).

Definition set_received (v : list byte) (s : t) : t :=
  mk (socket_open s) (heartbeat_timer_ s) (read_timeout_timer_ s) (header_ s)
     (body_buffer_ s) (write_queue_ s) (message_handler_ s) (close_callback_ s)
     (posted s) (reads s) v (writes s) (sent s) (trace s)
     (connected s).

Definition set_writes (v : list (list byte)) (s : t) : t :=
  mk (socket_open s) (heartbeat_timer_ s) (read_timeout_timer_ s) (header_ s)
     (body_buffer_ s) (write_queue_ s) (message_handler_ s) (close_callback_ s)
     (posted s) (reads s) (received s) v (sent s) (trace s)
     (connected s).

Definition set_sent (v : list (list byte)) (s : t) : t :=
  mk (socket_open s) (heartbeat_timer_ s) (read_timeout_timer_ s) (header_ s)
     (body_buffer_ s) (write_queue_ s) (message_handler_ s) (close_callback_ s)
     (posted s) (reads s) (received s) (writes s) v (trace s)
     (connected s).

Definition does (e : effect) (s : t) : t :=
  mk (socket_open s) (heartbeat_timer_ s) (read_timeout_timer_ s) (header_ s)
     (body_buffer_ s) (write_queue_ s) (message_handler_ s) (close_callback_ s)
     (posted s) (reads s) (received s) (writes s) (sent s) (trace s ++ [e])
     (connected s).

Definition set_connected (v : bool) (s : t) : t :=
  mk (socket_open s) (heartbeat_timer_ s) (read_timeout_timer_ s) (header_ s)
     (body_buffer_ s) (write_queue_ s) (message_handler_ s) (close_callback_ s)
     (posted s) (reads s) (received s) (writes s) (sent s) (trace s) v.

(** Constants of tcp_session.hpp; the intervals are in seconds. *)
Definition heartbeat_interval : nat := 30.
Definition read_timeout : nat := 120.
Definition max_body_length : Z := 10 * 1024 * 1024.

(** The literal of [start_heartbeat]. *)
Definition HEARTBEAT : list byte := list_byte_of_string "HEARTBEAT".

(** [std::vector<char>::resize] *)
Definition resize (n : nat) (v : list byte) : list byte :=
  firstn n v ++ repeat x00 (n - length v).

(** [TCPSession::TCPSession(socket)], on an established socket. *)
Definition ctor : t :=
  {| socket_open := true;
     heartbeat_timer_ := expires_at_max (mk_timer None []);
     read_timeout_timer_ := expires_at_max (mk_timer None []);
     header_ := [x00; x00; x00; x00];
     body_buffer_ := [];
     write_queue_ := [];
     message_handler_ := false;
     close_callback_ := false;
     posted := []; reads := []; received := []; writes := [];
     sent := []; trace := []; connected := true |}.

Definition set_close_callback (s : t) : t := set_close_callback_ true s.

Definition set_message_handler (s : t) : t := set_message_handler_ true s.

(** [TCPSession::close()] *)
Definition close (s : t) : t :=
  if socket_open s then
    let s := does SocketShutdown s in
    let s := set_socket_open false (does SocketClose s) in
    let s := set_heartbeat_timer_ (cancel (heartbeat_timer_ s)) s in
    let s := set_read_timeout_timer_ (cancel (read_timeout_timer_ s)) s in
    if close_callback_ s then does CloseCallback s else s
  else s.

(** Whether [remote_endpoint()] throws: the socket is closed, or the peer
    is no longer connected. *)
Definition remote_endpoint_throws (s : t) : bool :=
  negb (socket_open s) || negb (connected s).

(** [TCPSession::handle_error(ec)]: both branches on [ec] write a log line
    with [remote_endpoint()], which is evaluated before [close()]; when it
    throws, the exception leaves the function and [close()] is not
    reached. *)
Definition handle_error (ec : error_code) (s : t) : t :=
  if is_error ec && remote_endpoint_throws s then does Throws s
  else close s.

(** [TCPSession::send(message)]: the lambda is posted to the executor of the
    socket. *)
Definition send (message : list byte) (s : t) : t :=
  set_sent (sent s ++ [message]) (set_posted (posted s ++ [message]) s).

Section OnHost.

(** Byte order of the machine the session runs on. *)
Variable host : endianness.

(** [TCPSession::do_write()].  [front()] of an empty deque has no defined
    behaviour; the callers test the queue first. *)
Definition do_write (s : t) : t :=
  match write_queue_ s with
  | [] => s
  | message :: _ =>
      let buffers := frame host message in
      set_writes (writes s ++ [buffers]) (does (AsyncWrite buffers) s)
  end.

(** The completion handler of the [async_write] of [do_write]. *)
Definition write_handler (ec : error_code) (s : t) : t :=
  if is_error ec then handle_error ec s
  else
    let s := set_write_queue_ (tl (write_queue_ s)) s in
    match write_queue_ s with
    | [] => s
    | _ :: _ => do_write s
    end.

(** The lambda that [send] posts. *)
Definition send_lambda (msg : list byte) (s : t) : t :=
  let write_in_progress :=
    negb (match write_queue_ s with [] => true | _ => false end) in
  let s := set_write_queue_ (write_queue_ s ++ [msg]) s in
  if negb write_in_progress then do_write s else s.

(** [TCPSession::start_heartbeat()] *)
Definition start_heartbeat (s : t) : t :=
  set_heartbeat_timer_
    (async_wait (expires_after heartbeat_interval (heartbeat_timer_ s))) s.

(** The handler of the wait of [start_heartbeat]. *)
Definition heartbeat_handler (ec : error_code) (s : t) : t :=
  if is_error ec then s
  else if negb (socket_open s) then s
  else start_heartbeat (send HEARTBEAT s).

(** [TCPSession::reset_read_timeout()] *)
Definition reset_read_timeout (s : t) : t :=
  set_read_timeout_timer_
    (async_wait (expires_after read_timeout (read_timeout_timer_ s))) s.

(** The handler of the wait of [reset_read_timeout]; the log line with
    [remote_endpoint()] comes before [close()]. *)
Definition read_timeout_handler (ec : error_code) (s : t) : t :=
  if is_error ec then s
  else if remote_endpoint_throws s then does Throws s
  else close s.

(** [TCPSession::do_read_header()] *)
Definition do_read_header (s : t) : t :=
  let s := reset_read_timeout s in
  set_reads (reads s ++ [ReadHeader]) s.

(** [TCPSession::do_read_body(length)] *)
Definition do_read_body (length : Z) (s : t) : t :=
  let s := set_body_buffer_ (resize (Z.to_nat length) (body_buffer_ s)) s in
  set_reads (reads s ++ [ReadBody (Z.to_nat length)]) s.

(** The completion handler of the read of [do_read_header]; [header_]
    holds the bytes read.  For a length above the bound the log line with
    [remote_endpoint()] comes before [close()]. *)
Definition header_handler (ec : error_code) (s : t) : t :=
  let s := set_read_timeout_timer_ (cancel (read_timeout_timer_ s)) s in
  if is_error ec then handle_error ec s
  else
    let body_length := ntohl host (uint32_of_bytes host (header_ s)) in
    if (max_body_length <? body_length)%Z then
      if remote_endpoint_throws s then does Throws s else close s
    else do_read_body body_length s.

(** The completion handler of the read of [do_read_body]; [body_buffer_]
    holds the bytes read. *)
Definition body_handler (length : nat) (ec : error_code) (s : t) : t :=
  if is_error ec then handle_error ec s
  else
    let message := firstn length (body_buffer_ s) in
    let s := if message_handler_ s then does (MessageHandler message) s else s in
    do_read_header s.

(** [TCPSession::start()]; [throws] tells whether [remote_endpoint()] or
    [set_option] throws for a reason of its own.  The exception is caught
    here, and the handler of it calls [close()]. *)
Definition start (throws : bool) (s : t) : t :=
  if throws || remote_endpoint_throws s then close s
  else do_read_header (start_heartbeat s).

(** The oldest read completes with [ec], having put [bytes] in its
    buffer.  The reads of the source share [header_] and [body_buffer_];
    with a single read outstanding, as after one call of [start], that is
    the buffer of this read, and with more of them (after further calls of
    [start]) the bytes a handler finds there are not determined by this
    model. *)
Definition read_completes (ec : error_code) (bytes : list byte) (s : t) : t :=
  match reads s with
  | [] => s
  | ReadHeader :: rest =>
      let s := set_reads rest s in
      let s := if is_error ec then s else set_header_ bytes s in
      header_handler ec s
  | ReadBody length :: rest =>
      let s := set_reads rest s in
      let s := if is_error ec then s else set_body_buffer_ bytes s in
      body_handler length ec s
  end.

(** The number of bytes a read asks for. *)
Definition asks (op : read_op) : nat :=
  match op with ReadHeader => 4 | ReadBody length => length end.

(** What the executor of the session can run next.  A handler runs only
    for an operation that is outstanding; a read that succeeds has filled
    its buffer; calls of the user, from any thread or from a callback, are
    steps of their own. *)
Inductive event : Type :=
| CallStart (throws : bool)
| CallSend (message : list byte)
| CallClose
| CallSetCloseCallback
| CallSetMessageHandler
| RunPosted
| HeartbeatTimerExpires
| HeartbeatTimerHandler
| ReadTimerExpires
| ReadTimerHandler
| ReadCompletes (ec : error_code) (bytes : list byte)
| WriteCompletes (ec : error_code)
| Disconnects.  (* the peer resets the connection: the socket stays open,
                   and [remote_endpoint()] fails from now on *)

Definition exec (e : event) (s : t) : t :=
  match e with
  | CallStart throws => start throws s
  | CallSend message => send message s
  | CallClose => close s
  | CallSetCloseCallback => set_close_callback s
  | CallSetMessageHandler => set_message_handler s
  | RunPosted =>
      match posted s with
      | [] => s
      | msg :: rest => send_lambda msg (set_posted rest s)
      end
  | HeartbeatTimerExpires =>
      set_heartbeat_timer_ (expires (heartbeat_timer_ s)) s
  | HeartbeatTimerHandler =>
      let tm := heartbeat_timer_ s in
      match waits tm with
      | Expired :: rest =>
          heartbeat_handler success
            (set_heartbeat_timer_ (mk_timer (expiry tm) rest) s)
      | Aborted :: rest =>
          heartbeat_handler operation_aborted
            (set_heartbeat_timer_ (mk_timer (expiry tm) rest) s)
      | _ => s
      end
  | ReadTimerExpires =>
      set_read_timeout_timer_ (expires (read_timeout_timer_ s)) s
  | ReadTimerHandler =>
      let tm := read_timeout_timer_ s in
      match waits tm with
      | Expired :: rest =>
          read_timeout_handler success
            (set_read_timeout_timer_ (mk_timer (expiry tm) rest) s)
      | Aborted :: rest =>
          read_timeout_handler operation_aborted
            (set_read_timeout_timer_ (mk_timer (expiry tm) rest) s)
      | _ => s
      end
  | ReadCompletes ec bytes =>
      match reads s with
      | [] => s
      | op :: _ =>
          if is_error ec || (length bytes =? asks op)
          then read_completes ec bytes s
          else s
      end
  | WriteCompletes ec =>
      match writes s with
      | [] => s
      | _ :: rest => write_handler ec (set_writes rest s)
      end
  | Disconnects => set_connected false s
  end.

Definition run (es : list event) (s : t) : t :=
  fold_left (fun s e => exec e s) es s.

(** The arguments of the calls of [send] during the steps [es] from [s],
    in the order of the calls: those of the user, and the one of the
    handler of a heartbeat wait, which calls [send] when the wait has
    expired and the socket is open. *)
Fixpoint send_calls (es : list event) (s : t) : list (list byte) :=
  match es with
  | [] => []
  | e :: es' =>
      match e with
      | CallSend message => [message]
      | HeartbeatTimerHandler =>
          match waits (heartbeat_timer_ s) with
          | Expired :: _ => if socket_open s then [HEARTBEAT] else []
          | _ => []
          end
      | _ => []
      end ++ send_calls es' (exec e s)
  end.

(** The oldest read completes when the bytes received fill its buffer. *)
Definition deliver (s : t) : t :=
  match reads s with
  | [] => s
  | op :: _ =>
      if length (received s) =? asks op
      then read_completes success (received s) (set_received [] s)
      else s
  end.

(** One byte of the stream arrives while a read is outstanding: it goes to
    the oldest read; if the header it completes announces an empty body,
    the read of the body completes as well. *)
Definition arrives (s : t) (b : byte) : t :=
  match reads s with
  | [] => s
  | _ :: _ => deliver (deliver (set_received (received s ++ [b]) s))
  end.

(** The bytes of [stream] arrive in order. *)
Definition receive (stream : list byte) (s : t) : t :=
  fold_left arrives stream s.

End OnHost.

(** The effects of one kind in a trace. *)
Definition written (tr : list effect) : list (list byte) :=
  flat_map (fun e => match e with AsyncWrite buffers => [buffers] | _ => [] end) tr.

Definition handled (tr : list effect) : list (list byte) :=
  flat_map (fun e => match e with MessageHandler m => [m] | _ => [] end) tr.

Definition close_callbacks (tr : list effect) : nat :=
  length (filter (fun e => match e with CloseCallback => true | _ => false end) tr).

(** The calls of the close callback so far, plus one while the socket is
    open. *)
Definition close_balance (s : t) : nat :=
  close_callbacks (trace s) + (if socket_open s then 1 else 0).

(** What the write path keeps, for some list [done] of messages whose
    write has completed: the messages sent are those done, queued and
    posted, in this order; a write was started for those done and for the
    front of the queue, in this order; and the only write that can be
    outstanding is the one of the front of the queue. *)
Definition write_order (host : endianness) (s : t) : Prop :=
  exists done : list (list byte),
    sent s = done ++ write_queue_ s ++ posted s /\
    written (trace s) = map (frame host) (done ++ firstn 1 (write_queue_ s)) /\
    (writes s = [] \/ writes s = map (frame host) (firstn 1 (write_queue_ s))).

(** The waits of a timer that have not completed. *)
Definition pending_waits (tm : steady_timer) : nat :=
  length (filter (fun w => match w with Pending => true | _ => false end)
                 (waits tm)).

(** A sequence of steps in which [start] is not called. *)
Definition no_start (es : list event) : bool :=
  forallb (fun e => match e with CallStart _ => false | _ => true end) es.

(** The read loop: at most one read is outstanding, and exactly one while
    the socket is open and the peer connected. *)
Definition one_read (s : t) : Prop :=
  length (reads s) <= 1 /\
  (socket_open s = false \/ connected s = false \/ length (reads s) = 1).

End TCPSession.

(* ================================================================== *)
(** * TCPServer *)
(* ================================================================== *)

Module TCPServer.
Import Wire.

(** What the connection handler of the user does with a new session: it
    throws, or it returns, having installed a message handler or not. *)
Inductive user_handler : Type :=
| HandlerThrows
| HandlerReturns (installs_message_handler : bool).

(** A session is known by the number of the accept that created it. *)
Record t : Type := mk {
  acceptor_open       : bool;            (* acceptor_.is_open() *)
  accepts             : nat;             (* outstanding async_accept *)
  sessions_           : list (nat * TCPSession.t); (* std::set of pointers *)
  stopped_            : bool;
  connection_handler_ : bool;            (* the std::function is set *)
  created             : nat              (* ghost: sessions created so far *)
}.

(** [TCPServer::TCPServer(port)]: the acceptor is opened on the port. *)
Definition ctor : t :=
  {| acceptor_open := true; accepts := 0; sessions_ := [];
     stopped_ := false; connection_handler_ := false; created := 0 |}.

Definition set_sessions_ (v : list (nat * TCPSession.t)) (sv : t) : t :=
  {| acceptor_open := acceptor_open sv; accepts := accepts sv; sessions_ := v;
     stopped_ := stopped_ sv; connection_handler_ := connection_handler_ sv;
     created := created sv |}.

Definition set_accepts (v : nat) (sv : t) : t :=
  {| acceptor_open := acceptor_open sv; accepts := v; sessions_ := sessions_ sv;
     stopped_ := stopped_ sv; connection_handler_ := connection_handler_ sv;
     created := created sv |}.

(** [TCPServer::set_connection_handler(callback)] *)
Definition set_connection_handler (sv : t) : t :=
  {| acceptor_open := acceptor_open sv; accepts := accepts sv;
     sessions_ := sessions_ sv; stopped_ := stopped_ sv;
     connection_handler_ := true; created := created sv |}.

(** [TCPServer::start_accept()] *)
Definition start_accept (sv : t) : t := set_accepts (accepts sv + 1) sv.

(** [TCPServer::start()] *)
Definition start (sv : t) : t :=
  if stopped_ sv then sv else start_accept sv.

(** [TCPServer::remove_session(session)], called with the mutex free. *)
Definition remove_session (id : nat) (sv : t) : t :=
  set_sessions_ (filter (fun x => negb (fst x =? id)) (sessions_ sv)) sv.

(** Whether a step of a session called its close callback, which is the
    lambda of [handle_accept] that calls [remove_session]. *)
Definition called_back (before after : TCPSession.t) : bool :=
  TCPSession.close_callbacks (TCPSession.trace before)
    <? TCPSession.close_callbacks (TCPSession.trace after).

(** How [stop] ends: it returns, or the thread locks [sessions_mutex_]
    again while it holds it, for which [std::mutex] defines no behaviour
    (the thread blocks for ever). *)
Inductive stopping : Type :=
| Returns (sv : t)
| Relocks.

(** The loop of [stop], under [sessions_mutex_]: [close()] of a session
    calls its close callback, and with it [remove_session], which takes the
    lock. *)
Fixpoint close_all (ss : list (nat * TCPSession.t)) : bool :=
  match ss with
  | [] => true
  | (_, session) :: rest =>
      if called_back session (TCPSession.close session) then false
      else close_all rest
  end.

(** [TCPServer::stop()] *)
Definition stop (sv : t) : stopping :=
  if stopped_ sv then Returns sv
  else
    if close_all (sessions_ sv)
    then Returns {| acceptor_open := false; accepts := accepts sv;
                    sessions_ := []; stopped_ := true;
                    connection_handler_ := connection_handler_ sv;
                    created := created sv |}
    else Relocks.

(** [TCPServer::handle_accept(ec, socket)], the handler of the accept that
    completed; [start_throws] is what [TCPSession::start] meets.  The set
    holds pointers: the session is entered here in the state in which
    [handle_accept] leaves it.  The [io_context] that the function takes
    from the pool is not used for the session, and is left out. *)
Definition handle_accept (ec : TCPSession.error_code) (user : user_handler)
    (start_throws : bool) (sv : t) : t :=
  if TCPSession.is_error ec then sv
  else
    let id := created sv in
    let sv := {| acceptor_open := acceptor_open sv; accepts := accepts sv;
                 sessions_ := sessions_ sv;
                 stopped_ := stopped_ sv;
                 connection_handler_ := connection_handler_ sv;
                 created := S (created sv) |} in
    let session := TCPSession.set_close_callback TCPSession.ctor in
    let sv :=
      match (if connection_handler_ sv then user else HandlerReturns false) with
      | HandlerThrows => set_sessions_ (sessions_ sv ++ [(id, session)]) sv
      | HandlerReturns installs =>
          let session :=
            if installs then TCPSession.set_message_handler session
            else session in
          let started := TCPSession.start start_throws session in
          let sv := set_sessions_ (sessions_ sv ++ [(id, started)]) sv in
          if called_back session started then remove_session id sv else sv
      end in
    start_accept sv.

Section OnHost.

Variable host : endianness.

(** A step of the session [id]; when it calls the close callback, the
    session is removed.  A session that is not registered is no longer
    followed. *)
Fixpoint session_step (id : nat) (e : TCPSession.event)
    (ss : list (nat * TCPSession.t)) : list (nat * TCPSession.t) :=
  match ss with
  | [] => []
  | (i, session) :: rest =>
      if i =? id then
        let after := TCPSession.exec host e session in
        if called_back session after then rest else (i, after) :: rest
      else (i, session) :: session_step id e rest
  end.

(** What happens to a server: calls of its member functions, the
    completion of an accept, and the steps of its sessions other than the
    user setting another close callback. *)
Inductive event : Type :=
| CallStart
| CallStop
| CallSetConnectionHandler
| AcceptCompletes (ec : TCPSession.error_code) (user : user_handler)
                  (start_throws : bool)
| SessionStep (id : nat) (e : TCPSession.event).

Definition exec (e : event) (sv : t) : stopping :=
  match e with
  | CallStart => Returns (start sv)
  | CallStop => stop sv
  | CallSetConnectionHandler => Returns (set_connection_handler sv)
  | AcceptCompletes ec user start_throws =>
      match accepts sv with
      | O => Returns sv
      | S n => Returns (handle_accept ec user start_throws (set_accepts n sv))
      end
  | SessionStep id e =>
      match e with
      | TCPSession.CallSetCloseCallback => Returns sv
      | _ => Returns (set_sessions_ (session_step id e (sessions_ sv)) sv)
      end
  end.

Fixpoint run (es : list event) (sv : t) : stopping :=
  match es with
  | [] => Returns sv
  | e :: es' =>
      match exec e sv with
      | Returns sv' => run es' sv'
      | Relocks => Relocks
      end
  end.

End OnHost.

(** What the set of sessions keeps: every session in it has an open socket
    and the close callback of the server, and was created by an accept. *)
Definition registered_open (sv : t) : Prop :=
  Forall (fun x => TCPSession.socket_open (snd x) = true /\
                   TCPSession.close_callback_ (snd x) = true /\
                   fst x < created sv) (sessions_ sv).

(** Steps that are not a call of [start]. *)
Definition not_start (e : event) : bool :=
  match e with CallStart => false | _ => true end.

End TCPServer.

(* ================================================================== *)
(** * std::string *)
(* ================================================================== *)

Module StdString.

(** [std::string] is a sequence of [char]. *)
Definition str : Type := list byte.

Fixpoint str_eqb (a b : str) : bool :=
  match a, b with
  | [], [] => true
  | x :: a', y :: b' => Byte.eqb x y && str_eqb a' b'
  | _, _ => false
  end.

(** Whether [c] is one of the characters of [set]. *)
Definition member (c : byte) (set : str) : bool := existsb (Byte.eqb c) set.

(** The results of the searches are positions or [std::string::npos],
    which is [None] here. *)

(** [s.find_first_not_of(set)] *)
Fixpoint find_first_not_of (set s : str) : option nat :=
  match s with
  | [] => None
  | c :: rest =>
      if member c set then option_map S (find_first_not_of set rest)
      else Some 0
  end.

(** [s.find_last_not_of(set)] *)
Fixpoint find_last_not_of (set s : str) : option nat :=
  match s with
  | [] => None
  | c :: rest =>
      match find_last_not_of set rest with
      | Some i => Some (S i)
      | None => if member c set then None else Some 0
      end
  end.

(** [s.find(c)] *)
Fixpoint find (c : byte) (s : str) : option nat :=
  match s with
  | [] => None
  | x :: rest => if Byte.eqb x c then Some 0 else option_map S (find c rest)
  end.

(** [pos + 1] on [size_t]: [npos] is the largest value, and [npos + 1]
    wraps around to 0. *)
Definition plus_one (pos : option nat) : nat :=
  match pos with
  | Some i => S i
  | None => 0
  end.

(** [s.erase(pos, n)], for [pos <= s.size()] as at every call below: the
    characters from [pos] on are removed, at most [n] of them. *)
Definition erase (pos : nat) (n : option nat) (s : str) : str :=
  match n with
  | Some n => firstn pos s ++ skipn (pos + n) s
  | None => firstn pos s
  end.

(** [s.substr(pos, n)], for [pos <= s.size()] as at every call below. *)
Definition substr (pos : nat) (n : option nat) (s : str) : str :=
  match n with
  | Some n => firstn n (skipn pos s)
  | None => skipn pos s
  end.

(** Whether [s] begins with [pattern]. *)
Fixpoint starts_with (pattern s : str) : bool :=
  match pattern, s with
  | [], _ => true
  | _ :: _, [] => false
  | x :: pattern', y :: s' => Byte.eqb x y && starts_with pattern' s'
  end.

(** [s.find(pattern)] for a string [pattern] *)
Fixpoint find_str (pattern s : str) : option nat :=
  if starts_with pattern s then Some 0
  else
    match s with
    | [] => None
    | _ :: rest => option_map S (find_str pattern rest)
    end.

End StdString.

(* ================================================================== *)
(** * ConfigManager *)
(* ================================================================== *)

Module ConfigManager.
Import StdString.

(** The character sets of [ParseIniFile]: [" \t\r\n"] and [" \t"]. *)
Definition whitespace : str := [x20; x09; x0d; x0a].
Definition blank : str := [x20; x09].

(** The lines that [std::getline(stream, line)] yields in turn until it
    fails: a line ends at ['\n'], which is dropped, or at the end of the
    content; after the last ['\n'] an empty rest is no line. *)
Fixpoint getlines (content : str) : list str :=
  match content with
  | [] => []
  | c :: rest =>
      if Byte.eqb c x0a then [] :: getlines rest
      else
        match getlines rest with
        | [] => [[c]]
        | line :: lines => (c :: line) :: lines
        end
  end.

(** [std::map<std::string, V>], as the list of its entries: a key occurs
    at most once.  The order of the keys is of no matter to the functions
    below. *)
Section Map.

Variable V : Type.

(** [m.find(key)], with [None] for [m.end()]. *)
Fixpoint map_find (key : str) (m : list (str * V)) : option V :=
  match m with
  | [] => None
  | (k, v) :: rest => if str_eqb key k then Some v else map_find key rest
  end.

(** [f(m[key])]: [operator[]] enters [key] with a value-initialised
    [V] when the map has no such key; [f] then works on the element. *)
Fixpoint map_at (key : str) (initial : V) (f : V -> V) (m : list (str * V))
    : list (str * V) :=
  match m with
  | [] => [(key, f initial)]
  | (k, v) :: rest =>
      if str_eqb key k then (k, f v) :: rest
      else (k, v) :: map_at key initial f rest
  end.

End Map.

Record SectionInfo : Type := mkSectionInfo {
  _section_datas : list (str * str)
}.

(** [SectionInfo::operator[](key)] and [SectionInfo::GetValue(key)] *)
Definition section_GetValue (key : str) (section : SectionInfo) : str :=
  match map_find key (_section_datas section) with
  | None => []
  | Some value => value
  end.

(** [SectionInfo::HasKey(key)] *)
Definition section_HasKey (key : str) (section : SectionInfo) : bool :=
  match map_find key (_section_datas section) with
  | None => false
  | Some _ => true
  end.

Record t : Type := mk {
  _config_map  : list (str * SectionInfo);
  _config_file : str;
  _loaded      : bool
}.

(** [ConfigManager::ConfigManager()] *)
Definition ctor : t :=
  {| _config_map := []; _config_file := []; _loaded := false |}.

(** The body of the loop of [ParseIniFile], on the line just read; the
    state is [currentSection] and [_config_map]. *)
Definition parse_line (line : str)
    (st : str * list (str * SectionInfo)) : str * list (str * SectionInfo) :=
  let (currentSection, config_map) := st in
  let line := erase 0 (find_first_not_of whitespace line) line in
  let line := erase (plus_one (find_last_not_of whitespace line)) None line in
  match line with
  | [] => st
  | first :: _ =>
      if Byte.eqb first ";"%byte || Byte.eqb first "#"%byte then st
      else if Byte.eqb first "["%byte && Byte.eqb (last line x00) "]"%byte
      then (substr 1 (Some (List.length line - 2)) line, config_map)
      else
        match find "="%byte line with
        | None => st
        | Some pos =>
            let key := substr 0 (Some pos) line in
            let value := substr (pos + 1) None line in
            let key := erase 0 (find_first_not_of blank key) key in
            let key := erase (plus_one (find_last_not_of blank key)) None key in
            let value := erase 0 (find_first_not_of blank value) value in
            let value :=
              erase (plus_one (find_last_not_of blank value)) None value in
            match key with
            | [] => st
            | _ :: _ =>
                (currentSection,
                 map_at currentSection (mkSectionInfo [])
                   (fun section =>
                      mkSectionInfo
                        (map_at key [] (fun _ => value)
                           (_section_datas section)))
                   config_map)
            end
        end
  end.

(** [ConfigManager::ParseIniFile(content)]: what it returns and the
    [_config_map] it leaves. *)
Definition ParseIniFile (content : str) (cm : t) : bool * t :=
  let st := fold_left (fun st line => parse_line line st)
                      (getlines content) ([], []) in
  (true, {| _config_map := snd st; _config_file := _config_file cm;
            _loaded := _loaded cm |}).

(** [ConfigManager::operator[](section)] *)
Definition at_section (section : str) (cm : t) : SectionInfo :=
  match map_find section (_config_map cm) with
  | None => mkSectionInfo []
  | Some info => info
  end.

(** [ConfigManager::GetValue(section, key)] *)
Definition GetValue (section key : str) (cm : t) : str :=
  section_GetValue key (at_section section cm).

(** [ConfigManager::HasSection(section)] *)
Definition HasSection (section : str) (cm : t) : bool :=
  match map_find section (_config_map cm) with
  | None => false
  | Some _ => true
  end.

(** [ConfigManager::HasKey(section, key)] *)
Definition HasKey (section key : str) (cm : t) : bool :=
  section_HasKey key (at_section section cm).

(** A string that neither begins nor ends with a space or a tab. *)
Definition trimmed (s : str) : bool :=
  match s with
  | [] => true
  | first :: _ => negb (member first blank) && negb (member (last s x00) blank)
  end.

(** An entry of a section as [ParseIniFile] enters it. *)
Definition entered (entry : str * str) : Prop :=
  fst entry <> [] /\ trimmed (fst entry) = true /\
  member "="%byte (fst entry) = false /\ trimmed (snd entry) = true.

Definition all_entered (config_map : list (str * SectionInfo)) : Prop :=
  Forall (fun section => Forall entered (_section_datas (snd section)))
         config_map.

(** A string of spaces and tabs. *)
Definition blanks (s : str) : bool := forallb (fun c => member c blank) s.

(** A string within one line. *)
Definition one_line (s : str) : bool := negb (member x0a s).

(** A key as an INI file writes it: not empty, within one line, without
    ['='], beginning with none of white space, [';'], ['#'] and ['['], and
    not ending with a space or a tab. *)
Definition plain_key (key : str) : bool :=
  match key with
  | [] => false
  | first :: _ =>
      one_line key && negb (member "="%byte key)
      && negb (member first (whitespace ++ [";"%byte; "#"%byte; "["%byte]))
      && negb (member (last key x00) blank)
  end.

(** A value as an INI file writes it: within one line, not beginning with
    a space or a tab and not ending with white space. *)
Definition plain_value (value : str) : bool :=
  match value with
  | [] => true
  | first :: _ =>
      one_line value && negb (member first blank)
      && negb (member (last value x00) whitespace)
  end.

(** The text [[section]], a new line, and [key = value] with any blanks
    around the ['=']. *)
Definition assignment (section key before after value : str) : str :=
  ["["%byte] ++ section ++ ["]"%byte; x0a]
  ++ key ++ before ++ ["="%byte] ++ after ++ value.

End ConfigManager.

(* ================================================================== *)
(** * MemoryPool *)
(* ================================================================== *)

Module MemoryPool.

(** A [Node*]: the number of a block of [blocks_] and the index of a node
    in it.  A pointer to anything else is an address with no node. *)
Definition address : Type := (nat * nat)%type.

(** [nullptr] is [None]. *)
Definition pointer : Type := option address.

Definition address_eqb (a b : address) : bool :=
  (fst a =? fst b) && (snd a =? snd b).

(** [v[i] = x], where it is in range. *)
Fixpoint assign (A : Type) (i : nat) (x : A) (v : list A) : list A :=
  match v, i with
  | [], _ => []
  | _ :: rest, O => x :: rest
  | y :: rest, S i' => y :: assign i' x rest
  end.

Section WithObjectType.

(** [T], [BlockSize], and the pointer that the bytes of an object are when
    they are read as [Node::next]. *)
Variable T : Type.
Variable BlockSize : nat.
Variable reinterpret : T -> pointer.

(** [union Node]: the member last written. *)
Inductive Node : Type :=
| storage (object : T)
| next (p : pointer).

Record t : Type := mk {
  freeList_ : pointer;
  blocks_   : list (list Node)
}.

(** The node at an address, if there is one. *)
Definition node_at (a : address) (blocks : list (list Node)) : option Node :=
  match nth_error blocks (fst a) with
  | Some block => nth_error block (snd a)
  | None => None
  end.

(** Writing the node at an address; there is no result when the address
    has no node. *)
Definition write (a : address) (n : Node) (blocks : list (list Node))
    : option (list (list Node)) :=
  match node_at a blocks with
  | Some _ =>
      Some (assign (fst a) (assign (snd a) n (nth (fst a) blocks [])) blocks)
  | None => None
  end.

(** [node->next] *)
Definition read_next (n : Node) : pointer :=
  match n with
  | next p => p
  | storage object => reinterpret object
  end.

(** [MemoryPool::expandPool()]; [operator new] is taken to succeed.  With
    [BlockSize] 0, [BlockSize - 1] wraps around and the loop writes outside
    the block: there is no result. *)
Definition expandPool (pool : t) : option t :=
  match BlockSize with
  | O => None
  | S final =>
      let block := List.length (blocks_ pool) in
      Some {| freeList_ := Some (block, 0);
              blocks_ :=
                blocks_ pool
                ++ [map (fun i => next (Some (block, i + 1))) (seq 0 final)
                    ++ [next None]] |}
  end.

(** [MemoryPool::MemoryPool()] *)
Definition ctor : option t := expandPool {| freeList_ := None; blocks_ := [] |}.

(** [MemoryPool::allocate(args...)], with the object that [T(args...)]
    constructs: the pointer returned and the pool.  There is no result when
    the code reads or writes where no node is. *)
Definition allocate (object : T) (pool : t) : option (address * t) :=
  match (match freeList_ pool with
         | None => expandPool pool
         | Some _ => Some pool
         end) with
  | None => None
  | Some pool =>
      match freeList_ pool with
      | None => None
      | Some node =>
          match node_at node (blocks_ pool) with
          | None => None
          | Some n =>
              match write node (storage object) (blocks_ pool) with
              | None => None
              | Some blocks =>
                  Some (node, {| freeList_ := read_next n; blocks_ := blocks |})
              end
          end
      end
  end.

(** [MemoryPool::deallocate(ptr)] *)
Definition deallocate (ptr : pointer) (pool : t) : option t :=
  match ptr with
  | None => Some pool
  | Some node =>
      match write node (next (freeList_ pool)) (blocks_ pool) with
      | None => None
      | Some blocks => Some {| freeList_ := Some node; blocks_ := blocks |}
      end
  end.

(** A client of the pool and the pointers it holds: it allocates, and it
    deallocates a pointer that it holds, once. *)
Inductive call : Type :=
| Allocate (object : T)
| Deallocate (ptr : address).

Inductive outcome : Type :=
| Holds (pool : t) (held : list address)
| Misused
| Undefined.

Definition holds (ptr : address) (held : list address) : bool :=
  existsb (address_eqb ptr) held.

Definition release (ptr : address) (held : list address) : list address :=
  filter (fun a => negb (address_eqb ptr a)) held.

Definition exec (c : call) (pool : t) (held : list address) : outcome :=
  match c with
  | Allocate object =>
      match allocate object pool with
      | Some (ptr, pool') => Holds pool' (ptr :: held)
      | None => Undefined
      end
  | Deallocate ptr =>
      if holds ptr held then
        match deallocate (Some ptr) pool with
        | Some pool' => Holds pool' (release ptr held)
        | None => Undefined
        end
      else Misused
  end.

Fixpoint run_from (calls : list call) (pool : t) (held : list address)
    : outcome :=
  match calls with
  | [] => Holds pool held
  | c :: calls' =>
      match exec c pool held with
      | Holds pool' held' => run_from calls' pool' held'
      | Misused => Misused
      | Undefined => Undefined
      end
  end.

Definition run (calls : list call) : outcome :=
  match ctor with
  | Some pool => run_from calls pool []
  | None => Undefined
  end.

(** The free list: the nodes reached from a pointer through [next]. *)
Inductive free_list (blocks : list (list Node)) : pointer -> list address -> Prop :=
| free_list_end : free_list blocks None []
| free_list_node (a : address) (p : pointer) (rest : list address) :
    node_at a blocks = Some (next p) ->
    free_list blocks p rest ->
    free_list blocks (Some a) (a :: rest).

(** What the pool keeps for such a client: the free list ends, no node is
    twice in it, none of its nodes is held, and what is held are nodes,
    each held once. *)
Definition sound (pool : t) (held : list address) : Prop :=
  exists free,
    free_list (blocks_ pool) (freeList_ pool) free /\
    NoDup (free ++ held) /\
    Forall (fun a => node_at a (blocks_ pool) <> None) held.

End WithObjectType.

End MemoryPool.

(* ================================================================== *)
(** * Logger *)
(* ================================================================== *)

Module Logger.
Import StdString.

Inductive LogLevel : Type := DEBUG | INFO | WARN | ERROR | FATAL.

(** [static_cast<int>(level)] *)
Definition static_cast_int (level : LogLevel) : nat :=
  match level with
  | DEBUG => 0
  | INFO => 1
  | WARN => 2
  | ERROR => 3
  | FATAL => 4
  end.

(** The members, and what has been written to [std::cout] and to
    [_logFile]. *)
Record t : Type := mk {
  _logFile_is_open : bool;
  _currentLevel    : LogLevel;
  _initialized     : bool;
  cout             : list str;
  _logFile         : list str
}.

(** [Logger::Logger()] *)
Definition ctor : t :=
  {| _logFile_is_open := false; _currentLevel := INFO; _initialized := false;
     cout := []; _logFile := [] |}.

(** [Logger::SetLogLevel(level)] *)
Definition SetLogLevel (level : LogLevel) (lg : t) : t :=
  {| _logFile_is_open := _logFile_is_open lg; _currentLevel := level;
     _initialized := _initialized lg; cout := cout lg;
     _logFile := _logFile lg |}.

(** [Logger::GetLevelString(level)] *)
Definition GetLevelString (level : LogLevel) : str :=
  match level with
  | DEBUG => list_byte_of_string "DEBUG"
  | INFO => list_byte_of_string "INFO "
  | WARN => list_byte_of_string "WARN "
  | ERROR => list_byte_of_string "ERROR"
  | FATAL => list_byte_of_string "FATAL"
  end.

(** [Logger::FormatMessage(format, args...)]; each argument is given as the
    text that [oss << value] makes of it. *)
Fixpoint FormatMessage (format : str) (args : list str) : str :=
  match args with
  | [] => format
  | value :: args' =>
      match find_str (list_byte_of_string "{}") format with
      | None => format
      | Some pos =>
          FormatMessage
            (substr 0 (Some pos) format ++ value
             ++ substr (pos + 2) None format)
            args'
      end
  end.

(** How a member function ends: it returns, or the thread locks
    [_logMutex] again while it holds it, for which [std::mutex] defines no
    behaviour (the thread blocks for ever). *)
Inductive ending : Type :=
| Returns (lg : t)
| Relocks.

(** [Logger::Log(level, message)], called by a thread that holds
    [_logMutex] or does not; [now] is what [GetCurrentTime()] returns. *)
Definition Log (holds_logMutex : bool) (now : str) (level : LogLevel)
    (message : str) (lg : t) : ending :=
  if static_cast_int level <? static_cast_int (_currentLevel lg)
  then Returns lg
  else if holds_logMutex then Relocks
  else
    let logMessage :=
      now ++ list_byte_of_string " [" ++ GetLevelString level
      ++ list_byte_of_string "] " ++ message ++ [x0a] in
    Returns {| _logFile_is_open := _logFile_is_open lg;
               _currentLevel := _currentLevel lg;
               _initialized := _initialized lg;
               cout := cout lg ++ [logMessage];
               _logFile := if _logFile_is_open lg
                           then _logFile lg ++ [logMessage]
                           else _logFile lg |}.

(** [Logger::Info(format, args...)] *)
Definition Info (holds_logMutex : bool) (now : str) (format : str)
    (args : list str) (lg : t) : ending :=
  Log holds_logMutex now INFO (FormatMessage format args) lg.

(** The decimal digit of a number below ten. *)
Definition digit (n : nat) : byte :=
  match Byte.of_N (48 + N.of_nat n) with
  | Some b => b
  | None => x30
  end.

(** [Logger::Init(logFile, level)]; [opens] is whether the file can be
    opened. *)
Definition Init (opens : bool) (now : str) (logFile : str) (level : LogLevel)
    (lg : t) : ending :=
  if _initialized lg then Returns lg
  else
    Info true now
      (list_byte_of_string "Logger initialized with level: {}")
      [[digit (static_cast_int level)]]
      {| _logFile_is_open := opens; _currentLevel := level;
         _initialized := true; cout := cout lg; _logFile := _logFile lg |}.

(** The pieces of a format with a placeholder between every two. *)
Fixpoint placeholders_between (first : str) (pieces : list str) : str :=
  match pieces with
  | [] => first
  | piece :: pieces' =>
      first ++ list_byte_of_string "{}" ++ placeholders_between piece pieces'
  end.

(** The pieces with the arguments between them, in their order. *)
Fixpoint arguments_between (first : str) (pieces args : list str) : str :=
  match pieces, args with
  | piece :: pieces', value :: args' =>
      first ++ value ++ arguments_between piece pieces' args'
  | _, _ => placeholders_between first pieces
  end.

(** A string without ['{']. *)
Definition no_brace (s : str) : bool := negb (member "{"%byte s).

End Logger.

(* ================================================================== *)
(** * Round-robin assignment of contexts *)
(* ================================================================== *)

Module IOServicePoolProofs.
Import IOServicePool.

Lemma push_back_seq (n a : nat) (v : list nat) :
  fold_left (fun v i => v ++ [i]) (seq a n) v = v ++ seq a n.
Proof.
  revert a v; induction n as [|n IH]; intros a v; simpl.
  - now rewrite app_nil_r.
  - rewrite IH, <- app_assoc; reflexivity.
Qed.

Lemma ctor_services (n : nat) : io_services_ (ctor n) = seq 0 n.
Proof. unfold ctor; simpl. now rewrite push_back_seq. Qed.

Lemma calls_services (n : nat) (p : t) :
  io_services_ (snd (calls n p)) = io_services_ p.
Proof.
  revert p; induction n as [|n IH]; intros p; simpl; [reflexivity|].
  specialize (IH (snd (GetIOService p))).
  destruct (calls n _) as [rs p2] eqn:E; simpl in *. exact IH.
Qed.

Lemma calls_add (a b : nat) (p : t) :
  calls (a + b) p =
  (fst (calls a p) ++ fst (calls b (snd (calls a p))),
   snd (calls b (snd (calls a p)))).
Proof.
  revert p; induction a as [|a IH]; intros p; simpl.
  - now destruct (calls b p).
  - rewrite IH.
    destruct (calls a _) as [rs p2]; simpl. reflexivity.
Qed.

Lemma calls_S (n : nat) (p : t) :
  calls (S n) p =
  (fst (GetIOService p) :: fst (calls n (snd (GetIOService p))),
   snd (calls n (snd (GetIOService p)))).
Proof.
  simpl. destruct (calls n _) as [rs p2]; reflexivity.
Qed.

(** Calls that do not wrap past the end of the vector. *)
Lemma calls_run (N m j : nat) (p : t) :
  io_services_ p = seq 0 N -> next_io_service_ p = j -> j + m <= N -> 0 < m ->
  fst (calls m p) = map Some (seq j m) /\
  next_io_service_ (snd (calls m p)) = (if j + m =? N then 0 else j + m).
Proof.
  revert j p; induction m as [|m IH]; intros j p Hs Hn Hle Hm; [lia|].
  rewrite calls_S. destruct p as [sv nx ps]; cbn [io_services_ next_io_service_] in Hs, Hn.
  subst sv nx. unfold GetIOService; cbn [fst snd io_services_ next_io_service_ pool_size_].
  assert (Hr : @nth_error IOService (seq 0 N) j = Some j).
  { rewrite nth_error_nth' with (d := 0) by (rewrite length_seq; lia).
    rewrite seq_nth by lia. reflexivity. }
  rewrite Hr, length_seq.
  destruct m as [|m].
  - cbn. split; [reflexivity|].
    destruct (Nat.leb_spec N (j + 1)), (Nat.eqb_spec (j + 1) N); lia || reflexivity.
  - assert (Hlt : (N <=? j + 1) = false) by (apply Nat.leb_gt; lia).
    rewrite Hlt.
    match goal with |- context [calls (S m) ?q] =>
      destruct (IH (j + 1) q) as [H1 H2]; [reflexivity | reflexivity | lia | lia |]
    end.
    rewrite H1, H2.
    replace (j + 1) with (S j) by lia.
    replace (S j + S m) with (j + S (S m)) by lia. split; reflexivity.
Qed.

Lemma calls_cycle (N j : nat) (p : t) :
  io_services_ p = seq 0 N -> next_io_service_ p = j -> j < N ->
  fst (calls N p) = map Some (seq j (N - j) ++ seq 0 j) /\
  next_io_service_ (snd (calls N p)) = j.
Proof.
  intros Hs Hn Hj.
  replace N with ((N - j) + j) at 1 3 by lia.
  rewrite calls_add; simpl.
  destruct (@calls_run N (N - j) j p) as [H1 H2]; auto; try lia.
  replace (j + (N - j) =? N) with true in H2 by (symmetry; apply Nat.eqb_eq; lia).
  destruct j as [|j].
  - simpl. rewrite !app_nil_r. split; assumption.
  - destruct (@calls_run N (S j) 0 (snd (calls (N - S j) p))) as [H3 H4]; auto; try lia.
    { rewrite calls_services; assumption. }
    rewrite H1, H3, H4, map_app. split; [reflexivity|].
    destruct (Nat.eqb_spec (0 + S j) N); lia.
Qed.

Lemma times_returned_app (c : IOService) (a b : list (option IOService)) :
  times_returned c (a ++ b) = times_returned c a + times_returned c b.
Proof. unfold times_returned. now rewrite filter_app, length_app. Qed.

Lemma times_returned_seq (c a m : nat) :
  times_returned c (map Some (seq a m)) =
  if (a <=? c) && (c <? a + m) then 1 else 0.
Proof.
  revert a; induction m as [|m IH]; intros a; simpl.
  - destruct (Nat.leb_spec a c), (Nat.ltb_spec c (a + 0)); simpl; lia || reflexivity.
  - unfold times_returned in *; simpl.
    destruct (Nat.eqb_spec a c) as [->|Hne]; simpl; rewrite IH.
    + destruct (Nat.leb_spec (S c) c), (Nat.leb_spec c c),
        (Nat.ltb_spec c (c + S m)); simpl; lia.
    + destruct (Nat.leb_spec (S a) c), (Nat.leb_spec a c),
        (Nat.ltb_spec c (S a + m)), (Nat.ltb_spec c (a + S m)); simpl; lia.
Qed.

Lemma times_returned_cycle (N j c : nat) (p : t) :
  io_services_ p = seq 0 N -> next_io_service_ p = j -> j < N ->
  times_returned c (fst (calls N p)) = if c <? N then 1 else 0.
Proof.
  intros Hs Hn Hj.
  destruct (@calls_cycle N j p Hs Hn Hj) as [H _].
  rewrite H, map_app, times_returned_app, !times_returned_seq.
  destruct (Nat.leb_spec j c), (Nat.ltb_spec c (j + (N - j))),
    (Nat.leb_spec 0 c), (Nat.ltb_spec c (0 + j)), (Nat.ltb_spec c N);
    simpl; lia.
Qed.

Lemma calls_next (N k : nat) :
  0 < N -> next_io_service_ (snd (calls k (ctor N))) = k mod N.
Proof.
  intros HN.
  induction k as [|k IH].
  - simpl. now rewrite Nat.Div0.mod_0_l.
  - replace (S k) with (k + 1) by lia.
    rewrite calls_add.
    pose proof (calls_services k (ctor N)) as Hs.
    rewrite ctor_services in Hs.
    destruct (calls k (ctor N)) as [rs p]; cbn [fst snd] in *.
    destruct p as [sv nx ps]; cbn [io_services_ next_io_service_] in *.
    subst sv nx. cbn. rewrite length_seq.
    pose proof (Nat.mod_upper_bound k N ltac:(lia)) as Hb.
    pose proof (Nat.div_mod_eq k N) as Hk.
    destruct (Nat.leb_spec N (k mod N + 1)).
    + apply Nat.mod_unique with (q := S (k / N)); nia.
    + apply Nat.mod_unique with (q := k / N); nia.
Qed.

(** C9.  On a pool constructed with [N] contexts, the k-th call of
    [GetIOService] (counting from 0) returns context [k mod N]; and among the
    results of any [2 * N] consecutive calls, starting after any number [k]
    of earlier calls, each of the [N] contexts occurs exactly twice (and
    nothing else occurs). *)
Theorem GetIOService_round_robin (N k c : nat) :
  0 < N ->
  let p := snd (calls k (ctor N)) in
  fst (GetIOService p) = Some (k mod N) /\
  times_returned c (fst (calls (2 * N) p)) = (if c <? N then 2 else 0).
Proof.
  intros HN p.
  assert (Hs : io_services_ p = seq 0 N).
  { unfold p. now rewrite calls_services, ctor_services. }
  assert (Hn : next_io_service_ p = k mod N) by (apply calls_next; exact HN).
  pose proof (Nat.mod_upper_bound k N ltac:(lia)) as Hb.
  split.
  - unfold GetIOService; cbn [fst]. rewrite Hs, Hn.
    unfold IOService.
    rewrite nth_error_nth' with (d := 0) by (rewrite length_seq; lia).
    now rewrite seq_nth by lia.
  - replace (2 * N) with (N + N) by lia.
    rewrite calls_add; cbn [fst].
    rewrite times_returned_app.
    destruct (@calls_cycle N (k mod N) p Hs Hn Hb) as [_ Hback].
    rewrite (@times_returned_cycle N (k mod N) c p Hs Hn Hb).
    rewrite (@times_returned_cycle N (k mod N) c (snd (calls N p))); auto.
    + destruct (c <? N); reflexivity.
    + now rewrite calls_services.
Qed.

Lemma GetIOService_round_robin_witness :
  fst (GetIOService (snd (calls 7 (ctor 3)))) = Some 1 /\
  times_returned 2 (fst (calls 6 (snd (calls 7 (ctor 3))))) = 2.
Proof.
  apply (@GetIOService_round_robin 3 7 2). lia.
Defined.

End IOServicePoolProofs.

(* ================================================================== *)
(** * The free queue of the connection pool *)
(* ================================================================== *)

Module ConnectionPoolProofs.
Import ConnectionPool.

Section WithConnectionType.

Variable ConnectionType : Type.

Lemma precreate_length (n : nat) (factory : ConnectionFactory ConnectionType)
    (q : list ConnectionType) (made : nat) :
  length (fst (precreate n factory q made)) <= length q + n.
Proof.
  revert q made; induction n as [|n IH]; intros q made; simpl; [lia|].
  destruct (factory made) as [c|].
  - specialize (IH (q ++ [c]) (S made)). rewrite length_app in IH. simpl in IH. lia.
  - specialize (IH q (S made)). lia.
Qed.

Lemma precreate_calls (n : nat) (factory : ConnectionFactory ConnectionType)
    (q : list ConnectionType) (made : nat) :
  snd (precreate n factory q made) = made + n.
Proof.
  revert q made; induction n as [|n IH]; intros q made; simpl; [lia|].
  destruct (factory made); rewrite IH; lia.
Qed.

Lemma Initialize_capacity (C : nat) (factory : ConnectionFactory ConnectionType)
    (p : t ConnectionType) :
  _poolSize (Initialize C factory p) = C.
Proof.
  unfold Initialize. destruct (precreate _ _ _ _); reflexivity.
Qed.

Lemma Initialize_connections (C : nat)
    (factory : ConnectionFactory ConnectionType) (p : t ConnectionType) :
  _connections (Initialize C factory p) =
  fst (precreate C factory (_connections p) (factory_calls p)).
Proof.
  unfold Initialize. destruct (precreate _ _ _ _); reflexivity.
Qed.

(** [Initialize] appends to the queue it finds: it establishes the bound
    when that queue is empty, as in a new pool and in a closed one. *)
Lemma Initialize_within_capacity (C : nat)
    (factory : ConnectionFactory ConnectionType) (p : t ConnectionType) :
  _connections p = [] -> within_capacity (Initialize C factory p).
Proof.
  intros Hq. unfold within_capacity.
  rewrite Initialize_capacity, Initialize_connections, Hq.
  apply (precreate_length C factory [] (factory_calls p)).
Qed.

Lemma GetConnection_within_capacity (p : t ConnectionType) :
  within_capacity p -> within_capacity (snd (GetConnection p)).
Proof.
  unfold within_capacity, GetConnection.
  destruct p as [st sz q f made]; simpl.
  destruct st, q as [|c q], f; simpl; lia.
Qed.

Lemma ReturnConnection_within_capacity (c : ConnectionPtr ConnectionType)
    (p : t ConnectionType) :
  within_capacity p -> within_capacity (ReturnConnection c p).
Proof.
  unfold within_capacity, ReturnConnection.
  destruct c as [c|]; [|trivial].
  destruct (_stop p); [trivial|].
  destruct (Nat.leb_spec (_poolSize p) (length (_connections p))); [trivial|].
  simpl. rewrite length_app; simpl. lia.
Qed.

Lemma Close_within_capacity (p : t ConnectionType) : within_capacity (Close p).
Proof. unfold within_capacity; simpl. lia. Qed.

Lemma exec_poolSize (c : call ConnectionType) (p : t ConnectionType) :
  _poolSize (exec c p) = _poolSize p.
Proof.
  destruct c as [|[x|]|]; simpl; try reflexivity.
  - unfold GetConnection.
    destruct (_stop p), (_connections p), (_factory p); reflexivity.
  - destruct (_stop p); [reflexivity|].
    destruct (_poolSize p <=? _); reflexivity.
Qed.

Lemma exec_within_capacity (c : call ConnectionType) (p : t ConnectionType) :
  within_capacity p -> within_capacity (exec c p).
Proof.
  destruct c; simpl; intros H.
  - now apply GetConnection_within_capacity.
  - now apply ReturnConnection_within_capacity.
  - apply Close_within_capacity.
Qed.

Lemma run_within_capacity (cs : list (call ConnectionType)) (p : t ConnectionType) :
  within_capacity p ->
  within_capacity (run cs p) /\ _poolSize (run cs p) = _poolSize p.
Proof.
  revert p; induction cs as [|c cs IH]; intros p H; simpl; [now split|].
  destruct (IH (exec c p) (exec_within_capacity c H)) as [H1 H2].
  split; [exact H1|]. fold (run cs (exec c p)). rewrite H2. apply exec_poolSize.
Qed.

(** The branch of [GetConnection] that calls the factory is never taken:
    past the wait, a pool that is not stopped has a connection queued. *)
Lemma GetConnection_never_calls_factory (p : t ConnectionType) :
  factory_calls (snd (GetConnection p)) = factory_calls p.
Proof.
  unfold GetConnection.
  destruct (_stop p) eqn:Hs, (_connections p) eqn:Hq; simpl; reflexivity.
Qed.

(** C1 (as the code behaves).  On a pool that is not stopped and whose free
    queue is empty, [GetConnection] does not call the factory and returns
    nothing: the caller waits on the condition variable, and the pool is
    left as it was. *)
Theorem GetConnection_empty_queue_waits (p : t ConnectionType) :
  _stop p = false -> _connections p = [] ->
  GetConnection p = (Waits ConnectionType, p).
Proof.
  intros Hs Hq. unfold GetConnection. rewrite Hs, Hq. reflexivity.
Qed.


End WithConnectionType.

(** A pool of capacity 1 whose only connection is in use: the next
    [GetConnection] waits, and the factory has been called once, by
    [Initialize]. *)
Lemma GetConnection_empty_queue_waits_witness :
  let p := snd (GetConnection (Initialize 1 (fun n => Some n) (ctor nat))) in
  _stop p = false /\ _connections p = [] /\ factory_calls p = 1 /\
  GetConnection p = (Waits nat, p).
Proof.
  cbv zeta.
  split; [reflexivity | split; [reflexivity | split; [reflexivity |]]].
  apply (@GetConnection_empty_queue_waits nat
           (snd (GetConnection (Initialize 1 (fun n => Some n) (ctor nat)))));
    reflexivity.
Defined.

(** [Initialize] does not empty the queue first: called on a pool that still
    holds connections it leaves more of them than the new pool size. *)
Remark Initialize_again_appends :
  length (_connections
            (Initialize 1 (fun n => Some n)
               (Initialize 2 (fun n => Some n) (ctor nat)))) = 3.
Proof. reflexivity. Qed.


End ConnectionPoolProofs.

(* ================================================================== *)
(** * Tasks of the thread pool *)
(* ================================================================== *)

Module ThreadPoolProofs.
Import ThreadPool.

Lemma nth_error_middle (l : list worker) (i : nat) (w : worker) :
  nth_error l i = Some w -> l = firstn i l ++ w :: skipn (S i) l.
Proof.
  revert i; induction l as [|x l IH]; intros [|i] H; simpl in *; try discriminate.
  - now inversion H.
  - f_equal. now apply IH.
Qed.

(** Replacing worker [i] exchanges the task it holds. *)
Lemma held_replace (l : list worker) (i : nat) (w0 w : worker) :
  nth_error l i = Some w0 ->
  Permutation (task_of w0 ++ flat_map task_of (firstn i l ++ w :: skipn (S i) l))
              (task_of w ++ flat_map task_of l).
Proof.
  intros H.
  rewrite (nth_error_middle _ _ H) at 3.
  rewrite !flat_map_app; simpl.
  set (a := flat_map task_of (firstn i l)).
  set (b := flat_map task_of (skipn (S i) l)).
  rewrite (Permutation_app_swap_app (task_of w0) a).
  rewrite (Permutation_app_swap_app (task_of w) a).
  apply Permutation_app_head. apply Permutation_app_swap_app.
Qed.


Lemma length_replace (l : list worker) (i : nat) (w w0 : worker) :
  nth_error l i = Some w0 ->
  length (firstn i l ++ w :: skipn (S i) l) = length l.
Proof.
  intros H. rewrite length_app; simpl.
  pose proof (f_equal (@length _) (nth_error_middle _ _ H)) as E.
  rewrite length_app in E; simpl in E. lia.
Qed.

(** A step of a worker only moves tasks around. *)
Lemma WorkerThread_keeps (i : nat) (p : t) :
  Permutation (pending (WorkerThread i p)) (pending p) /\
  accepted (WorkerThread i p) = accepted p /\
  _stop (WorkerThread i p) = _stop p /\
  length (_threads (WorkerThread i p)) = length (_threads p).
Proof.
  destruct p as [th q st tc acc ex].
  unfold WorkerThread, WorkerThread_locked, WorkerThread_run, set_thread,
    pending, held; cbn [_threads _tasks _stop _taskCount accepted executed].
  destruct (nth_error th i) as [[|task|]|] eqn:Hi;
    try (repeat split; reflexivity).
  - destruct st, q as [|task rest];
      cbn [negb orb andb _threads _tasks _stop _taskCount accepted executed];
      try (repeat split; reflexivity).
    + pose proof (@held_replace th i AtWait Exited Hi) as H.
      pose proof (@length_replace th i Exited AtWait Hi) as L.
      cbn [task_of app] in H. rewrite H. repeat split; auto.
    + pose proof (@held_replace th i AtWait (Holding task) Hi) as H.
      pose proof (@length_replace th i (Holding task) AtWait Hi) as L.
      cbn [task_of app] in H. rewrite H. repeat split; auto.
      apply Permutation_app_head. cbn [app].
      apply Permutation_middle.
    + pose proof (@held_replace th i AtWait (Holding task) Hi) as H.
      pose proof (@length_replace th i (Holding task) AtWait Hi) as L.
      cbn [task_of app] in H. rewrite H. repeat split; auto.
      apply Permutation_app_head. cbn [app].
      apply Permutation_middle.
  - pose proof (@held_replace th i (Holding task) AtWait Hi) as H.
    pose proof (@length_replace th i AtWait (Holding task) Hi) as L.
    cbn [task_of app] in H. repeat split; auto.
    cbn [_threads _tasks executed].
    rewrite <- app_assoc; cbn [app].
    apply Permutation_app_head.
    apply (Permutation_app_tail q) in H. exact H.
Qed.


Lemma Enqueue_keeps (task : Task) (p : t) :
  _threads (snd (Enqueue task p)) = _threads p /\
  _stop (snd (Enqueue task p)) = _stop p /\
  (_stop p = true -> snd (Enqueue task p) = p) /\
  (_stop p = false ->
   accepted (snd (Enqueue task p)) = accepted p ++ [task] /\
   Permutation (pending (snd (Enqueue task p))) (pending p ++ [task])).
Proof.
  unfold Enqueue. destruct (_stop p) eqn:Hs; cbn [snd].
  - repeat split; auto; discriminate.
  - repeat split; auto; try discriminate.
    unfold pending, held; simpl. now rewrite !app_assoc.
Qed.




(** After [Shutdown] has set the flag nothing is accepted any more, and the
    tasks in the pool stay the same. *)
Lemma run_stopped (es : list step) (p : t) :
  _stop p = true ->
  _stop (run es p) = true /\ accepted (run es p) = accepted p /\
  Permutation (pending (run es p)) (pending p).
Proof.
  revert p; induction es as [|e es IH]; intros p Hs; simpl; [now repeat split|].
  fold (run es (exec e p)).
  assert (H : _stop (exec e p) = true /\ accepted (exec e p) = accepted p /\
              Permutation (pending (exec e p)) (pending p)).
  { destruct e as [task|i|]; cbn [exec].
    - destruct (Enqueue_keeps task p) as (_ & _ & Hstop & _).
      rewrite (Hstop Hs). now repeat split.
    - destruct (WorkerThread_keeps i p) as (Hp & Ha & Hst & _).
      rewrite Hst. now repeat split.
    - now repeat split. }
  destruct H as (H1 & H2 & H3).
  destruct (IH _ H1) as (G1 & G2 & G3).
  repeat split; [exact G1 | congruence | now rewrite G3].
Qed.



(** C6.  On a pool that [Shutdown] has stopped, [Enqueue] throws
    [runtime_error("ThreadPool is shutdown")] and leaves the pool as it
    was: the task is not queued.  Whatever steps follow, nothing is
    accepted, and the task is run no more often than it was already in the
    pool when it was rejected: a task the pool did not hold is never run. *)
Theorem Enqueue_after_Shutdown_rejected (p : t) (task : Task) (es : list step) :
  _stop p = true ->
  Enqueue task p = (Throws "ThreadPool is shutdown", p) /\
  accepted (run (StepEnqueue task :: es) p) = accepted p /\
  count_occ Nat.eq_dec (_tasks (run (StepEnqueue task :: es) p)) task
    <= count_occ Nat.eq_dec (pending p) task /\
  count_occ Nat.eq_dec (executed (run (StepEnqueue task :: es) p)) task
    <= count_occ Nat.eq_dec (pending p) task.
Proof.
  intros Hs.
  assert (HE : Enqueue task p = (Throws "ThreadPool is shutdown", p)).
  { unfold Enqueue. now rewrite Hs. }
  split; [exact HE|].
  simpl. fold (run es (snd (Enqueue task p))). rewrite HE; cbn [snd].
  destruct (@run_stopped es p Hs) as (_ & Ha & Hp).
  split; [exact Ha|].
  apply (Permutation_count_occ Nat.eq_dec) with (x := task) in Hp.
  rewrite <- Hp. clear Hp. generalize (run es p); intros q.
  unfold pending. rewrite !count_occ_app. unfold Task in *. lia.
Qed.

Lemma Enqueue_after_Shutdown_rejected_witness :
  let p := run [StepEnqueue 1; StepWorker 0; StepShutdown] (Initialize 4 2 ctor) in
  let es := [StepWorker 0; StepWorker 1; StepEnqueue 2; StepWorker 0; StepWorker 1] in
  _stop p = true /\
  Enqueue 2 p = (Throws "ThreadPool is shutdown", p) /\
  accepted (run (StepEnqueue 2 :: es) p) = accepted p /\
  count_occ Nat.eq_dec (_tasks (run (StepEnqueue 2 :: es) p)) 2
    <= count_occ Nat.eq_dec (pending p) 2 /\
  count_occ Nat.eq_dec (executed (run (StepEnqueue 2 :: es) p)) 2
    <= count_occ Nat.eq_dec (pending p) 2.
Proof.
  cbv zeta. split; [reflexivity|].
  apply (@Enqueue_after_Shutdown_rejected
           (run [StepEnqueue 1; StepWorker 0; StepShutdown] (Initialize 4 2 ctor))
           2 [StepWorker 0; StepWorker 1; StepEnqueue 2; StepWorker 0; StepWorker 1]).
  reflexivity.
Defined.



Lemma nth_error_replace (l : list worker) (i j : nat) (w : worker) :
  i < length l ->
  nth_error (firstn i l ++ w :: skipn (S i) l) j =
  if j =? i then Some w else nth_error l j.
Proof.
  revert i j; induction l as [|x l IH]; intros i j Hi; simpl in Hi; [lia|].
  destruct i as [|i]; destruct j as [|j]; simpl; try reflexivity.
  apply IH. lia.
Qed.

(** One step of a worker of a stopped pool brings it nearer to its exit
    and leaves the other workers alone. *)
Lemma WorkerThread_progress (i : nat) (p : t) (w : worker) :
  _stop p = true -> nth_error (_threads p) i = Some w ->
  let p' := WorkerThread i p in
  _stop p' = true /\
  length (_threads p') = length (_threads p) /\
  length (_tasks p') <= length (_tasks p) /\
  (forall j, j <> i -> nth_error (_threads p') j = nth_error (_threads p) j) /\
  exists w', nth_error (_threads p') i = Some w' /\
             steps_left w' (length (_tasks p')) =
             pred (steps_left w (length (_tasks p))).
Proof.
  intros Hs Hi p'. subst p'.
  destruct (WorkerThread_keeps i p) as (_ & _ & Hst & Hlen).
  assert (Hlt : i < length (_threads p)) by (apply nth_error_Some; congruence).
  split; [congruence|]. split; [exact Hlen|].
  destruct p as [th q st tc acc ex].
  cbn [_threads _tasks _stop] in *. subst st.
  unfold WorkerThread, WorkerThread_locked, WorkerThread_run, set_thread;
    cbn [_threads _tasks _stop _taskCount accepted executed]. rewrite Hi.
  destruct w as [|task|];
    cbn [negb orb andb _threads _tasks _stop _taskCount accepted executed].
  - destruct q as [|task rest];
      cbn [negb orb andb _threads _tasks _stop _taskCount accepted executed].
    + split; [lia|]. split.
      * intros j Hj. rewrite nth_error_replace by exact Hlt.
        destruct (Nat.eqb_spec j i); [contradiction | reflexivity].
      * exists Exited. rewrite nth_error_replace by exact Hlt.
        rewrite Nat.eqb_refl. split; reflexivity.
    + split; [simpl; lia|]. split.
      * intros j Hj. rewrite nth_error_replace by exact Hlt.
        destruct (Nat.eqb_spec j i); [contradiction | reflexivity].
      * exists (Holding task). rewrite nth_error_replace by exact Hlt.
        rewrite Nat.eqb_refl. split; [reflexivity|]. simpl. lia.
  - split; [lia|]. split.
    + intros j Hj. rewrite nth_error_replace by exact Hlt.
      destruct (Nat.eqb_spec j i); [contradiction | reflexivity].
    + exists AtWait. rewrite nth_error_replace by exact Hlt.
      rewrite Nat.eqb_refl. split; [reflexivity|]. simpl. lia.
  - split; [lia|]. split; [reflexivity|].
    exists Exited. split; [exact Hi | reflexivity].
Qed.

Lemma run_app (a b : list step) (p : t) : run (a ++ b) p = run b (run a p).
Proof. apply fold_left_app. Qed.

(** Enough steps of one worker of a stopped pool make it exit. *)
Lemma WorkerThread_exits (i m : nat) (p : t) (w : worker) :
  _stop p = true -> nth_error (_threads p) i = Some w ->
  steps_left w (length (_tasks p)) <= m ->
  let p' := run (repeat (StepWorker i) m) p in
  _stop p' = true /\
  length (_threads p') = length (_threads p) /\
  length (_tasks p') <= length (_tasks p) /\
  (forall j, j <> i -> nth_error (_threads p') j = nth_error (_threads p) j) /\
  nth_error (_threads p') i = Some Exited.
Proof.
  revert p w; induction m as [|m IH]; intros p w Hs Hi Hm; cbn zeta.
  - simpl. repeat split; auto.
    destruct w; simpl in Hm; try lia. exact Hi.
  - cbn [repeat run fold_left exec].
    fold (run (repeat (StepWorker i) m) (WorkerThread i p)).
    destruct (@WorkerThread_progress i p w Hs Hi) as (P1 & P2 & P3 & P4 & w' & P5 & P6).
    destruct (IH (WorkerThread i p) w' P1 P5) as (Q1 & Q2 & Q3 & Q4 & Q5); [lia|].
    repeat split; auto; try lia.
    intros j Hj. rewrite Q4, P4; auto.
Qed.

Lemma drain_prefix (n c : nat) (p : t) :
  _stop p = true -> length (_tasks p) <= n -> c <= length (_threads p) ->
  let p' :=
    run (flat_map (fun i => repeat (StepWorker i) (2 * n + 2)) (seq 0 c)) p in
  _stop p' = true /\
  length (_threads p') = length (_threads p) /\
  length (_tasks p') <= n /\
  (forall j, j < c -> nth_error (_threads p') j = Some Exited).
Proof.
  intros Hs Hn. induction c as [|c IH]; intros Hc; cbn zeta.
  - simpl. repeat split; auto. intros j Hj; lia.
  - rewrite seq_S, flat_map_app, run_app. cbn [flat_map]. rewrite app_nil_r.
    destruct IH as (I1 & I2 & I3 & I4); [lia|].
    set (q := run (flat_map (fun i => repeat (StepWorker i) (2 * n + 2)) (seq 0 c)) p)
      in *.
    destruct (nth_error (_threads q) c) as [w|] eqn:Hw.
    2: { apply nth_error_None in Hw. lia. }
    destruct (@WorkerThread_exits c (2 * n + 2) q w I1 Hw) as (E1 & E2 & E3 & E4 & E5).
    { destruct w; simpl; lia. }
    cbn [Nat.add]. split; [exact E1|]. split; [congruence|]. split; [lia|].
    intros j Hj. destruct (Nat.eq_dec j c) as [->|Hne]; [exact E5|].
    rewrite E4 by exact Hne. apply I4. lia.
Qed.

Lemma all_exited (l : list worker) :
  (forall j, j < length l -> nth_error l j = Some Exited) ->
  forallb exited l = true.
Proof.
  induction l as [|w l IH]; intros H; simpl; [reflexivity|].
  assert (H0 : Some w = Some Exited) by (apply (H 0); simpl; lia).
  injection H0 as ->. simpl. apply IH.
  intros j Hj. apply (H (S j)). simpl; lia.
Qed.

(** X8.  Once the flag is set, the joins of [Shutdown] do return: under the
    schedule [drain] every worker exits. *)
Lemma Shutdown_returns (p : t) :
  _stop p = true -> Shutdown_join (run (drain p) p) <> None.
Proof.
  intros Hs.
  destruct (@drain_prefix (length (_tasks p)) (length (_threads p)) p Hs)
    as (D1 & D2 & D3 & D4); [lia | lia |].
  unfold Shutdown_join, drain.
  rewrite all_exited; [discriminate|].
  intros j Hj. apply D4. now rewrite <- D2.
Qed.

(** With no worker thread (a pool that was never initialised) [Enqueue]
    still accepts the task, and [Shutdown] returns at once with the task in
    the queue. *)
Remark Shutdown_without_workers :
  Shutdown_join (run [StepEnqueue 10; StepShutdown] ctor) =
  Some {| _threads := []; _tasks := [10]; _stop := true; _taskCount := 1;
          accepted := [10]; executed := [] |}.
Proof. reflexivity. Qed.


End ThreadPoolProofs.

(* ================================================================== *)
(** * The length prefix is big-endian *)
(* ================================================================== *)

Module WireProofs.
Import Wire.

Local Open Scope Z_scope.

Lemma byte_value_range (b : byte) : 0 <= byte_value b < 256.
Proof.
  unfold byte_value. pose proof (Byte.to_N_bounded b). lia.
Qed.

Lemma low_byte_eq (z : Z) (b : byte) :
  z mod 256 = byte_value b -> low_byte z = b.
Proof.
  intros H. unfold low_byte. rewrite H. unfold byte_value.
  rewrite N2Z.id, Byte.of_to_N. reflexivity.
Qed.

Lemma byte_value_low (z : Z) : byte_value (low_byte z) = z mod 256.
Proof.
  pose proof (Z.mod_pos_bound z 256 ltac:(lia)) as Hb.
  unfold low_byte, byte_value.
  destruct (Byte.of_N (Z.to_N (z mod 256))) as [b|] eqn:E.
  - apply Byte.to_of_N in E. rewrite E. lia.
  - apply Byte.of_N_None_iff in E. lia.
Qed.

Lemma bytes_of_uint32_swap (x : Z) :
  bytes_of_uint32 little_endian x = rev (bytes_of_uint32 big_endian x).
Proof. reflexivity. Qed.

(** Storing the value read from four bytes gives the four bytes back. *)
Lemma bytes_of_uint32_of_bytes (host : endianness) (a b c d : byte) :
  bytes_of_uint32 host (uint32_of_bytes host [a; b; c; d]) = [a; b; c; d].
Proof.
  pose proof (byte_value_range a). pose proof (byte_value_range b).
  pose proof (byte_value_range c). pose proof (byte_value_range d).
  destruct host; unfold bytes_of_uint32, uint32_of_bytes; cbn [nth];
    repeat (f_equal; try (apply low_byte_eq;
                          change (2 ^ 8) with 256; change (2 ^ 16) with 65536;
                          change (2 ^ 24) with 16777216;
                          Z.div_mod_to_equations; lia)).
Qed.

(** Reading the four bytes stored for a value gives the value back. *)
Lemma uint32_of_bytes_of_uint32 (host : endianness) (x : Z) :
  0 <= x < 2 ^ 32 -> uint32_of_bytes host (bytes_of_uint32 host x) = x.
Proof.
  intros Hx.
  destruct host; unfold bytes_of_uint32, uint32_of_bytes; cbn [nth];
    rewrite !byte_value_low;
    change (2 ^ 8) with 256; change (2 ^ 16) with 65536;
    change (2 ^ 24) with 16777216; change (2 ^ 32) with 4294967296 in Hx;
    Z.div_mod_to_equations; lia.
Qed.

(** [ntohl] of the header as the machine reads it is the big-endian value of
    the four bytes. *)
Lemma ntohl_uint32_of_bytes (host : endianness) (a b c d : byte) :
  ntohl host (uint32_of_bytes host [a; b; c; d]) =
  uint32_of_bytes big_endian [a; b; c; d].
Proof.
  destruct host; [|reflexivity].
  unfold ntohl, bswap32. now rewrite bytes_of_uint32_of_bytes.
Qed.

(** The bytes [do_write] sends for the length are its big-endian bytes. *)
Lemma bytes_of_htonl (host : endianness) (x : Z) :
  bytes_of_uint32 host (htonl host x) = bytes_of_uint32 big_endian x.
Proof.
  destruct host; [|reflexivity].
  unfold htonl, bswap32.
  rewrite bytes_of_uint32_swap.
  change (bytes_of_uint32 little_endian x)
    with [low_byte x; low_byte (x / 2 ^ 8); low_byte (x / 2 ^ 16);
          low_byte (x / 2 ^ 24)].
  rewrite bytes_of_uint32_of_bytes. reflexivity.
Qed.

Lemma frame_big_endian (host : endianness) (message : list byte) :
  frame host message =
  bytes_of_uint32 big_endian (uint32_t (Z.of_nat (length message))) ++ message.
Proof. unfold frame. now rewrite bytes_of_htonl. Qed.

Lemma uint32_t_small (x : Z) : 0 <= x < 2 ^ 32 -> uint32_t x = x.
Proof. intros H. unfold uint32_t. now apply Z.mod_small. Qed.

End WireProofs.

(* ================================================================== *)
(** * The session *)
(* ================================================================== *)

Module TCPSessionProofs.
Import Wire TCPSession WireProofs.

Lemma written_app (a b : list effect) : written (a ++ b) = written a ++ written b.
Proof. apply flat_map_app. Qed.

Lemma handled_app (a b : list effect) : handled (a ++ b) = handled a ++ handled b.
Proof. apply flat_map_app. Qed.

Lemma close_callbacks_app (a b : list effect) :
  close_callbacks (a ++ b) = close_callbacks a + close_callbacks b.
Proof. unfold close_callbacks. now rewrite filter_app, length_app. Qed.

(** Evaluates the member functions, innermost call first. *)
Ltac session :=
  cbv beta iota zeta delta
    [start read_completes header_handler body_handler write_handler
     send_lambda heartbeat_handler read_timeout_handler do_read_header
     do_read_body do_write reset_read_timeout start_heartbeat handle_error
     send close set_close_callback set_message_handler
     set_socket_open set_heartbeat_timer_ set_read_timeout_timer_
     set_header_ set_body_buffer_ set_write_queue_ set_message_handler_
     set_close_callback_ set_posted set_reads set_received set_writes
     set_sent does
     socket_open heartbeat_timer_ read_timeout_timer_ header_ body_buffer_
     write_queue_ message_handler_ close_callback_ posted reads received
     writes sent trace connected set_connected remote_endpoint_throws
     is_error negb orb andb tl].

Ltac traces :=
  repeat rewrite written_app; repeat rewrite handled_app;
  repeat rewrite close_callbacks_app; repeat rewrite <- app_assoc;
  cbn [written handled close_callbacks flat_map filter length app Nat.add].

(** [close] in terms of what it leaves behind. *)
Lemma close_open (s : t) :
  socket_open (close s) = false /\
  reads (close s) = reads s /\
  trace (close s) =
    trace s ++
    (if socket_open s
     then SocketShutdown :: SocketClose ::
          (if close_callback_ s then [CloseCallback] else [])
     else []).
Proof.
  destruct s as [op ht rt hd bb wq mh cc ps rs rx ws sn tr cn]. session.
  destruct op, cc; session; traces; repeat split; auto using app_nil_r.
  all: now rewrite app_nil_r.
Qed.

(** C2.  When the read of the header completes with four bytes whose
    big-endian value exceeds [max_body_length], no read of a body is issued
    and the message handler is not invoked.  The handler closes the session
    only if [remote_endpoint()], which the log line in front of [close()]
    evaluates, does not throw: on an open socket whose peer is still
    connected the effects are those of [close]; on a socket whose peer has
    disconnected the exception leaves the handler, and the socket stays
    open. *)
Theorem oversized_header_closes (host : endianness) (s : t)
    (a b c d : byte) (rest : list read_op) :
  reads s = ReadHeader :: rest ->
  (max_body_length < uint32_of_bytes big_endian [a; b; c; d])%Z ->
  let s' := exec host (ReadCompletes success [a; b; c; d]) s in
  reads s' = rest /\
  handled (trace s') = handled (trace s) /\
  socket_open s' = (socket_open s && negb (connected s)) /\
  trace s' =
    trace s ++
    (if socket_open s && connected s
     then SocketShutdown :: SocketClose ::
          (if close_callback_ s then [CloseCallback] else [])
     else [Throws]).
Proof.
  intros Hr Hlen s'. unfold s'; clear s'.
  destruct s as [op ht rt hd bb wq mh cc ps rs rx ws sn tr cn].
  cbn [reads] in Hr; subst rs.
  apply Z.ltb_lt in Hlen.
  unfold exec; cbn [reads is_error orb length asks Nat.eqb].
  session. rewrite ntohl_uint32_of_bytes, Hlen.
  destruct op, cn, cc; session; traces; repeat split; now rewrite ?app_nil_r.
Qed.

(** The peer sends a header that announces 20 000 000 bytes and resets the
    connection: the handler throws, and the session is left with its socket
    open, its close callback not called and no read outstanding. *)
Lemma oversized_header_closes_witness :
  let s := exec little_endian Disconnects
             (start false (set_close_callback ctor)) in
  reads s = [ReadHeader] /\
  (max_body_length < uint32_of_bytes big_endian [x01; x31; x2d; x00])%Z /\
  let s' := exec little_endian (ReadCompletes success [x01; x31; x2d; x00]) s in
  reads s' = [] /\
  handled (trace s') = handled (trace s) /\
  socket_open s' = true /\
  trace s' = trace s ++ [Throws].
Proof.
  cbv zeta. split; [reflexivity|]. split; [reflexivity|].
  apply (@oversized_header_closes little_endian
           (exec little_endian Disconnects
              (start false (set_close_callback ctor)))
           x01 x31 x2d x00 []); reflexivity.
Defined.

(** Case analysis on everything a handler branches on. *)
Ltac branches :=
  repeat match goal with
         | |- context [match ?x with _ => _ end] =>
             lazymatch x with
             | context [match _ with _ => _ end] => fail
             | _ => destruct x; session; cbn [app]
             end
         end.

(** Every step keeps the callback registered and keeps the balance: only
    [close] on an open socket calls the callback, and it closes the
    socket. *)
Lemma exec_close_balance (host : endianness) (e : event) (s : t) :
  close_callback_ s = true ->
  close_callback_ (exec host e s) = true /\
  close_balance (exec host e s) = close_balance s.
Proof.
  destruct s as [op ht rt hd bb wq mh cc ps rs rx ws sn tr cn].
  cbn [close_callback_]. intros ->.
  unfold close_balance.
  destruct e; unfold exec; session; branches; traces;
    (split; [reflexivity | lia]).
Qed.

Lemma run_close_balance (host : endianness) (es : list event) (s : t) :
  close_callback_ s = true ->
  close_callback_ (run host es s) = true /\
  close_balance (run host es s) = close_balance s.
Proof.
  revert s; induction es as [|e es IH]; intros s H; simpl; [now split|].
  destruct (exec_close_balance host e s H) as [H1 H2].
  destruct (IH _ H1) as [G1 G2]. fold (run host es (exec host e s)).
  split; [exact G1 | congruence].
Qed.

(** On a closed socket [close] does nothing at all. *)
Lemma close_closed (s : t) : socket_open s = false -> close s = s.
Proof. intros H. unfold close. now rewrite H. Qed.

(** C5.  [close] is idempotent, and leaves the socket closed.  On a session
    whose close callback was registered when it was constructed, after any
    sequence of steps (external calls of [close], read and write errors,
    expiry of the read timer among them) the callback has been called
    exactly once if the socket is closed, and not at all if it is open. *)
Theorem close_callback_exactly_once (host : endianness) (es : list event) (s : t) :
  close (close s) = close s /\
  socket_open (close s) = false /\
  let r := run host es (set_close_callback ctor) in
  close_callbacks (trace r) = (if socket_open r then 0 else 1).
Proof.
  split; [|split].
  - destruct s as [op ht rt hd bb wq mh cc ps rs rx ws sn tr cn].
    destruct op, cc; session; reflexivity.
  - apply close_open.
  - cbv zeta.
    destruct (@run_close_balance host es (set_close_callback ctor) eq_refl)
      as [_ H].
    unfold close_balance in H.
    change (close_callbacks (trace (set_close_callback ctor)) +
            (if socket_open (set_close_callback ctor) then 1 else 0)) with 1 in H.
    destruct (socket_open (run host es (set_close_callback ctor))); lia.
Qed.

(** C10.  The keepalive body is the 9-byte literal "HEARTBEAT" and the
    interval is 30 seconds.  When the handler of an expired heartbeat wait
    runs on an open socket, it calls [send HEARTBEAT], the function every
    caller uses, which posts the message, and re-arms the timer for
    [heartbeat_interval]; on a closed socket it posts nothing and leaves the
    timer unarmed.  It touches neither the write queue nor the socket. *)
Theorem heartbeat_sends_literal (host : endianness) (s : t) (rest : list wait) :
  waits (heartbeat_timer_ s) = Expired :: rest ->
  let s0 :=
    set_heartbeat_timer_ (mk_timer (expiry (heartbeat_timer_ s)) rest) s in
  let s' := exec host HeartbeatTimerHandler s in
  HEARTBEAT = list_byte_of_string "HEARTBEAT" /\
  length HEARTBEAT = 9 /\
  heartbeat_interval = 30 /\
  s' = (if socket_open s then start_heartbeat (send HEARTBEAT s0) else s0) /\
  posted s' = (if socket_open s then posted s ++ [HEARTBEAT] else posted s) /\
  sent s' = (if socket_open s then sent s ++ [HEARTBEAT] else sent s) /\
  heartbeat_timer_ s' =
    (if socket_open s
     then mk_timer (Some 30) (map abort rest ++ [Pending])
     else mk_timer (expiry (heartbeat_timer_ s)) rest) /\
  write_queue_ s' = write_queue_ s /\ trace s' = trace s.
Proof.
  intros Hw s0 s'. unfold s', s0; clear s' s0.
  destruct s as [op ht rt hd bb wq mh cc ps rs rx ws sn tr cn].
  cbn [heartbeat_timer_] in Hw.
  unfold exec; cbn [heartbeat_timer_]. rewrite Hw.
  destruct op; session; repeat split; reflexivity.
Qed.

Lemma heartbeat_sends_literal_witness :
  let s := exec little_endian HeartbeatTimerExpires (start false ctor) in
  let s' := exec little_endian HeartbeatTimerHandler s in
  waits (heartbeat_timer_ s) = [Expired] /\
  HEARTBEAT = list_byte_of_string "HEARTBEAT" /\
  length HEARTBEAT = 9 /\
  heartbeat_interval = 30 /\
  s' = start_heartbeat
         (send HEARTBEAT (set_heartbeat_timer_ (mk_timer (Some 30) []) s)) /\
  posted s' = [HEARTBEAT] /\
  sent s' = [HEARTBEAT] /\
  heartbeat_timer_ s' = mk_timer (Some 30) [Pending] /\
  write_queue_ s' = [] /\ trace s' = [].
Proof.
  cbv zeta. split; [reflexivity|].
  apply (@heartbeat_sends_literal little_endian
           (exec little_endian HeartbeatTimerExpires (start false ctor)) []).
  reflexivity.
Defined.

(** A heartbeat wait that was cancelled, as [close] does, ends in a handler
    that does nothing. *)
Lemma heartbeat_handler_aborted (s : t) :
  heartbeat_handler operation_aborted s = s.
Proof. reflexivity. Qed.

Lemma written_snoc (tr : list effect) (e : effect) :
  written (tr ++ [e]) =
  written tr ++ match e with AsyncWrite buffers => [buffers] | _ => [] end.
Proof. rewrite written_app. destruct e; reflexivity. Qed.

Ltac lists :=
  repeat rewrite written_snoc; cbv beta iota;
  cbn [app map];
  repeat match goal with
         | |- context [firstn 1 (?a :: ?l)] => change (firstn 1 (a :: l)) with [a]
         | |- context [firstn 1 (@nil ?A)] => change (firstn 1 (@nil A)) with (@nil A)
         end;
  repeat rewrite map_app; cbn [app map];
  repeat rewrite app_nil_r; repeat rewrite <- app_assoc; cbn [app map].

Ltac lists_in H :=
  cbn [app map] in H;
  repeat match type of H with
         | context [firstn 1 (?a :: ?l)] => change (firstn 1 (a :: l)) with [a] in H
         | context [firstn 1 (@nil ?A)] => change (firstn 1 (@nil A)) with (@nil A) in H
         end;
  repeat rewrite map_app in H; cbn [app map] in H;
  repeat rewrite app_nil_r in H; repeat rewrite <- app_assoc in H;
  cbn [app map] in H.

(** Closes a goal [write_order] once the messages done are given. *)
Ltac order H1 H2 :=
  lists; lists_in H1; lists_in H2;
  split; [rewrite H1; lists; reflexivity |];
  split; [rewrite H2; lists; reflexivity |].

Lemma exec_write_order (host : endianness) (e : event) (s : t) :
  write_order host s -> write_order host (exec host e s).
Proof.
  destruct s as [op ht rt hd bb wq mh cc ps rs rx ws sn tr cn].
  intros (done & H1 & H2 & H3).
  cbn [sent write_queue_ posted trace writes] in H1, H2, H3.
  unfold write_order.
  destruct e as [throws|message| | | | | | | | |ec bytes|ec|].
  6: { (* RunPosted *)
    unfold exec; cbn [posted].
    destruct ps as [|msg rest]; [session; exists done; order H1 H2; exact H3|].
    destruct wq as [|m q]; session; cbn [app].
    - assert (ws = []) by (destruct H3 as [H3|H3]; exact H3). subst ws.
      exists done. order H1 H2. right; reflexivity.
    - exists done. order H1 H2. exact H3. }
  11: { (* WriteCompletes *)
    unfold exec; cbn [writes].
    destruct ws as [|w ws']; [session; exists done; order H1 H2; exact H3|].
    destruct H3 as [H3|H3]; [discriminate|].
    destruct wq as [|m q]; [discriminate|].
    cbn [firstn map] in H3. injection H3 as -> ->.
    destruct ec; session.
    1: { destruct q as [|m2 q2]; session; cbn [app];
         exists (done ++ [m]); order H1 H2; [left | right]; reflexivity. }
    all: destruct op, cn, cc; session; exists done; order H1 H2; left;
      reflexivity. }
  all: unfold exec; session; branches; exists done; order H1 H2; exact H3.
Qed.

Lemma run_write_order (host : endianness) (es : list event) (s : t) :
  write_order host s -> write_order host (run host es s).
Proof.
  revert s; induction es as [|e es IH]; intros s H; simpl; [exact H|].
  apply IH. now apply exec_write_order.
Qed.

Lemma ctor_write_order (host : endianness) : write_order host ctor.
Proof. exists []. repeat split. now left. Qed.

(** The ghost [sent] holds the messages of the calls of [send] that the
    steps make. *)
Lemma exec_sent (host : endianness) (e : event) (s : t) :
  sent (exec host e s) = sent s ++ send_calls host [e] s.
Proof.
  destruct s as [op [he hw] rt hd bb wq mh cc ps rs rx ws sn tr cn].
  cbn [send_calls]. rewrite app_nil_r.
  destruct e; unfold exec; session;
    cbn [waits expiry cancel expires_after async_wait];
    branches; rewrite ?app_nil_r; reflexivity.
Qed.

Lemma send_calls_cons (host : endianness) (e : event) (es : list event)
    (s : t) :
  send_calls host (e :: es) s
  = send_calls host [e] s ++ send_calls host es (exec host e s).
Proof. cbn [send_calls]. rewrite app_nil_r. reflexivity. Qed.

Lemma run_sent (host : endianness) (es : list event) (s : t) :
  sent (run host es s) = sent s ++ send_calls host es s.
Proof.
  revert s; induction es as [|e es IH]; intros s.
  - simpl. now rewrite app_nil_r.
  - rewrite send_calls_cons. change (run host (e :: es) s)
      with (run host es (exec host e s)).
    rewrite IH, exec_sent, app_assoc. reflexivity.
Qed.

(** C4.  In every state a session reaches from its construction, with the
    calls of [send] read off the steps that led there ([CallSend] of the
    user and the heartbeat handler), in the order of the calls: at most one
    [async_write] is outstanding; the messages of the calls are, in this
    order, those whose write has completed, those in the queue and those
    whose lambda is still posted, none lost and none twice; the writes
    started so far are the frames of the messages done and of the front of
    the queue, hence of the first calls, in the order of the calls; when a
    write completes without error the front of the queue is popped and the
    write of the new front is started if there is one, and nothing else;
    when the lambda posted by [send] runs, the message is pushed to the
    back and a write is started only if the queue was empty, in which case
    none was outstanding. *)
Theorem writes_in_send_order (host : endianness) (es : list event) :
  let s := run host es ctor in
  let calls := send_calls host es ctor in
  length (writes s) <= 1 /\
  (exists done : list (list byte),
     calls = done ++ write_queue_ s ++ posted s /\
     written (trace s) =
       map (frame host) (done ++ firstn 1 (write_queue_ s))) /\
  written (trace s) =
    map (frame host) (firstn (length (written (trace s))) calls) /\
  (let s' := exec host (WriteCompletes success) s in
   match writes s with
   | [] => s' = s
   | _ :: _ =>
       write_queue_ s' = tl (write_queue_ s) /\
       writes s' = map (frame host) (firstn 1 (tl (write_queue_ s))) /\
       written (trace s') =
         written (trace s) ++ map (frame host) (firstn 1 (tl (write_queue_ s)))
   end) /\
  (let s' := exec host RunPosted s in
   match posted s with
   | [] => s' = s
   | msg :: _ =>
       write_queue_ s' = write_queue_ s ++ [msg] /\
       match write_queue_ s with
       | [] => writes s = [] /\ writes s' = [frame host msg] /\
               written (trace s') = written (trace s) ++ [frame host msg]
       | _ :: _ => writes s' = writes s /\
                   written (trace s') = written (trace s)
       end
   end).
Proof.
  cbv zeta.
  pose proof (@run_write_order host es ctor (ctor_write_order host)) as H.
  pose proof (run_sent host es ctor) as Hs.
  change (sent ctor) with (@nil (list byte)) in Hs. cbn [app] in Hs.
  rewrite <- Hs. clear Hs.
  destruct (run host es ctor) as [op ht rt hd bb wq mh cc ps rs rx ws sn tr cn].
  destruct H as (done & H1 & H2 & H3).
  cbn [sent write_queue_ posted trace writes] in H1, H2, H3.
  cbn [sent write_queue_ posted trace writes].
  split; [|split; [|split; [|split]]].
  - destruct H3 as [->| ->]; [simpl; lia|].
    destruct wq; simpl; lia.
  - exists done. split; assumption.
  - rewrite H2, H1, length_map, length_app.
    rewrite firstn_app_2. f_equal. f_equal.
    destruct wq as [|m q]; reflexivity.
  - unfold exec; cbn [writes].
    destruct ws as [|w ws']; [reflexivity|].
    destruct H3 as [H3|H3]; [discriminate|].
    destruct wq as [|m q]; [discriminate|].
    cbn [firstn map] in H3. injection H3 as -> ->.
    destruct q as [|m2 q2]; session; lists; repeat split; reflexivity.
  - unfold exec; cbn [posted].
    destruct ps as [|msg rest]; [reflexivity|].
    destruct wq as [|m q]; session; cbn [app]; lists.
    + assert (ws = []) by (destruct H3 as [H3|H3]; exact H3). subst ws.
      repeat split; reflexivity.
    + repeat split; reflexivity.
Qed.

Lemma receive_app (host : endianness) (a b : list byte) (s : t) :
  receive host (a ++ b) s = receive host b (receive host a s).
Proof. apply fold_left_app. Qed.

(** A byte that does not fill the buffer of the oldest read is kept. *)
Lemma arrives_partial (host : endianness) (s : t) (b : byte)
    (op : read_op) (rest : list read_op) :
  reads s = op :: rest -> S (length (received s)) <> asks op ->
  arrives host s b = set_received (received s ++ [b]) s.
Proof.
  intros Hr Hn. unfold arrives. rewrite Hr.
  assert (D : forall q, reads q = op :: rest ->
                        length (received q) = S (length (received s)) ->
                        deliver host q = q).
  { intros q Hq Hl. unfold deliver. rewrite Hq, Hl.
    apply Nat.eqb_neq in Hn. now rewrite Hn. }
  assert (E : deliver host (set_received (received s ++ [b]) s) =
              set_received (received s ++ [b]) s).
  { apply D; [exact Hr|].
    cbn [received set_received]. rewrite length_app; simpl; lia. }
  now rewrite !E.
Qed.

Lemma receive_partial (host : endianness) (bs : list byte) (s : t)
    (op : read_op) (rest : list read_op) :
  reads s = op :: rest -> length (received s) + length bs < asks op ->
  receive host bs s = set_received (received s ++ bs) s.
Proof.
  revert s; induction bs as [|b bs IH]; intros s Hr Hl; simpl.
  - rewrite app_nil_r. destruct s; reflexivity.
  - simpl in Hl.
    rewrite (@arrives_partial host s b op rest Hr) by lia.
    fold (receive host bs (set_received (received s ++ [b]) s)).
    rewrite IH.
    + cbn [received set_received]. rewrite <- app_assoc. reflexivity.
    + exact Hr.
    + cbn [received set_received]. rewrite length_app; simpl. lia.
Qed.

(** The byte that fills the buffer completes the oldest read; the read
    issued by its handler completes as well if it asks for nothing. *)
Lemma arrives_last (host : endianness) (s : t) (b : byte)
    (op : read_op) (rest : list read_op) :
  reads s = op :: rest -> S (length (received s)) = asks op ->
  arrives host s b =
  deliver host
    (read_completes host success (received s ++ [b])
       (set_received [] (set_received (received s ++ [b]) s))).
Proof.
  intros Hr Hn. unfold arrives. rewrite Hr.
  f_equal. unfold deliver. cbn [reads received set_received]. rewrite Hr.
  rewrite length_app; simpl. replace (length (received s) + 1) with (asks op) by lia.
  now rewrite Nat.eqb_refl.
Qed.

(** The header handler on a length within the bound issues the read of the
    body and nothing else. *)
Lemma header_completes (host : endianness) (s : t) (a b c d : byte)
    (rest : list read_op) :
  reads s = ReadHeader :: rest ->
  (uint32_of_bytes big_endian [a; b; c; d] <= max_body_length)%Z ->
  let s' := read_completes host success [a; b; c; d] s in
  reads s' = rest ++ [ReadBody (Z.to_nat (uint32_of_bytes big_endian [a; b; c; d]))] /\
  received s' = received s /\
  trace s' = trace s /\
  message_handler_ s' = message_handler_ s.
Proof.
  intros Hr Hlen s'. unfold s'; clear s'.
  destruct s as [op ht rt hd bb wq mh cc ps rs rx ws sn tr cn].
  cbn [reads] in Hr; subst rs.
  apply Z.ltb_ge in Hlen.
  session. rewrite ntohl_uint32_of_bytes, Hlen. session.
  repeat split; reflexivity.
Qed.

(** The body handler passes the bytes read to the message handler and
    issues the read of the next header. *)
Lemma body_completes (host : endianness) (s : t) (bytes : list byte)
    (rest : list read_op) :
  reads s = ReadBody (length bytes) :: rest ->
  let s' := read_completes host success bytes s in
  reads s' = rest ++ [ReadHeader] /\
  received s' = received s /\
  trace s' =
    trace s ++ (if message_handler_ s then [MessageHandler bytes] else []) /\
  message_handler_ s' = message_handler_ s.
Proof.
  intros Hr s'. unfold s'; clear s'.
  destruct s as [op ht rt hd bb wq mh cc ps rs rx ws sn tr cn].
  cbn [reads] in Hr; subst rs.
  session. rewrite firstn_all.
  destruct mh; session; repeat split; try reflexivity.
  now rewrite app_nil_r.
Qed.

(** The four bytes of a header arrive: the read of the header completes. *)
Lemma receive_header (host : endianness) (s : t) (a b c d : byte) :
  reads s = [ReadHeader] -> received s = [] ->
  receive host [a; b; c; d] s =
  deliver host
    (read_completes host success [a; b; c; d]
       (set_received [] (set_received [a; b; c; d] s))).
Proof.
  intros Hr Hx.
  change [a; b; c; d] with ([a; b; c] ++ [d]) at 1.
  rewrite receive_app.
  rewrite (@receive_partial host [a; b; c] s ReadHeader [] Hr)
    by (rewrite Hx; simpl; lia).
  rewrite Hx. cbn [app receive fold_left].
  rewrite (@arrives_last host (set_received [a; b; c] s) d ReadHeader [])
    by (cbn [reads received set_received]; auto).
  destruct s; reflexivity.
Qed.

(** The bytes of a body arrive at a session that has just issued the read
    for them: the message handler gets them, and the read of the next
    header is issued. *)
Lemma receive_body (host : endianness) (s : t) (body : list byte) :
  reads s = [ReadBody (length body)] -> received s = [] ->
  message_handler_ s = true ->
  let s' := receive host body (deliver host s) in
  reads s' = [ReadHeader] /\ received s' = [] /\
  trace s' = trace s ++ [MessageHandler body].
Proof.
  intros Hr Hx Hm s'. unfold s'; clear s'.
  destruct body as [|final init _] using rev_ind.
  - unfold deliver. rewrite Hr, Hx. cbn [length asks Nat.eqb receive fold_left].
    destruct (@body_completes host (set_received [] s) [] []) as (R1 & R2 & R3 & R4).
    { destruct s; exact Hr. }
    rewrite R1, R2, R3.
    replace (message_handler_ (set_received [] s)) with true
      by (destruct s; symmetry; exact Hm).
    destruct s; repeat split; reflexivity.
  - assert (Hd : deliver host s = s).
    { unfold deliver. rewrite Hr, Hx. cbn [asks length].
      rewrite length_app. cbn [length].
      destruct (Nat.eqb_spec 0 (length init + 1)); [lia | reflexivity]. }
    rewrite Hd, receive_app.
    rewrite (@receive_partial host init s (ReadBody (length (init ++ [final]))) [] Hr)
      by (rewrite Hx; cbn [asks length]; rewrite length_app; simpl; lia).
    rewrite Hx. cbn [app receive fold_left].
    rewrite (@arrives_last host (set_received init s) final
               (ReadBody (length (init ++ [final]))) []).
    2: { destruct s; exact Hr. }
    2: { cbn [received set_received asks]. rewrite length_app. simpl. lia. }
    cbn [received set_received].
    match goal with |- context [read_completes host success ?bs ?q] =>
      destruct (@body_completes host q bs []) as (R1 & R2 & R3 & R4)
    end.
    { destruct s; exact Hr. }
    match goal with |- context [deliver host ?q] =>
      assert (Hd' : deliver host q = q)
    end.
    { unfold deliver. rewrite R1, R2. reflexivity. }
    rewrite Hd', R1, R2, R3.
    replace (message_handler_ _) with true by (destruct s; symmetry; exact Hm).
    destruct s; repeat split; reflexivity.
Qed.

(** C3.  For a message [msg] of at most [max_body_length] bytes at the
    front of the write queue, [do_write] starts the write of [frame msg],
    which is the four big-endian bytes of the length of [msg] followed by
    [msg]; and a session that waits for a header, with a message handler
    set, to which the bytes of this frame arrive, calls the handler with
    exactly [msg] and waits for the next header.  The two machines may differ in byte
    order. *)
Theorem frame_round_trip (sender_host receiver_host : endianness)
    (sender receiver : t) (msg : list byte) (q : list (list byte)) :
  (Z.of_nat (length msg) <= max_body_length)%Z ->
  write_queue_ sender = msg :: q ->
  reads receiver = [ReadHeader] ->
  received receiver = [] ->
  message_handler_ receiver = true ->
  let sender' := do_write sender_host sender in
  let receiver' := receive receiver_host (frame sender_host msg) receiver in
  written (trace sender') = written (trace sender) ++ [frame sender_host msg] /\
  frame sender_host msg =
    bytes_of_uint32 big_endian (Z.of_nat (length msg)) ++ msg /\
  trace receiver' = trace receiver ++ [MessageHandler msg] /\
  reads receiver' = [ReadHeader] /\
  received receiver' = [].
Proof.
  intros Hlen Hq Hr Hx Hm sender' receiver'.
  assert (Hrange : (0 <= Z.of_nat (length msg) < 2 ^ 32)%Z).
  { unfold max_body_length in Hlen. split; [lia|].
    change (2 ^ 32)%Z with 4294967296%Z. lia. }
  assert (Hframe : frame sender_host msg =
                   bytes_of_uint32 big_endian (Z.of_nat (length msg)) ++ msg).
  { now rewrite frame_big_endian, uint32_t_small. }
  split; [|split; [exact Hframe|]].
  - unfold sender'. destruct sender as [op ht rt hd bb wq mh cc ps rs rx ws sn tr cn].
    cbn [write_queue_] in Hq; subst wq. session. lists. reflexivity.
  - unfold receiver'. rewrite Hframe. rewrite receive_app.
    pose proof (uint32_of_bytes_of_uint32 big_endian Hrange) as Hval.
    remember (bytes_of_uint32 big_endian (Z.of_nat (length msg))) as header eqn:Hh.
    unfold bytes_of_uint32 in Hh.
    match type of Hh with _ = [?a; ?b; ?c; ?d] =>
      set (h0 := a) in Hh; set (h1 := b) in Hh;
      set (h2 := c) in Hh; set (h3 := d) in Hh
    end.
    subst header.
    rewrite (@receive_header receiver_host receiver h0 h1 h2 h3 Hr Hx).
    destruct (@header_completes receiver_host
                (set_received [] (set_received [h0; h1; h2; h3] receiver))
                h0 h1 h2 h3 []) as (R1 & R2 & R3 & R4).
    { destruct receiver; exact Hr. }
    { rewrite Hval. exact Hlen. }
    rewrite Hval, Nat2Z.id in R1.
    match goal with |- context [deliver receiver_host ?r] =>
      destruct (@receive_body receiver_host r msg) as (B1 & B2 & B3)
    end.
    + exact R1.
    + rewrite R2. destruct receiver; reflexivity.
    + rewrite R4. destruct receiver; exact Hm.
    + rewrite B1, B2, B3, R3. destruct receiver; repeat split; reflexivity.
Qed.

Lemma frame_round_trip_witness :
  let hello := list_byte_of_string "hello" in
  let sender := set_write_queue_ [hello] ctor in
  let receiver := start false (set_message_handler ctor) in
  (Z.of_nat (length hello) <= max_body_length)%Z /\
  write_queue_ sender = [hello] /\
  reads receiver = [ReadHeader] /\
  received receiver = [] /\
  message_handler_ receiver = true /\
  written (trace (do_write little_endian sender)) =
    written (trace sender) ++ [frame little_endian hello] /\
  frame little_endian hello =
    bytes_of_uint32 big_endian (Z.of_nat (length hello)) ++ hello /\
  trace (receive big_endian (frame little_endian hello) receiver) =
    trace receiver ++ [MessageHandler hello] /\
  reads (receive big_endian (frame little_endian hello) receiver) = [ReadHeader] /\
  received (receive big_endian (frame little_endian hello) receiver) = [].
Proof.
  cbv zeta.
  split; [vm_compute; discriminate|].
  split; [reflexivity|]. split; [reflexivity|]. split; [reflexivity|].
  split; [reflexivity|].
  apply (@frame_round_trip little_endian big_endian
           (set_write_queue_ [list_byte_of_string "hello"] ctor)
           (start false (set_message_handler ctor))
           (list_byte_of_string "hello") []).
  - vm_compute; discriminate.
  - reflexivity.
  - reflexivity.
  - reflexivity.
  - reflexivity.
Defined.

(** The frame of "hello" on the wire. *)
Example frame_hello :
  frame little_endian (list_byte_of_string "hello") =
  [x00; x00; x00; x05] ++ list_byte_of_string "hello".
Proof. vm_compute. reflexivity. Qed.

(** The frame of the keepalive message. *)
Example frame_HEARTBEAT :
  frame little_endian HEARTBEAT = [x00; x00; x00; x09] ++ HEARTBEAT.
Proof. vm_compute. reflexivity. Qed.

End TCPSessionProofs.

(* ================================================================== *)
(** * The pool of contexts after Stop *)
(* ================================================================== *)

Module IOServicePoolMore.
Import IOServicePool.

Lemma calls_empty (n : nat) (p : t) :
  io_services_ p = [] ->
  fst (calls n p) = repeat None n /\ io_services_ (snd (calls n p)) = [].
Proof.
  revert p. induction n as [|n IH]; intros p Hp; [auto|].
  cbn [calls]. unfold GetIOService. rewrite Hp.
  match goal with |- context [calls n ?q] =>
    destruct (IH q eq_refl) as [H1 H2]; destruct (calls n q) as [rs q']
  end.
  cbn [fst snd] in *. rewrite H1, H2.
  destruct (next_io_service_ p); auto.
Qed.

(** X30.  [Stop] leaves a pool without contexts: once it has returned,
    every call of [GetIOService], however many follow, indexes the empty
    vector out of range, and the pool stays empty. *)
Theorem GetIOService_after_Stop (n : nat) (p : t) :
  fst (calls n (Stop p)) = repeat None n /\
  io_services_ (snd (calls n (Stop p))) = [].
Proof.
  apply calls_empty. reflexivity.
Qed.

End IOServicePoolMore.

(* ================================================================== *)
(** * More on the connection pool *)
(* ================================================================== *)

Module ConnectionPoolMore.
Import ConnectionPool ConnectionPoolProofs.

Section WithConnectionType.

Variable ConnectionType : Type.

Lemma exec_stopped (c : call ConnectionType) (p : t ConnectionType) :
  _stop p = true -> _connections p = [] ->
  _stop (exec c p) = true /\ _connections (exec c p) = [].
Proof.
  intros Hs Hq. destruct c as [|[x|]|]; simpl.
  - unfold GetConnection. rewrite Hs. simpl. now split.
  - rewrite Hs. now split.
  - now split.
  - now split.
Qed.

(** X4.  A closed pool stays closed and empty whatever is called on it (short of
    [Initialize]), and [GetConnection] on it returns null at once. *)
Theorem Close_is_final (cs : list (call ConnectionType)) (p : t ConnectionType) :
  let q := run cs (Close p) in
  _stop q = true /\ _connections q = [] /\
  GetConnection q = (Returns None, q).
Proof.
  cbv zeta.
  assert (H : forall cs (r : t ConnectionType),
             _stop r = true -> _connections r = [] ->
             _stop (run cs r) = true /\ _connections (run cs r) = []).
  { clear. induction cs as [|c cs IH]; intros r Hs Hq; simpl; [now split|].
    destruct (exec_stopped c r Hs Hq) as [H1 H2]. now apply IH. }
  destruct (H cs (Close p) eq_refl eq_refl) as [H1 H2].
  repeat split; auto.
  unfold GetConnection. rewrite H1. reflexivity.
Qed.

Lemma precreate_produced (n : nat) (factory : ConnectionFactory ConnectionType)
    (q : list ConnectionType) (made : nat) :
  fst (precreate n factory q made) = q ++ produced factory made n.
Proof.
  revert q made; induction n as [|n IH]; intros q made; simpl.
  - unfold produced; simpl. now rewrite app_nil_r.
  - unfold produced in *; simpl.
    destruct (factory made) as [c|]; rewrite IH.
    + rewrite <- app_assoc. reflexivity.
    + reflexivity.
Qed.

(** X1.  [Initialize] calls the factory exactly [poolSize] times, appends the
    connections it gets to the queue in the order of the calls, leaving out
    the null ones, and reopens the pool. *)
Theorem Initialize_appends_produced (poolSize : nat)
    (factory : ConnectionFactory ConnectionType) (p : t ConnectionType) :
  let q := Initialize poolSize factory p in
  _connections q =
    _connections p ++ produced factory (factory_calls p) poolSize /\
  factory_calls q = factory_calls p + poolSize /\
  _stop q = false /\ GetPoolSize q = poolSize.
Proof.
  cbv zeta.
  rewrite Initialize_connections, precreate_produced.
  unfold GetPoolSize. rewrite Initialize_capacity.
  unfold Initialize.
  pose proof (precreate_calls poolSize factory (_connections p) (factory_calls p)) as H.
  destruct (precreate poolSize factory (_connections p) (factory_calls p)) as [q made].
  simpl in *. repeat split; auto.
Qed.

Lemma gets_S (n : nat) (p : t ConnectionType) :
  gets (S n) p =
  (fst (GetConnection p) :: fst (gets n (snd (GetConnection p))),
   snd (gets n (snd (GetConnection p)))).
Proof.
  simpl. destruct (GetConnection p) as [r p1]; simpl.
  destruct (gets n p1); reflexivity.
Qed.

(** X2.  Connections leave the pool in the order they entered it: on a pool that
    is not stopped, [n] calls of [GetConnection], for [n] up to the length of
    the queue, return its first [n] connections in order and leave the
    rest. *)
Theorem GetConnection_first_in_first_out (n : nat) (p : t ConnectionType) :
  _stop p = false -> n <= length (_connections p) ->
  fst (gets n p) = map (fun c => Returns (Some c)) (firstn n (_connections p)) /\
  _connections (snd (gets n p)) = skipn n (_connections p) /\
  _stop (snd (gets n p)) = false.
Proof.
  revert p; induction n as [|n IH]; intros p Hs Hn.
  - simpl. repeat split; auto.
  - rewrite gets_S.
    destruct p as [st sz q f made]; cbn [_stop _connections] in *. subst st.
    destruct q as [|c q]; [simpl in Hn; lia|].
    unfold GetConnection; cbn [_stop _connections negb orb fst snd].
    match goal with |- context [gets n ?r] =>
      destruct (IH r) as (H1 & H2 & H3); [reflexivity | simpl in *; lia |]
    end.
    cbn [_connections] in H1, H2. rewrite H1, H2, H3.
    repeat split; reflexivity.
Qed.

(** X3.  A connection returned to an empty pool that is open and has room is
    what the next [GetConnection] returns, and that call leaves the pool as
    it was before the return. *)
Theorem ReturnConnection_then_GetConnection (c : ConnectionType)
    (p : t ConnectionType) :
  _stop p = false -> _connections p = [] -> 0 < _poolSize p ->
  GetConnection (ReturnConnection (Some c) p) = (Returns (Some c), p).
Proof.
  intros Hs Hq Hz. destruct p as [st sz q f made].
  cbn [_stop _connections _poolSize] in *. subst st q.
  unfold ReturnConnection; cbn [_stop _connections _poolSize length].
  destruct (Nat.leb_spec sz 0); [lia|].
  reflexivity.
Qed.

(** X5.  On a pool initialised once with a size that fits [size_t], whatever is
    called afterwards, the two counts add up to the pool size: the
    subtraction in [GetInUseCount] never wraps around. *)
Theorem counts_add_up (C : nat) (factory : ConnectionFactory ConnectionType)
    (cs : list (call ConnectionType)) :
  (Z.of_nat C < 2 ^ 64)%Z ->
  let p := run cs (Initialize C factory (ctor ConnectionType)) in
  (Z.of_nat (GetAvailableCount p) + GetInUseCount p = Z.of_nat (GetPoolSize p))%Z /\
  GetPoolSize p = C.
Proof.
  intros HC. cbv zeta.
  assert (H0 : within_capacity (Initialize C factory (ctor ConnectionType))).
  { apply Initialize_within_capacity. reflexivity. }
  destruct (run_within_capacity cs H0) as [H1 H2].
  unfold within_capacity in H1. rewrite Initialize_capacity in H2.
  unfold GetAvailableCount, GetInUseCount, GetPoolSize.
  split; [|exact H2].
  rewrite H2 in *.
  rewrite Z.mod_small; lia.
Qed.

End WithConnectionType.

Lemma GetConnection_first_in_first_out_witness :
  let p := Initialize 3 (fun n => Some (10 + n)) (ctor nat) in
  _stop p = false /\ 2 <= length (_connections p) /\
  fst (gets 2 p) = [Returns (Some 10); Returns (Some 11)] /\
  _connections (snd (gets 2 p)) = [12] /\
  _stop (snd (gets 2 p)) = false.
Proof.
  cbv zeta. split; [reflexivity|]. split; [simpl; lia|].
  apply (@GetConnection_first_in_first_out nat 2
           (Initialize 3 (fun n => Some (10 + n)) (ctor nat))).
  - reflexivity.
  - simpl; lia.
Defined.

Lemma ReturnConnection_then_GetConnection_witness :
  let p := snd (GetConnection (Initialize 1 (fun n => Some n) (ctor nat))) in
  _stop p = false /\ _connections p = [] /\ 0 < _poolSize p /\
  GetConnection (ReturnConnection (Some 7) p) = (Returns (Some 7), p).
Proof.
  cbv zeta. split; [reflexivity|]. split; [reflexivity|]. split; [simpl; lia|].
  apply (@ReturnConnection_then_GetConnection nat 7
           (snd (GetConnection (Initialize 1 (fun n => Some n) (ctor nat))))).
  - reflexivity.
  - reflexivity.
  - simpl; lia.
Defined.

Lemma counts_add_up_witness :
  let p := run [CallGetConnection nat; CallReturnConnection (Some 9); CallGetConnection nat]
               (Initialize 2 (fun n => Some n) (ctor nat)) in
  (Z.of_nat 2 < 2 ^ 64)%Z /\
  (Z.of_nat (GetAvailableCount p) + GetInUseCount p = Z.of_nat (GetPoolSize p))%Z /\
  GetPoolSize p = 2.
Proof.
  cbv zeta. split; [reflexivity|].
  apply (@counts_add_up nat 2 (fun n => Some n)
           [CallGetConnection nat; CallReturnConnection (Some 9); CallGetConnection nat]).
  reflexivity.
Defined.

End ConnectionPoolMore.

(* ================================================================== *)
(** * More on the thread pool *)
(* ================================================================== *)

Module ThreadPoolMore.
Import ThreadPool ThreadPoolProofs.

Local Open Scope Z_scope.

Lemma size_t_succ (n : nat) :
  size_t (size_t (Z.of_nat n) + 1) = size_t (Z.of_nat (S n)).
Proof.
  unfold size_t. rewrite Zplus_mod_idemp_l. f_equal. lia.
Qed.

Lemma size_t_pred (n : nat) :
  size_t (size_t (Z.of_nat (S n)) - 1) = size_t (Z.of_nat n).
Proof.
  unfold size_t. rewrite Zminus_mod_idemp_l. f_equal. lia.
Qed.

Lemma held_repeat_AtWait (n : nat) : flat_map task_of (repeat AtWait n) = [].
Proof. induction n; simpl; auto. Qed.

Lemma exec_counted (e : step) (p : t) : counted p -> counted (exec e p).
Proof.
  destruct p as [th q st tc acc ex].
  unfold counted, held; cbn [_threads _tasks _taskCount].
  intros H. destruct e as [task|i|]; cbn [exec].
  - unfold Enqueue; cbn [_stop]. destruct st; cbn [snd _threads _tasks _taskCount].
    + exact H.
    + rewrite H, length_app; cbn [length].
      rewrite size_t_succ. f_equal. lia.
  - unfold WorkerThread, WorkerThread_locked, WorkerThread_run, set_thread;
      cbn [_threads _tasks _stop _taskCount accepted executed].
    destruct (nth_error th i) as [[|task|]|] eqn:Hi; try exact H.
    + destruct st, q as [|task rest];
        cbn [negb orb andb _threads _tasks _stop _taskCount accepted executed];
        try exact H.
      * pose proof (Permutation_length (@held_replace th i AtWait Exited Hi)) as L.
        cbn [task_of app] in L. now rewrite L.
      * pose proof (Permutation_length
                      (@held_replace th i AtWait (Holding task) Hi)) as L.
        cbn [task_of app length] in L. rewrite L, H. cbn [length]. f_equal. lia.
      * pose proof (Permutation_length
                      (@held_replace th i AtWait (Holding task) Hi)) as L.
        cbn [task_of app length] in L. rewrite L, H. cbn [length]. f_equal. lia.
    + pose proof (Permutation_length
                    (@held_replace th i (Holding task) AtWait Hi)) as L.
      cbn [task_of app length] in L. rewrite H, <- L.
      replace (length q + S (length (flat_map task_of
                 (firstn i th ++ AtWait :: skipn (S i) th))))%nat
        with (S (length q + length (flat_map task_of
                 (firstn i th ++ AtWait :: skipn (S i) th))))%nat by lia.
      apply size_t_pred.
  - exact H.
Qed.

(** X6.  After [Initialize] on a new pool, whatever the schedule,
    [GetTaskCount] is the number of tasks that are queued or being run
    (as a 64-bit [size_t]). *)
Theorem GetTaskCount_counts_pending (hardware_concurrency threadCount : nat)
    (es : list step) :
  let p := run es (Initialize hardware_concurrency threadCount ctor) in
  GetTaskCount p = size_t (Z.of_nat (length (_tasks p) + length (held p))).
Proof.
  cbv zeta. change (counted (run es (Initialize hardware_concurrency threadCount ctor))).
  assert (H0 : counted (Initialize hardware_concurrency threadCount ctor)).
  { unfold counted, held, Initialize; simpl. now rewrite held_repeat_AtWait. }
  revert H0. generalize (Initialize hardware_concurrency threadCount ctor).
  induction es as [|e es IH]; intros p H; simpl; [exact H|].
  apply IH. now apply exec_counted.
Qed.

Local Close Scope Z_scope.

Lemma exec_in_order (e : step) (p : t) : in_order p -> in_order (exec e p).
Proof.
  destruct p as [th q st tc acc ex].
  intros (w & Hth & H). cbn [_threads _tasks executed accepted] in *. subst th.
  unfold in_order.
  destruct e as [task|i|]; cbn [exec].
  - unfold Enqueue; cbn [_stop]. destruct st; cbn [snd _threads _tasks executed accepted].
    + exists w. now split.
    + exists w. split; [reflexivity|]. rewrite <- H, <- !app_assoc. reflexivity.
  - unfold WorkerThread, WorkerThread_locked, WorkerThread_run, set_thread;
      cbn [_threads _tasks _stop _taskCount accepted executed].
    destruct i as [|i]; cbn [nth_error].
    2: { destruct i; cbn [nth_error]; exists w; now split. }
    destruct w as [|task|].
    + destruct st, q as [|task rest];
        cbn [negb orb andb _threads _tasks _stop _taskCount accepted executed
             firstn skipn app].
      * exists Exited. now split.
      * exists (Holding task). now split.
      * exists AtWait. now split.
      * exists (Holding task). now split.
    + cbn [firstn skipn app]. exists AtWait. split; [reflexivity|].
      cbn [_threads _tasks executed accepted task_of app].
      rewrite <- H, <- app_assoc. reflexivity.
    + exists Exited. now split.
  - exists w. now split.
Qed.

(** X7.  With a single worker thread the tasks are run in the order in which
    they were submitted: at every moment the tasks run, the one being run
    and the ones queued, in this order, are the tasks accepted, in the
    order of the calls of [Enqueue]. *)
Theorem single_worker_runs_in_order (hardware_concurrency : nat) (es : list step) :
  let p := run es (Initialize hardware_concurrency 1 ctor) in
  executed p ++ held p ++ _tasks p = accepted p.
Proof.
  cbv zeta.
  assert (H0 : in_order (Initialize hardware_concurrency 1 ctor)).
  { exists AtWait. split; reflexivity. }
  assert (H : in_order (run es (Initialize hardware_concurrency 1 ctor))).
  { revert H0. generalize (Initialize hardware_concurrency 1 ctor).
    induction es as [|e es IH]; intros p H; simpl; [exact H|].
    apply IH. now apply exec_in_order. }
  destruct H as (w & Hth & H). unfold held. rewrite Hth. simpl.
  rewrite app_nil_r. exact H.
Qed.

End ThreadPoolMore.

(* ================================================================== *)
(** * More on the byte order of the length prefix *)
(* ================================================================== *)

Module WireMore.
Import Wire WireProofs.

Local Open Scope Z_scope.

(** X9.  [htonl] and [ntohl] undo each other on 32-bit values, on a machine of
    either byte order, and the bytes stored for [htonl x] are the bytes of
    [x] from the most significant to the least. *)
Theorem ntohl_htonl (host : endianness) (x : Z) :
  0 <= x < 2 ^ 32 ->
  ntohl host (htonl host x) = x /\
  htonl host (ntohl host x) = x /\
  bytes_of_uint32 host (htonl host x) =
    [low_byte (x / 2 ^ 24); low_byte (x / 2 ^ 16); low_byte (x / 2 ^ 8); low_byte x].
Proof.
  intros Hx.
  assert (Hswap : bswap32 (bswap32 x) = x).
  { unfold bswap32 at 1.
    replace (bytes_of_uint32 little_endian (bswap32 x))
      with (bytes_of_uint32 big_endian x).
    - now apply uint32_of_bytes_of_uint32.
    - symmetry. apply (bytes_of_htonl little_endian). }
  split; [|split].
  - destruct host; [exact Hswap | reflexivity].
  - destruct host; [exact Hswap | reflexivity].
  - now rewrite bytes_of_htonl.
Qed.

Lemma ntohl_htonl_witness :
  (0 <= 20000000 < 2 ^ 32) /\
  ntohl little_endian (htonl little_endian 20000000) = 20000000 /\
  htonl little_endian (ntohl little_endian 20000000) = 20000000 /\
  bytes_of_uint32 little_endian (htonl little_endian 20000000) =
    [low_byte (20000000 / 2 ^ 24); low_byte (20000000 / 2 ^ 16);
     low_byte (20000000 / 2 ^ 8); low_byte 20000000].
Proof.
  split; [lia|]. apply (@ntohl_htonl little_endian 20000000). lia.
Defined.

End WireMore.

(* ================================================================== *)
(** * Worker threads do exit *)
(* ================================================================== *)

Module ThreadPoolLiveness.
Import ThreadPool ThreadPoolProofs.

Lemma Shutdown_returns_witness :
  let p := run [StepEnqueue 1; StepEnqueue 2; StepWorker 0; StepShutdown]
               (Initialize 4 2 ctor) in
  _stop p = true /\ Shutdown_join (run (drain p) p) <> None.
Proof.
  cbv zeta. split; [reflexivity|].
  apply (@Shutdown_returns
           (run [StepEnqueue 1; StepEnqueue 2; StepWorker 0; StepShutdown]
                (Initialize 4 2 ctor))).
  reflexivity.
Defined.

End ThreadPoolLiveness.

(* ================================================================== *)
(** * More on the session: streams, timers and the read loop *)
(* ================================================================== *)

Module TCPSessionMore.
Import Wire TCPSession WireProofs TCPSessionProofs.

Lemma read_completes_message_handler (host : endianness) (ec : error_code)
    (bytes : list byte) (s : t) :
  message_handler_ (read_completes host ec bytes s) = message_handler_ s.
Proof.
  destruct s as [op ht rt hd bb wq mh cc ps rs rx ws sn tr cn].
  session; branches; reflexivity.
Qed.

Lemma deliver_message_handler (host : endianness) (s : t) :
  message_handler_ (deliver host s) = message_handler_ s.
Proof.
  unfold deliver. destruct (reads s) as [|op rest]; [reflexivity|].
  destruct (length (received s) =? asks op); [|reflexivity].
  rewrite read_completes_message_handler. destruct s; reflexivity.
Qed.

Lemma receive_message_handler (host : endianness) (stream : list byte) (s : t) :
  message_handler_ (receive host stream s) = message_handler_ s.
Proof.
  revert s; induction stream as [|b stream IH]; intros s; simpl; [reflexivity|].
  fold (receive host stream (arrives host s b)). rewrite IH.
  unfold arrives. destruct (reads s); [reflexivity|].
  rewrite !deliver_message_handler. destruct s; reflexivity.
Qed.

(** One frame arrives at a session that waits for a header. *)
Lemma receive_frame (sender_host host : endianness) (r : t) (msg : list byte) :
  (Z.of_nat (length msg) <= max_body_length)%Z ->
  reads r = [ReadHeader] -> received r = [] -> message_handler_ r = true ->
  let r' := receive host (frame sender_host msg) r in
  trace r' = trace r ++ [MessageHandler msg] /\
  reads r' = [ReadHeader] /\ received r' = [] /\ message_handler_ r' = true.
Proof.
  intros Hlen Hr Hx Hm r'.
  assert (Hmh : message_handler_ r' = true).
  { unfold r'. now rewrite receive_message_handler. }
  assert (Hrange : (0 <= Z.of_nat (length msg) < 2 ^ 32)%Z).
  { unfold max_body_length in Hlen. split; [lia|].
    change (2 ^ 32)%Z with 4294967296%Z. lia. }
  unfold r' in *. rewrite frame_big_endian, uint32_t_small in * by exact Hrange.
  rewrite receive_app in *.
  pose proof (uint32_of_bytes_of_uint32 big_endian Hrange) as Hval.
  remember (bytes_of_uint32 big_endian (Z.of_nat (length msg))) as header eqn:Hh.
  unfold bytes_of_uint32 in Hh.
  match type of Hh with _ = [?a; ?b; ?c; ?d] =>
    set (h0 := a) in Hh; set (h1 := b) in Hh;
    set (h2 := c) in Hh; set (h3 := d) in Hh
  end.
  subst header.
  rewrite (@receive_header host r h0 h1 h2 h3 Hr Hx) in *.
  destruct (@header_completes host
              (set_received [] (set_received [h0; h1; h2; h3] r))
              h0 h1 h2 h3 []) as (R1 & R2 & R3 & R4).
  { destruct r; exact Hr. }
  { rewrite Hval. exact Hlen. }
  rewrite Hval, Nat2Z.id in R1.
  match goal with |- context [deliver host ?q] =>
    destruct (@receive_body host q msg) as (B1 & B2 & B3)
  end.
  - exact R1.
  - rewrite R2. destruct r; reflexivity.
  - rewrite R4. destruct r; exact Hm.
  - rewrite B1, B2, B3, R3. destruct r; repeat split; auto.
Qed.

(** X10.  Frames that arrive back to back, however the stream is cut into
    segments, are taken apart again: the message handler gets each message
    of at most [max_body_length] bytes once, in the order they were sent,
    and the session ends waiting for a header with nothing left over. *)
Theorem receive_frames (sender_host host : endianness) (r : t)
    (msgs : list (list byte)) :
  forallb (fun m => (Z.of_nat (length m) <=? max_body_length)%Z) msgs = true ->
  reads r = [ReadHeader] -> received r = [] -> message_handler_ r = true ->
  let r' := receive host (concat (map (frame sender_host) msgs)) r in
  trace r' = trace r ++ map MessageHandler msgs /\
  reads r' = [ReadHeader] /\ received r' = [].
Proof.
  revert r; induction msgs as [|m msgs IH]; intros r Hall Hr Hx Hm; cbv zeta.
  - simpl. rewrite app_nil_r. auto.
  - simpl in Hall. apply andb_prop in Hall. destruct Hall as [H1 H2].
    apply Z.leb_le in H1.
    cbn [map concat]. rewrite receive_app.
    destruct (@receive_frame sender_host host r m H1 Hr Hx Hm) as (F1 & F2 & F3 & F4).
    destruct (IH _ H2 F2 F3 F4) as (G1 & G2 & G3).
    rewrite G1, G2, G3, F1, <- app_assoc. auto.
Qed.

Lemma receive_frames_witness :
  let r := start false (set_message_handler ctor) in
  let a := list_byte_of_string "hello" in
  let b := list_byte_of_string "" in
  let c := list_byte_of_string "world!" in
  forallb (fun m => (Z.of_nat (length m) <=? max_body_length)%Z) [a; b; c] = true /\
  reads r = [ReadHeader] /\ received r = [] /\ message_handler_ r = true /\
  trace (receive big_endian (concat (map (frame little_endian) [a; b; c])) r) =
    trace r ++ map MessageHandler [a; b; c] /\
  reads (receive big_endian (concat (map (frame little_endian) [a; b; c])) r) =
    [ReadHeader] /\
  received (receive big_endian (concat (map (frame little_endian) [a; b; c])) r) = [].
Proof.
  cbv zeta. split; [reflexivity|]. split; [reflexivity|].
  split; [reflexivity|]. split; [reflexivity|].
  apply (@receive_frames little_endian big_endian
           (start false (set_message_handler ctor))
           [list_byte_of_string "hello"; list_byte_of_string "";
            list_byte_of_string "world!"]); reflexivity.
Defined.

Lemma receive_no_reads (host : endianness) (stream : list byte) (s : t) :
  reads s = [] -> receive host stream s = s.
Proof.
  intros H. induction stream as [|b stream IH]; simpl; [reflexivity|].
  assert (E : arrives host s b = s) by (unfold arrives; now rewrite H).
  rewrite E. exact IH.
Qed.

(** X11.  A header above the bound ends the reading: whatever follows in
    the stream is not read and the message handler is not called.  The
    session is closed, unless [remote_endpoint()] throws in front of
    [close()]: the socket of a peer that has disconnected stays open. *)
Theorem receive_oversized_header (host : endianness) (r : t)
    (a b c d : byte) (rest : list byte) :
  reads r = [ReadHeader] -> received r = [] ->
  (max_body_length < uint32_of_bytes big_endian [a; b; c; d])%Z ->
  let r' := receive host ([a; b; c; d] ++ rest) r in
  socket_open r' = (socket_open r && negb (connected r)) /\ reads r' = [] /\
  handled (trace r') = handled (trace r) /\
  r' = receive host [a; b; c; d] r.
Proof.
  intros Hr Hx Hlen r'. unfold r'; clear r'.
  rewrite receive_app, (@receive_header host r a b c d Hr Hx).
  destruct r as [op ht rt hd bb wq mh cc ps rs rx ws sn tr cn].
  cbn [reads received] in Hr, Hx. subst rs rx. apply Z.ltb_lt in Hlen.
  unfold deliver. session. rewrite ntohl_uint32_of_bytes, Hlen.
  destruct op, cn, cc; session;
    rewrite receive_no_reads by reflexivity;
    session; repeat rewrite handled_app; cbn [handled flat_map app];
    rewrite ?app_nil_r; auto.
Qed.

Lemma receive_oversized_header_witness :
  let r := start false (set_message_handler ctor) in
  let rest := list_byte_of_string "never read" in
  reads r = [ReadHeader] /\ received r = [] /\
  (max_body_length < uint32_of_bytes big_endian [x01; x31; x2d; x00])%Z /\
  socket_open (receive little_endian ([x01; x31; x2d; x00] ++ rest) r) = false /\
  reads (receive little_endian ([x01; x31; x2d; x00] ++ rest) r) = [] /\
  handled (trace (receive little_endian ([x01; x31; x2d; x00] ++ rest) r)) =
    handled (trace r) /\
  receive little_endian ([x01; x31; x2d; x00] ++ rest) r =
    receive little_endian [x01; x31; x2d; x00] r.
Proof.
  cbv zeta. split; [reflexivity|]. split; [reflexivity|]. split; [reflexivity|].
  apply (@receive_oversized_header little_endian
           (start false (set_message_handler ctor)) x01 x31 x2d x00
           (list_byte_of_string "never read")); reflexivity.
Defined.

(** Evaluates the timers as well. *)
Ltac timers :=
  cbn [waits expiry cancel expires_after expires_at_max async_wait expires
       pending_waits heartbeat_timer_ read_timeout_timer_] in *.

(** X12.  The idle timer closes the session, unless [remote_endpoint()]
    throws: when the read timer expires while its wait is pending, the
    handler of the wait closes the socket of a peer that is still connected
    and does nothing else; on a socket that is closed already, or whose
    peer has disconnected, the exception leaves the handler in front of
    [close()], and a socket that was open stays open. *)
Theorem read_timeout_closes (host : endianness) (s : t) (d : nat)
    (rest : list wait) :
  expiry (read_timeout_timer_ s) = Some d ->
  waits (read_timeout_timer_ s) = Pending :: rest ->
  let s' := exec host ReadTimerHandler (exec host ReadTimerExpires s) in
  socket_open s' = (socket_open s && negb (connected s)) /\
  trace s' =
    trace s ++
    (if socket_open s && connected s
     then SocketShutdown :: SocketClose ::
          (if close_callback_ s then [CloseCallback] else [])
     else [Throws]) /\
  reads s' = reads s /\ write_queue_ s' = write_queue_ s.
Proof.
  intros He Hw s'. unfold s'; clear s'.
  destruct s as [op ht [re rw] hd bb wq mh cc ps rs rx ws sn tr cn].
  timers. subst re rw.
  unfold exec; session; timers.
  destruct op, cn, cc; session; traces; repeat split; now rewrite ?app_nil_r.
Qed.

Lemma read_timeout_closes_witness :
  let s := start false (set_close_callback ctor) in
  expiry (read_timeout_timer_ s) = Some 120 /\
  waits (read_timeout_timer_ s) = [Pending] /\
  let s' := exec little_endian ReadTimerHandler
              (exec little_endian ReadTimerExpires s) in
  socket_open s' = false /\
  trace s' = trace s ++ [SocketShutdown; SocketClose; CloseCallback] /\
  reads s' = reads s /\ write_queue_ s' = write_queue_ s.
Proof.
  cbv zeta. split; [reflexivity|]. split; [reflexivity|].
  apply (@read_timeout_closes little_endian
           (start false (set_close_callback ctor)) 120 []); reflexivity.
Defined.

(** X13.  The idle timer covers the wait for a header only.  When a header of an
    acceptable length arrives while the wait is pending, the wait is
    cancelled and the timer is not armed again for the body: its handler
    then runs without closing anything, also if the expiry time passes
    first, and no wait is left that could end the wait for the body. *)
Theorem header_cancels_read_timeout (host : endianness) (s : t)
    (a b c d : byte) (rest : list read_op) :
  waits (read_timeout_timer_ s) = [Pending] ->
  reads s = ReadHeader :: rest ->
  (uint32_of_bytes big_endian [a; b; c; d] <= max_body_length)%Z ->
  let s1 := exec host (ReadCompletes success [a; b; c; d]) s in
  let s2 := exec host ReadTimerHandler (exec host ReadTimerExpires s1) in
  waits (read_timeout_timer_ s1) = [Aborted] /\
  reads s1 = rest ++ [ReadBody (Z.to_nat (uint32_of_bytes big_endian [a; b; c; d]))] /\
  waits (read_timeout_timer_ s2) = [] /\
  socket_open s2 = socket_open s /\ trace s2 = trace s /\ reads s2 = reads s1.
Proof.
  intros Hw Hr Hlen s1 s2. unfold s2, s1; clear s1 s2.
  destruct s as [op ht [re rw] hd bb wq mh cc ps rs rx ws sn tr cn].
  timers. cbn [reads] in Hr. subst rw rs.
  apply Z.ltb_ge in Hlen.
  match goal with |- context [exec host (ReadCompletes ?ec ?bs) ?q] =>
    assert (E : exec host (ReadCompletes ec bs) q =
                do_read_body (uint32_of_bytes big_endian [a; b; c; d])
                  (set_read_timeout_timer_ (cancel (read_timeout_timer_ q))
                     (set_header_ [a; b; c; d] (set_reads rest q))))
  end.
  { unfold exec; cbn [reads is_error orb length asks Nat.eqb].
    session. rewrite ntohl_uint32_of_bytes, Hlen. reflexivity. }
  rewrite E. clear E. session. timers.
  unfold exec; session; timers.
  destruct re; session; timers; repeat split; reflexivity.
Qed.

Lemma header_cancels_read_timeout_witness :
  let s := start false ctor in
  waits (read_timeout_timer_ s) = [Pending] /\
  reads s = [ReadHeader] /\
  (uint32_of_bytes big_endian [x00; x00; x00; x05] <= max_body_length)%Z /\
  let s1 := exec little_endian (ReadCompletes success [x00; x00; x00; x05]) s in
  let s2 := exec little_endian ReadTimerHandler
              (exec little_endian ReadTimerExpires s1) in
  waits (read_timeout_timer_ s1) = [Aborted] /\
  reads s1 = [ReadBody 5] /\
  waits (read_timeout_timer_ s2) = [] /\
  socket_open s2 = socket_open s /\ trace s2 = trace s /\ reads s2 = reads s1.
Proof.
  cbv zeta. split; [reflexivity|]. split; [reflexivity|].
  split; [vm_compute; discriminate|].
  apply (@header_cancels_read_timeout little_endian (start false ctor)
           x00 x00 x00 x05 []).
  - reflexivity.
  - reflexivity.
  - vm_compute; discriminate.
Defined.

Lemma pending_abort (l : list wait) :
  filter (fun w => match w with Pending => true | _ => false end) (map abort l) = [].
Proof. induction l as [|[| |] l IH]; simpl; auto. Qed.

Lemma pending_expire (l : list wait) :
  filter (fun w => match w with Pending => true | _ => false end) (map expire l) = [].
Proof. induction l as [|[| |] l IH]; simpl; auto. Qed.

Ltac waits_le :=
  timers;
  repeat rewrite filter_app; repeat rewrite pending_abort;
  repeat rewrite pending_expire;
  cbn [filter length app] in *; try lia.

Lemma exec_pending_waits (host : endianness) (e : event) (s : t) :
  pending_waits (heartbeat_timer_ s) <= 1 /\
  pending_waits (read_timeout_timer_ s) <= 1 ->
  pending_waits (heartbeat_timer_ (exec host e s)) <= 1 /\
  pending_waits (read_timeout_timer_ (exec host e s)) <= 1.
Proof.
  destruct s as [op [he hw] [re rw] hd bb wq mh cc ps rs rx ws sn tr cn].
  unfold pending_waits. timers. intros [Hh Hr].
  destruct e; unfold exec; session; timers; branches; session; timers;
    split; waits_le.
  all: unfold expires; timers; branches; waits_le.
Qed.

(** X14.  Each timer has at most one wait that can still fire, whatever happens
    to the session and however often [start] is called: arming a timer
    cancels the wait it had.  So there is never a second chain of
    heartbeats, nor a second idle timer. *)
Theorem one_pending_wait_per_timer (host : endianness) (es : list event) :
  let s := run host es ctor in
  pending_waits (heartbeat_timer_ s) <= 1 /\
  pending_waits (read_timeout_timer_ s) <= 1.
Proof.
  cbv zeta.
  assert (H0 : pending_waits (heartbeat_timer_ ctor) <= 1 /\
               pending_waits (read_timeout_timer_ ctor) <= 1)
    by (split; apply Nat.le_0_l).
  revert H0. generalize ctor.
  induction es as [|e es IH]; intros s H; simpl; [exact H|].
  apply IH. now apply exec_pending_waits.
Qed.

Lemma exec_one_read (host : endianness) (e : event) (s : t) :
  no_start [e] = true -> one_read s -> one_read (exec host e s).
Proof.
  destruct s as [op ht rt hd bb wq mh cc ps rs rx ws sn tr cn].
  unfold one_read; cbn [reads socket_open connected]. intros Hns [H1 H2].
  destruct rs as [|r0 [|r1 rest]]; [| |simpl in H1; lia].
  - assert (Hc : op = false \/ cn = false)
      by (destruct H2 as [H|[H|H]]; [auto | auto | discriminate]).
    clear H1 H2.
    destruct op, cn; try (destruct Hc; discriminate); clear Hc;
      destruct e; try discriminate; unfold exec; session; branches;
      cbn [List.length app];
      (split; [lia | first [left; reflexivity | right; left; reflexivity
                           | right; right; reflexivity]]).
  - clear H1 H2.
    destruct op, cn;
      destruct e; try discriminate; unfold exec; session; branches;
      cbn [List.length app];
      (split; [lia | first [left; reflexivity | right; left; reflexivity
                           | right; right; reflexivity]]).
Qed.

(** X15.  The read loop of a session that is started once: after [start],
    as long as [start] is not called again, at most one read is
    outstanding, and exactly one while the socket is open and the peer
    connected, so that such a session is always waiting for its peer.  A
    session whose peer has disconnected can be left open with no read
    outstanding, when [remote_endpoint()] throws in front of [close()]. *)
Theorem one_read_outstanding (host : endianness) (s0 : t) (es : list event) :
  reads s0 = [] -> no_start es = true ->
  let s := run host es (start false s0) in
  length (reads s) <= 1 /\
  (socket_open s = false \/ connected s = false \/ length (reads s) = 1).
Proof.
  intros Hr Hns. cbv zeta.
  change (one_read (run host es (start false s0))).
  assert (H0 : one_read (start false s0)).
  { destruct s0 as [op ht rt hd bb wq mh cc ps rs rx ws sn tr cn].
    cbn [reads] in Hr; subst rs. unfold one_read.
    destruct op, cn, cc; session; cbn [length app];
      (split; [lia | first [left; reflexivity | right; left; reflexivity
                           | right; right; reflexivity]]). }
  revert H0 Hns. generalize (start false s0).
  induction es as [|e es IH]; intros s H Hns; simpl; [exact H|].
  simpl in Hns. apply andb_prop in Hns. destruct Hns as [He Hes].
  apply IH; [|exact Hes].
  apply exec_one_read; [|exact H]. simpl. now rewrite He.
Qed.

(** The peer resets the connection while the session waits for a header:
    the read fails, [handle_error] throws, and the session is left open
    with no read outstanding. *)
Lemma one_read_outstanding_witness :
  let es := [CallSend (list_byte_of_string "hi"); RunPosted;
             ReadCompletes success [x00; x00; x00; x02];
             ReadCompletes success [x68; x69];
             Disconnects; ReadCompletes connection_reset []] in
  let s := run little_endian es (start false ctor) in
  reads ctor = [] /\ no_start es = true /\
  socket_open s = true /\ reads s = [] /\
  length (reads s) <= 1 /\
  (socket_open s = false \/ connected s = false \/ length (reads s) = 1).
Proof.
  cbv zeta. split; [reflexivity|]. split; [reflexivity|].
  split; [reflexivity|]. split; [reflexivity|].
  apply (@one_read_outstanding little_endian ctor
           [CallSend (list_byte_of_string "hi"); RunPosted;
            ReadCompletes success [x00; x00; x00; x02];
            ReadCompletes success [x68; x69];
            Disconnects; ReadCompletes connection_reset []]); reflexivity.
Defined.

End TCPSessionMore.

(* ================================================================== *)
(** * The server and its sessions *)
(* ================================================================== *)

Module TCPServerProofs.
Import Wire TCPServer.

Lemma called_back_close (session : TCPSession.t) :
  TCPSession.socket_open session = true ->
  TCPSession.close_callback_ session = true ->
  called_back session (TCPSession.close session) = true.
Proof.
  intros Ho Hc. unfold called_back.
  destruct (TCPSessionProofs.close_open session) as (_ & _ & Ht).
  rewrite Ht, Ho, Hc, TCPSessionProofs.close_callbacks_app.
  change (TCPSession.close_callbacks
            [TCPSession.SocketShutdown; TCPSession.SocketClose;
             TCPSession.CloseCallback]) with 1.
  apply Nat.ltb_lt. lia.
Qed.

(** A step of a session that does not call the close callback leaves the
    socket open and the callback in place. *)
Lemma step_stays_open (host : endianness) (e : TCPSession.event)
    (session : TCPSession.t) :
  TCPSession.socket_open session = true ->
  TCPSession.close_callback_ session = true ->
  called_back session (TCPSession.exec host e session) = false ->
  TCPSession.socket_open (TCPSession.exec host e session) = true /\
  TCPSession.close_callback_ (TCPSession.exec host e session) = true.
Proof.
  intros Ho Hc Hb.
  destruct (TCPSessionProofs.exec_close_balance host e session Hc) as [H1 H2].
  split; [|exact H1].
  unfold called_back in Hb. apply Nat.ltb_ge in Hb.
  unfold TCPSession.close_balance in H2. rewrite Ho in H2.
  destruct (TCPSession.socket_open (TCPSession.exec host e session));
    [reflexivity | lia].
Qed.

Lemma Forall_weaken_created (n : nat) (ss : list (nat * TCPSession.t)) :
  Forall (fun x => TCPSession.socket_open (snd x) = true /\
                   TCPSession.close_callback_ (snd x) = true /\
                   fst x < n) ss ->
  Forall (fun x => TCPSession.socket_open (snd x) = true /\
                   TCPSession.close_callback_ (snd x) = true /\
                   fst x < S n) ss.
Proof.
  apply Forall_impl. intros x (H1 & H2 & H3). repeat split; auto.
Qed.

Lemma Forall_filter_keep (A : Type) (P : A -> Prop) (f : A -> bool) (l : list A) :
  Forall P l -> Forall P (filter f l).
Proof.
  induction 1 as [|x l Hx Hl IH]; simpl; [constructor|].
  destruct (f x); [constructor|]; assumption.
Qed.

Lemma session_step_registered (host : endianness) (id n : nat)
    (e : TCPSession.event) (ss : list (nat * TCPSession.t)) :
  Forall (fun x => TCPSession.socket_open (snd x) = true /\
                   TCPSession.close_callback_ (snd x) = true /\
                   fst x < n) ss ->
  Forall (fun x => TCPSession.socket_open (snd x) = true /\
                   TCPSession.close_callback_ (snd x) = true /\
                   fst x < n) (session_step host id e ss).
Proof.
  induction 1 as [|[i session] ss (Ho & Hc & Hi) Hss IH]; simpl; [constructor|].
  cbn [fst snd] in *.
  destruct (i =? id).
  - destruct (called_back session (TCPSession.exec host e session)) eqn:Hb;
      [exact Hss|].
    constructor; [|exact Hss].
    destruct (step_stays_open host e session Ho Hc Hb) as [H1 H2].
    cbn [fst snd]. repeat split; auto.
  - constructor; [cbn [fst snd]; repeat split; auto | exact IH].
Qed.

Lemma handle_accept_registered (ec : TCPSession.error_code) (user : user_handler)
    (start_throws : bool) (sv : t) :
  registered_open sv -> registered_open (handle_accept ec user start_throws sv).
Proof.
  unfold registered_open, handle_accept. intros H.
  destruct (TCPSession.is_error ec); [exact H|].
  cbn [connection_handler_ sessions_ created].
  apply Forall_weaken_created in H.
  destruct (if connection_handler_ sv then user else HandlerReturns false)
    as [|installs].
  - cbn [start_accept set_accepts set_sessions_ sessions_ created].
    apply Forall_app. split; [exact H|].
    constructor; [|constructor]. cbn [fst snd]. repeat split; auto.
  - set (session := if installs
                    then TCPSession.set_message_handler
                           (TCPSession.set_close_callback TCPSession.ctor)
                    else TCPSession.set_close_callback TCPSession.ctor).
    assert (Ho : TCPSession.socket_open session = true)
      by (unfold session; destruct installs; reflexivity).
    assert (Hc : TCPSession.close_callback_ session = true)
      by (unfold session; destruct installs; reflexivity).
    destruct (called_back session (TCPSession.start start_throws session)) eqn:Hb;
      cbn [start_accept set_accepts set_sessions_ remove_session sessions_ created].
    + rewrite filter_app. cbn [filter fst]. rewrite Nat.eqb_refl. cbn [negb].
      rewrite app_nil_r. now apply Forall_filter_keep.
    + apply Forall_app. split; [exact H|].
      constructor; [|constructor]. cbn [fst snd].
      destruct (@step_stays_open little_endian (TCPSession.CallStart start_throws)
                  session Ho Hc Hb) as [H1 H2].
      repeat split; auto.
Qed.

Lemma exec_registered (host : endianness) (e : event) (sv sv' : t) :
  registered_open sv -> exec host e sv = Returns sv' -> registered_open sv'.
Proof.
  intros H He. destruct e as [| | |ec user st|id e]; cbn [exec] in He.
  - injection He as <-. unfold start. destruct (stopped_ sv); exact H.
  - unfold stop in He. destruct (stopped_ sv); [injection He as <-; exact H|].
    destruct (close_all (sessions_ sv)); [|discriminate].
    injection He as <-. constructor.
  - injection He as <-. exact H.
  - destruct (accepts sv) as [|n]; injection He as <-; [exact H|].
    apply handle_accept_registered. exact H.
  - assert (G : registered_open
                  (set_sessions_ (session_step host id e (sessions_ sv)) sv)).
    { unfold registered_open; cbn [set_sessions_ sessions_ created].
      now apply session_step_registered. }
    destruct e; injection He as <-; first [exact G | exact H].
Qed.

Lemma run_registered (host : endianness) (es : list event) (sv sv' : t) :
  registered_open sv -> run host es sv = Returns sv' -> registered_open sv'.
Proof.
  revert sv; induction es as [|e es IH]; intros sv H Hr; simpl in Hr.
  - injection Hr as <-. exact H.
  - destruct (exec host e sv) as [sv1|] eqn:He; [|discriminate].
    apply (IH sv1); [|exact Hr]. exact (exec_registered host e H He).
Qed.

(** X16.  The set of sessions holds only sessions whose socket is open: in every
    state the server reaches, each registered session is open and has the
    close callback that removes it; a session that closes, for whatever
    reason, leaves the set in the same step. *)
Theorem sessions_are_open (host : endianness) (es : list event) (sv : t) :
  run host es ctor = Returns sv ->
  Forall (fun x => TCPSession.socket_open (snd x) = true /\
                   TCPSession.close_callback_ (snd x) = true /\
                   fst x < created sv) (sessions_ sv).
Proof.
  intros H. apply (@run_registered host es ctor sv); [constructor | exact H].
Qed.

Lemma close_all_open (ss : list (nat * TCPSession.t)) (n : nat) :
  Forall (fun x => TCPSession.socket_open (snd x) = true /\
                   TCPSession.close_callback_ (snd x) = true /\
                   fst x < n) ss ->
  close_all ss = match ss with [] => true | _ :: _ => false end.
Proof.
  intros H. destruct H as [|[i session] ss (Ho & Hc & _) _]; [reflexivity|].
  cbn [close_all fst snd] in *. now rewrite called_back_close.
Qed.

(** X17.  [stop] returns only when no session is connected.  On a server that
    was not stopped before, [stop] with an empty set of sessions closes the
    acceptor and returns; with a session in the set, [close()] of the first
    one calls the close callback, and [remove_session] locks the mutex
    that [stop] is holding. *)
Theorem stop_relocks_with_sessions (host : endianness) (es : list event) (sv : t) :
  run host es ctor = Returns sv -> stopped_ sv = false ->
  stop sv =
  match sessions_ sv with
  | [] => Returns {| acceptor_open := false; accepts := accepts sv;
                     sessions_ := []; stopped_ := true;
                     connection_handler_ := connection_handler_ sv;
                     created := created sv |}
  | _ :: _ => Relocks
  end.
Proof.
  intros Hr Hs.
  assert (H : registered_open sv)
    by (apply (@run_registered host es ctor sv); [constructor | exact Hr]).
  unfold stop. rewrite Hs, (close_all_open H).
  destruct (sessions_ sv); reflexivity.
Qed.

Lemma exec_accepts (host : endianness) (e : event) (sv sv' : t) :
  not_start e = true -> exec host e sv = Returns sv' ->
  accepts sv' <= accepts sv.
Proof.
  intros Hn He. destruct e as [| | |ec user st|id e]; cbn [exec] in He;
    try discriminate.
  - unfold stop in He. destruct (stopped_ sv); [injection He as <-; lia|].
    destruct (close_all (sessions_ sv)); [|discriminate].
    injection He as <-. simpl. lia.
  - injection He as <-. simpl. lia.
  - destruct (accepts sv) as [|n] eqn:Ha; injection He as <-; [lia|].
    unfold handle_accept. destruct (TCPSession.is_error ec); [simpl; lia|].
    cbn [connection_handler_ sessions_ created accepts set_accepts].
    destruct (if connection_handler_ sv then user else HandlerReturns false).
    + unfold start_accept, set_accepts, set_sessions_; cbn [accepts]. lia.
    + match goal with |- context [if called_back ?a ?b then _ else _] =>
        destruct (called_back a b) end;
        unfold start_accept, set_accepts, remove_session, set_sessions_;
        cbn [accepts]; lia.
  - destruct e; injection He as <-; simpl; lia.
Qed.

Lemma run_accepts (host : endianness) (es : list event) (sv sv' : t) :
  forallb not_start es = true -> run host es sv = Returns sv' ->
  accepts sv' <= accepts sv.
Proof.
  revert sv; induction es as [|e es IH]; intros sv Hn Hr; simpl in Hr.
  - injection Hr as <-. lia.
  - simpl in Hn. apply andb_prop in Hn. destruct Hn as [He Hes].
    destruct (exec host e sv) as [sv1|] eqn:E; [|discriminate].
    pose proof (exec_accepts host e sv He E).
    pose proof (IH sv1 Hes Hr). lia.
Qed.

(** X18.  An accept that fails is not issued again.  [handle_accept] returns on
    an error without calling [start_accept], so the number of outstanding
    accepts drops by one and no later step other than a call of [start]
    raises it: a server started once accepts nothing any more. *)
Theorem failed_accept_ends_accepting (host : endianness) (sv sv' : t)
    (ec : TCPSession.error_code) (user : user_handler) (start_throws : bool)
    (es : list event) :
  TCPSession.is_error ec = true -> 0 < accepts sv ->
  forallb not_start es = true ->
  run host (AcceptCompletes ec user start_throws :: es) sv = Returns sv' ->
  accepts sv' < accepts sv.
Proof.
  intros Hec Ha Hn Hr. cbn [run exec] in Hr.
  destruct (accepts sv) as [|n] eqn:E; [lia|].
  unfold handle_accept in Hr. rewrite Hec in Hr.
  pose proof (run_accepts host es _ Hn Hr) as H. simpl in H. lia.
Qed.

(** A server with two connections, one of which has been closed by its
    peer. *)
Definition two_accepted : list event :=
  [CallSetConnectionHandler; CallStart;
   AcceptCompletes TCPSession.success (HandlerReturns true) false;
   AcceptCompletes TCPSession.success (HandlerReturns true) false;
   SessionStep 0 (TCPSession.ReadCompletes TCPSession.eof [])].

Definition after_two_accepted : t :=
  match run little_endian two_accepted ctor with
  | Returns sv => sv
  | Relocks => ctor
  end.

Lemma sessions_are_open_witness :
  run little_endian two_accepted ctor = Returns after_two_accepted /\
  map fst (sessions_ after_two_accepted) = [1] /\
  Forall (fun x => TCPSession.socket_open (snd x) = true /\
                   TCPSession.close_callback_ (snd x) = true /\
                   fst x < created after_two_accepted)
         (sessions_ after_two_accepted).
Proof.
  split; [vm_compute; reflexivity|]. split; [vm_compute; reflexivity|].
  apply (@sessions_are_open little_endian two_accepted after_two_accepted).
  vm_compute; reflexivity.
Defined.

Lemma stop_relocks_with_sessions_witness :
  run little_endian two_accepted ctor = Returns after_two_accepted /\
  stopped_ after_two_accepted = false /\
  stop after_two_accepted = Relocks.
Proof.
  split; [vm_compute; reflexivity|]. split; [vm_compute; reflexivity|].
  apply (@stop_relocks_with_sessions little_endian two_accepted after_two_accepted);
    vm_compute; reflexivity.
Defined.

Lemma failed_accept_ends_accepting_witness :
  let es := [SessionStep 1 (TCPSession.CallSend (list_byte_of_string "x"));
             CallSetConnectionHandler] in
  let sv :=
    match run little_endian
            (AcceptCompletes TCPSession.connection_reset HandlerThrows false :: es)
            after_two_accepted with
    | Returns sv => sv
    | Relocks => ctor
    end in
  TCPSession.is_error TCPSession.connection_reset = true /\
  0 < accepts after_two_accepted /\
  forallb not_start es = true /\
  run little_endian
    (AcceptCompletes TCPSession.connection_reset HandlerThrows false :: es)
    after_two_accepted = Returns sv /\
  accepts sv < accepts after_two_accepted.
Proof.
  cbv zeta. split; [vm_compute; reflexivity|]. split; [vm_compute; lia|].
  split; [vm_compute; reflexivity|]. split; [vm_compute; reflexivity|].
  apply (@failed_accept_ends_accepting little_endian after_two_accepted _
           TCPSession.connection_reset HandlerThrows false
           [SessionStep 1 (TCPSession.CallSend (list_byte_of_string "x"));
            CallSetConnectionHandler]).
  - vm_compute; reflexivity.
  - vm_compute; lia.
  - vm_compute; reflexivity.
  - vm_compute; reflexivity.
Defined.

End TCPServerProofs.

(* ================================================================== *)
(** * What ParseIniFile reads *)
(* ================================================================== *)

Module ConfigManagerProofs.
Import StdString ConfigManager.

Lemma str_eqb_eq (a b : str) : str_eqb a b = true <-> a = b.
Proof.
  revert b; induction a as [|x a IH]; intros [|y b]; simpl; split; intro H;
    try reflexivity; try discriminate.
  - apply andb_prop in H as [H1 H2]. apply byte_dec_bl in H1.
    apply IH in H2. congruence.
  - injection H as -> ->. rewrite (byte_dec_lb eq_refl). simpl.
    apply IH. reflexivity.
Qed.

Lemma str_eqb_refl (a : str) : str_eqb a a = true.
Proof. apply str_eqb_eq. reflexivity. Qed.

Lemma str_eqb_neq (a b : str) : a <> b -> str_eqb a b = false.
Proof.
  intro H. destruct (str_eqb a b) eqn:E; [|reflexivity].
  apply str_eqb_eq in E. contradiction.
Qed.

Lemma member_In (c : byte) (set : str) : member c set = true <-> In c set.
Proof.
  unfold member. rewrite existsb_exists. split.
  - intros [x [Hin He]]. apply byte_dec_bl in He. subst. exact Hin.
  - intro H. exists c. split; [assumption | apply byte_dec_lb; reflexivity].
Qed.

Lemma member_app (c : byte) (a b : str) :
  member c (a ++ b) = member c a || member c b.
Proof. unfold member. apply existsb_app. Qed.

(** ** The searches, as decompositions of the string *)

Lemma find_first_not_of_Some (set s : str) (i : nat) :
  find_first_not_of set s = Some i ->
  exists a c b, s = a ++ c :: b /\ List.length a = i /\
                forallb (fun x => member x set) a = true /\
                member c set = false.
Proof.
  revert i; induction s as [|x s IH]; intros i H; simpl in H; [discriminate|].
  destruct (member x set) eqn:E.
  - destruct (find_first_not_of set s) as [j|]; [|discriminate].
    injection H as <-. destruct (IH j eq_refl) as (a & c & b & -> & <- & Ha & Hc).
    exists (x :: a), c, b. simpl. rewrite E, Ha. auto.
  - injection H as <-. exists [], x, s. auto.
Qed.

Lemma find_first_not_of_None (set s : str) :
  find_first_not_of set s = None ->
  forallb (fun x => member x set) s = true.
Proof.
  induction s as [|x s IH]; intro H; simpl in *; [reflexivity|].
  destruct (member x set); [|discriminate].
  destruct (find_first_not_of set s); [discriminate|]. auto.
Qed.

Lemma find_first_not_of_app (set a b : str) (c : byte) :
  forallb (fun x => member x set) a = true -> member c set = false ->
  find_first_not_of set (a ++ c :: b) = Some (List.length a).
Proof.
  intros Ha Hc. induction a as [|x a IH]; simpl in *.
  - rewrite Hc. reflexivity.
  - apply andb_prop in Ha as [Hx Ha]. rewrite Hx, (IH Ha). reflexivity.
Qed.

Lemma find_last_not_of_all (set s : str) :
  forallb (fun x => member x set) s = true -> find_last_not_of set s = None.
Proof.
  induction s as [|x s IH]; intro H; simpl in *; [reflexivity|].
  apply andb_prop in H as [Hx H]. rewrite (IH H), Hx. reflexivity.
Qed.

Lemma find_last_not_of_Some (set s : str) (i : nat) :
  find_last_not_of set s = Some i ->
  exists a c b, s = a ++ c :: b /\ List.length a = i /\
                member c set = false /\
                forallb (fun x => member x set) b = true.
Proof.
  revert i; induction s as [|x s IH]; intros i H; simpl in H; [discriminate|].
  destruct (find_last_not_of set s) as [j|] eqn:E.
  - injection H as <-. destruct (IH j eq_refl) as (a & c & b & -> & <- & Hc & Hb).
    exists (x :: a), c, b. auto.
  - destruct (member x set) eqn:Ex; [discriminate|]. injection H as <-.
    exists [], x, s. repeat split; auto.
    clear IH. induction s as [|y s IH]; simpl in *; [reflexivity|].
    destruct (find_last_not_of set s); [discriminate|].
    destruct (member y set); [|discriminate]. auto.
Qed.

Lemma find_last_not_of_None (set s : str) :
  find_last_not_of set s = None ->
  forallb (fun x => member x set) s = true.
Proof.
  induction s as [|y s IH]; simpl; intro H; [reflexivity|].
  destruct (find_last_not_of set s); [discriminate|].
  destruct (member y set); [|discriminate]. auto.
Qed.

Lemma find_last_not_of_app (set a b : str) (c : byte) :
  member c set = false -> forallb (fun x => member x set) b = true ->
  find_last_not_of set (a ++ c :: b) = Some (List.length a).
Proof.
  intros Hc Hb. induction a as [|x a IH]; simpl.
  - rewrite (find_last_not_of_all _ _ Hb), Hc. reflexivity.
  - rewrite IH. reflexivity.
Qed.

Lemma find_Some (c : byte) (s : str) (i : nat) :
  find c s = Some i ->
  exists a b, s = a ++ c :: b /\ List.length a = i /\ ~ In c a.
Proof.
  revert i; induction s as [|x s IH]; intros i H; simpl in H; [discriminate|].
  destruct (Byte.eqb x c) eqn:E.
  - injection H as <-. apply byte_dec_bl in E. subst. exists [], s. auto.
  - destruct (find c s) as [j|]; [|discriminate]. injection H as <-.
    destruct (IH j eq_refl) as (a & b & -> & <- & Ha).
    exists (x :: a), b. repeat split; auto.
    intros [->|Hin]; [|auto].
    rewrite (byte_dec_lb eq_refl) in E. discriminate.
Qed.

Lemma find_not_In (c : byte) (s : str) : ~ In c s -> find c s = None.
Proof.
  induction s as [|x s IH]; intro H; simpl; [reflexivity|].
  destruct (Byte.eqb x c) eqn:E.
  - apply byte_dec_bl in E. subst. exfalso. apply H. left. reflexivity.
  - rewrite IH; [reflexivity|]. intro. apply H. right. assumption.
Qed.

Lemma find_app (c : byte) (a b : str) :
  ~ In c a -> find c (a ++ c :: b) = Some (List.length a).
Proof.
  intro Ha. induction a as [|x a IH]; simpl.
  - rewrite (byte_dec_lb eq_refl). reflexivity.
  - destruct (Byte.eqb x c) eqn:E.
    + apply byte_dec_bl in E. subst. exfalso. apply Ha. left. reflexivity.
    + rewrite IH; [reflexivity|]. intro. apply Ha. right. assumption.
Qed.

(** ** Removing the characters of a set at both ends *)

Lemma firstn_length_app (A : Type) (a b : list A) :
  firstn (List.length a) (a ++ b) = a.
Proof.
  rewrite firstn_app, Nat.sub_diag, firstn_all. simpl. apply app_nil_r.
Qed.

Lemma skipn_length_app (A : Type) (a b : list A) :
  skipn (List.length a) (a ++ b) = b.
Proof.
  rewrite skipn_app, Nat.sub_diag, skipn_all. reflexivity.
Qed.

Lemma erase_front_cases (set s : str) :
  (forallb (fun x => member x set) s = true /\
   erase 0 (find_first_not_of set s) s = []) \/
  (exists a c b, s = a ++ c :: b /\
                 forallb (fun x => member x set) a = true /\
                 member c set = false /\
                 erase 0 (find_first_not_of set s) s = c :: b).
Proof.
  destruct (find_first_not_of set s) as [i|] eqn:E.
  - right. destruct (find_first_not_of_Some _ _ E) as (a & c & b & -> & <- & Ha & Hc).
    exists a, c, b. repeat split; auto.
    unfold erase. simpl. apply skipn_length_app.
  - left. split; [apply find_first_not_of_None; assumption | reflexivity].
Qed.

Lemma erase_back_cases (set s : str) :
  (forallb (fun x => member x set) s = true /\
   erase (plus_one (find_last_not_of set s)) None s = []) \/
  (exists a c b, s = a ++ c :: b /\
                 member c set = false /\
                 forallb (fun x => member x set) b = true /\
                 erase (plus_one (find_last_not_of set s)) None s = a ++ [c]).
Proof.
  destruct (find_last_not_of set s) as [i|] eqn:E.
  - right. destruct (find_last_not_of_Some _ _ E) as (a & c & b & -> & <- & Hc & Hb).
    exists a, c, b. repeat split; auto.
    unfold erase, plus_one.
    replace (a ++ c :: b) with ((a ++ [c]) ++ b)
      by (rewrite <- app_assoc; reflexivity).
    replace (S (List.length a)) with (List.length (a ++ [c]))
      by (rewrite length_app; simpl; lia).
    apply firstn_length_app.
  - left. split; [apply find_last_not_of_None; assumption | reflexivity].
Qed.

Lemma erase_front_keeps (set s : str) :
  match s with [] => True | c :: _ => member c set = false end ->
  erase 0 (find_first_not_of set s) s = s.
Proof.
  destruct s as [|c s]; intro H; [reflexivity|].
  simpl. rewrite H. reflexivity.
Qed.

Lemma erase_front_app (set a s : str) :
  forallb (fun x => member x set) a = true ->
  erase 0 (find_first_not_of set (a ++ s)) (a ++ s)
  = erase 0 (find_first_not_of set s) s.
Proof.
  intro Ha. induction a as [|x a IH]; [reflexivity|].
  simpl in Ha. apply andb_prop in Ha as [Hx Ha]. specialize (IH Ha).
  simpl. rewrite Hx.
  destruct (find_first_not_of set (a ++ s)) as [i|],
           (find_first_not_of set s) as [j|]; simpl in *; auto.
Qed.

Lemma erase_back_keeps (set a : str) (c : byte) :
  member c set = false ->
  erase (plus_one (find_last_not_of set (a ++ [c]))) None (a ++ [c])
  = a ++ [c].
Proof.
  intro Hc. rewrite (find_last_not_of_app set a [] c Hc eq_refl).
  unfold erase, plus_one.
  replace (S (List.length a)) with (List.length (a ++ [c]))
    by (rewrite length_app; simpl; lia).
  apply firstn_all.
Qed.

Lemma erase_back_app (set a b : str) (c : byte) :
  member c set = false -> forallb (fun x => member x set) b = true ->
  erase (plus_one (find_last_not_of set (a ++ c :: b))) None (a ++ c :: b)
  = a ++ [c].
Proof.
  intros Hc Hb. rewrite (find_last_not_of_app set a b c Hc Hb).
  unfold erase, plus_one.
  replace (a ++ c :: b) with ((a ++ [c]) ++ b)
    by (rewrite <- app_assoc; reflexivity).
  replace (S (List.length a)) with (List.length (a ++ [c]))
    by (rewrite length_app; simpl; lia).
  apply firstn_length_app.
Qed.

Lemma erase_back_all (set b : str) :
  forallb (fun x => member x set) b = true ->
  erase (plus_one (find_last_not_of set b)) None b = [].
Proof. intro Hb. rewrite (find_last_not_of_all _ _ Hb). reflexivity. Qed.

(** What both erasures leave is a part of the string that neither begins
    nor ends with a character of the set. *)
Lemma erase_both (set s : str) :
  let s1 := erase 0 (find_first_not_of set s) s in
  let s2 := erase (plus_one (find_last_not_of set s1)) None s1 in
  s2 = [] \/
  exists first middle final,
    s2 = first :: middle /\ last s2 x00 = final /\
    member first set = false /\ member final set = false /\
    exists a b, s = a ++ s2 ++ b.
Proof.
  intros s1 s2. subst s2.
  destruct (erase_front_cases set s) as [[_ E]|(a & c & b & Hs & Ha & Hc & E)];
    fold s1 in E; rewrite E.
  - left. reflexivity.
  - destruct (erase_back_cases set (c :: b))
      as [[Hall _]|(a' & c' & b' & Hs' & Hc' & Hb' & E')].
    + simpl in Hall. rewrite Hc in Hall. discriminate.
    + right. rewrite E'.
      destruct a' as [|x a'].
      * simpl in Hs'. injection Hs' as <- <-.
        exists c, [], c. simpl. repeat split; auto.
        exists a, b. rewrite Hs. reflexivity.
      * simpl in Hs'. injection Hs' as <- Hb2.
        exists c, (a' ++ [c']), c'. repeat split; auto.
        -- change (last ((c :: a') ++ [c']) x00 = c'). apply last_last.
        -- exists a, b'. rewrite Hs, Hb2. simpl.
           rewrite <- !app_assoc. reflexivity.
Qed.

Lemma erase_both_trimmed (s : str) :
  trimmed (erase (plus_one (find_last_not_of blank
                              (erase 0 (find_first_not_of blank s) s)))
                 None (erase 0 (find_first_not_of blank s) s)) = true.
Proof.
  destruct (erase_both blank s) as [E|(f & m & l & E & El & Hf & Hl & _)].
  - rewrite E. reflexivity.
  - unfold trimmed. rewrite El. rewrite E at 1. rewrite Hf, Hl. reflexivity.
Qed.

Lemma erase_both_In (set s : str) (c : byte) :
  In c (erase (plus_one (find_last_not_of set
                           (erase 0 (find_first_not_of set s) s)))
              None (erase 0 (find_first_not_of set s) s)) ->
  In c s.
Proof.
  destruct (erase_both set s) as [E|(f & m & l & _ & _ & _ & _ & a & b & E)].
  - rewrite E. intros [].
  - intro H. rewrite E. apply in_or_app. right. apply in_or_app. left. exact H.
Qed.

(** ** The map *)

Lemma map_find_In (V : Type) (key : str) (m : list (str * V)) (v : V) :
  map_find key m = Some v -> In (key, v) m.
Proof.
  induction m as [|[k w] m IH]; simpl; intro H; [discriminate|].
  destruct (str_eqb key k) eqn:E.
  - apply str_eqb_eq in E. injection H as ->. subst. left. reflexivity.
  - right. auto.
Qed.

Lemma map_find_map_at (V : Type) (key : str) (initial : V) (f : V -> V)
    (m : list (str * V)) :
  map_find key (map_at key initial f m)
  = Some (f (match map_find key m with Some v => v | None => initial end)).
Proof.
  induction m as [|[k w] m IH]; simpl.
  - rewrite str_eqb_refl. reflexivity.
  - destruct (str_eqb key k) eqn:E; simpl; rewrite E; auto.
Qed.

Lemma map_find_map_at_other (V : Type) (key key' : str) (initial : V)
    (f : V -> V) (m : list (str * V)) :
  key' <> key ->
  map_find key' (map_at key initial f m) = map_find key' m.
Proof.
  intro Hne. induction m as [|[k w] m IH]; simpl.
  - rewrite (str_eqb_neq Hne). reflexivity.
  - destruct (str_eqb key k) eqn:E; simpl.
    + apply str_eqb_eq in E. subst k. rewrite (str_eqb_neq Hne). reflexivity.
    + destruct (str_eqb key' k); auto.
Qed.

Lemma map_at_Forall (V : Type) (P : str * V -> Prop) (key : str)
    (initial : V) (f : V -> V) (m : list (str * V)) :
  Forall P m -> P (key, f initial) -> (forall k v, P (k, v) -> P (k, f v)) ->
  Forall P (map_at key initial f m).
Proof.
  intros Hm Hi Hf. induction Hm as [|[k w] m Hk Hm IH]; simpl.
  - constructor; [assumption | constructor].
  - destruct (str_eqb key k); constructor; auto.
Qed.

(** ** The loop of [ParseIniFile] *)

Lemma parse_line_entered (line : str) (st : str * list (str * SectionInfo)) :
  all_entered (snd st) -> all_entered (snd (parse_line line st)).
Proof.
  destruct st as [cur m]. unfold parse_line.
  generalize (erase (plus_one (find_last_not_of whitespace
                      (erase 0 (find_first_not_of whitespace line) line)))
                None (erase 0 (find_first_not_of whitespace line) line)).
  intros l Hm. destruct l as [|first rest]; [exact Hm|].
  destruct (Byte.eqb first ";"%byte || Byte.eqb first "#"%byte); [exact Hm|].
  destruct (Byte.eqb first "["%byte && _); [exact Hm|].
  destruct (find "="%byte (first :: rest)) as [pos|] eqn:Ef; [|exact Hm].
  pose proof (erase_both_trimmed (substr 0 (Some pos) (first :: rest))) as Hk.
  pose proof (@erase_both_In blank (substr 0 (Some pos) (first :: rest))
                "="%byte) as Hin.
  pose proof (erase_both_trimmed (substr (pos + 1) None (first :: rest))) as Hv.
  revert Hk Hin Hv.
  generalize (erase (plus_one (find_last_not_of blank
                (erase 0 (find_first_not_of blank
                            (substr (pos + 1) None (first :: rest)))
                       (substr (pos + 1) None (first :: rest)))))
              None
              (erase 0 (find_first_not_of blank
                          (substr (pos + 1) None (first :: rest)))
                     (substr (pos + 1) None (first :: rest)))).
  generalize (erase (plus_one (find_last_not_of blank
                (erase 0 (find_first_not_of blank
                            (substr 0 (Some pos) (first :: rest)))
                       (substr 0 (Some pos) (first :: rest)))))
              None
              (erase 0 (find_first_not_of blank
                          (substr 0 (Some pos) (first :: rest)))
                     (substr 0 (Some pos) (first :: rest)))).
  intros key value Hk Hin Hv.
  destruct key as [|k0 key]; [exact Hm|].
  assert (Hkey : entered (k0 :: key, value)).
  { repeat split; simpl fst; simpl snd; auto; [discriminate|].
    destruct (member "="%byte (k0 :: key)) eqn:E; [|reflexivity].
    apply member_In in E. apply Hin in E.
    destruct (find_Some _ _ Ef) as (a & b & Hl & <- & Ha).
    unfold substr in E. simpl skipn in E. rewrite Hl in E.
    rewrite firstn_length_app in E. contradiction. }
  simpl snd. apply map_at_Forall.
  - exact Hm.
  - cbn [snd _section_datas map_at]. constructor; [exact Hkey | constructor].
  - intros k v Hv'. simpl fst in *. simpl snd in *.
    cbn [_section_datas]. apply map_at_Forall.
    + exact Hv'.
    + exact Hkey.
    + intros k1 v1 (H1 & H2 & H3 & _). repeat split; auto.
Qed.

Lemma fold_entered (lines : list str) (st : str * list (str * SectionInfo)) :
  all_entered (snd st) ->
  all_entered (snd (fold_left (fun st line => parse_line line st) lines st)).
Proof.
  revert st; induction lines as [|l lines IH]; intros st H; simpl; [exact H|].
  apply IH. apply parse_line_entered. exact H.
Qed.

Lemma ParseIniFile_entered (content : str) (cm : t) :
  all_entered (_config_map (snd (ParseIniFile content cm))).
Proof. unfold ParseIniFile. simpl. apply fold_entered. constructor. Qed.

Lemma found_entered (content section key value : str) (cm : t) :
  map_find key (_section_datas
                  (at_section section (snd (ParseIniFile content cm))))
  = Some value ->
  entered (key, value).
Proof.
  intro H. pose proof (ParseIniFile_entered content cm) as Hall.
  unfold at_section in H.
  destruct (map_find section (_config_map (snd (ParseIniFile content cm))))
    as [info|] eqn:E; [|discriminate].
  apply map_find_In in E. unfold all_entered in Hall.
  rewrite Forall_forall in Hall. specialize (Hall _ E). simpl in Hall.
  rewrite Forall_forall in Hall. apply Hall. apply map_find_In. exact H.
Qed.

(** X19.  Whatever the content and the key asked for, the value that [GetValue]
    returns after [ParseIniFile] neither begins nor ends with a space or a
    tab. *)
Theorem GetValue_is_trimmed (content section key : str) (cm : t) :
  trimmed (GetValue section key (snd (ParseIniFile content cm))) = true.
Proof.
  unfold GetValue, section_GetValue.
  destruct (map_find key _) as [value|] eqn:E; [|reflexivity].
  apply found_entered in E. apply E.
Qed.

(** X20.  A key that [HasKey] finds after [ParseIniFile] is not empty, holds no
    ['='] and neither begins nor ends with a space or a tab. *)
Theorem HasKey_only_plain_keys (content section key : str) (cm : t) :
  HasKey section key (snd (ParseIniFile content cm)) = true ->
  key <> [] /\ member "="%byte key = false /\ trimmed key = true.
Proof.
  unfold HasKey, section_HasKey.
  destruct (map_find key _) as [value|] eqn:E; [|discriminate].
  intros _. apply found_entered in E. destruct E as (H1 & H2 & H3 & _).
  auto.
Qed.

Lemma HasKey_only_plain_keys_witness :
  let content := list_byte_of_string "[db]" ++ x0a
                 :: list_byte_of_string " host name = local host " in
  let key := list_byte_of_string "host name" in
  let section := list_byte_of_string "db" in
  HasKey section key (snd (ParseIniFile content ctor)) = true /\
  key <> [] /\ member "="%byte key = false /\ trimmed key = true.
Proof.
  cbv zeta. split; [vm_compute; reflexivity|].
  apply (@HasKey_only_plain_keys
           (list_byte_of_string "[db]" ++ x0a
              :: list_byte_of_string " host name = local host ")
           (list_byte_of_string "db") (list_byte_of_string "host name") ctor).
  vm_compute; reflexivity.
Defined.

(** ** Content without ['='] *)

Lemma getlines_In (content line : str) (c : byte) :
  In line (getlines content) -> In c line -> In c content.
Proof.
  revert line; induction content as [|x content IH]; intros line Hl Hc;
    simpl in Hl; [contradiction|].
  destruct (Byte.eqb x x0a).
  - destruct Hl as [<-|Hl]; [contradiction|]. right. eapply IH; eauto.
  - destruct (getlines content) as [|l ls] eqn:E.
    + destruct Hl as [<-|[]]. destruct Hc as [->|[]]. left. reflexivity.
    + destruct Hl as [<-|Hl].
      * destruct Hc as [->|Hc]; [left; reflexivity|].
        right. apply (IH l); [left; reflexivity | exact Hc].
      * right. apply (IH line); [right; exact Hl | exact Hc].
Qed.

Lemma parse_line_without_equals (line : str)
    (st : str * list (str * SectionInfo)) :
  ~ In "="%byte line -> snd (parse_line line st) = snd st.
Proof.
  intro Hno. destruct st as [cur m]. unfold parse_line.
  pose proof (@erase_both_In whitespace line "="%byte) as Hin. revert Hin.
  generalize (erase (plus_one (find_last_not_of whitespace
                      (erase 0 (find_first_not_of whitespace line) line)))
                None (erase 0 (find_first_not_of whitespace line) line)).
  intros l Hin. destruct l as [|first rest]; [reflexivity|].
  destruct (Byte.eqb first ";"%byte || Byte.eqb first "#"%byte); [reflexivity|].
  destruct (Byte.eqb first "["%byte && _); [reflexivity|].
  rewrite find_not_In; [reflexivity|]. intro H. apply Hno, Hin, H.
Qed.

(** X21.  In content without any ['='], [ParseIniFile] finds no section,
    whatever section headers the content has. *)
Theorem headers_alone_make_no_section (content section : str) (cm : t) :
  member "="%byte content = false ->
  HasSection section (snd (ParseIniFile content cm)) = false.
Proof.
  intro Hno.
  assert (Hc : ~ In "="%byte content).
  { intro H. apply member_In in H. congruence. }
  assert (Hmap : forall lines st,
             (forall line, In line lines -> ~ In "="%byte line) ->
             snd (fold_left (fun st line => parse_line line st) lines st)
             = snd st).
  { induction lines as [|l lines IH]; intros st Hl; [reflexivity|].
    simpl. rewrite IH by (intros; apply Hl; right; assumption).
    apply parse_line_without_equals. apply Hl. left. reflexivity. }
  unfold HasSection, ParseIniFile. simpl.
  rewrite Hmap; [reflexivity|].
  intros line Hl H. apply Hc. eapply getlines_In; eauto.
Qed.

Lemma headers_alone_make_no_section_witness :
  let content := list_byte_of_string "[server]" ++ x0a
                 :: list_byte_of_string "[client]" ++ [x0a] in
  member "="%byte content = false /\
  HasSection (list_byte_of_string "server") (snd (ParseIniFile content ctor))
  = false.
Proof.
  cbv zeta. split; [vm_compute; reflexivity|].
  apply (@headers_alone_make_no_section
           (list_byte_of_string "[server]" ++ x0a
                 :: list_byte_of_string "[client]" ++ [x0a]) (list_byte_of_string "server") ctor).
  vm_compute; reflexivity.
Defined.

(** ** An assignment at the end of the content *)

Lemma blank_whitespace (c : byte) :
  member c blank = true -> member c whitespace = true.
Proof.
  unfold member, blank, whitespace. simpl.
  destruct (Byte.eqb c x20), (Byte.eqb c x09); simpl; auto; discriminate.
Qed.

Lemma not_whitespace_not_blank (c : byte) :
  member c whitespace = false -> member c blank = false.
Proof.
  intro H. destruct (member c blank) eqn:E; [|reflexivity].
  apply blank_whitespace in E. congruence.
Qed.

Lemma blanks_whitespace (a : str) :
  blanks a = true -> forallb (fun x => member x whitespace) a = true.
Proof.
  unfold blanks. rewrite !forallb_forall. intros H x Hx.
  apply blank_whitespace, H, Hx.
Qed.

Lemma blanks_without (a : str) (c : byte) :
  blanks a = true -> member c blank = false -> ~ In c a.
Proof.
  unfold blanks. rewrite forallb_forall. intros H Hc Hin.
  apply H in Hin. congruence.
Qed.

Lemma last_split (s : str) :
  s <> [] -> exists init final, s = init ++ [final] /\ last s x00 = final.
Proof.
  intro H. destruct (exists_last H) as (init & final & ->).
  exists init, final. split; [reflexivity | apply last_last].
Qed.

Lemma parse_line_empty (st : str * list (str * SectionInfo)) :
  parse_line [] st = st.
Proof. destruct st. reflexivity. Qed.

Lemma parse_line_header (section cur : str) (m : list (str * SectionInfo)) :
  parse_line ("["%byte :: section ++ ["]"%byte]) (cur, m) = (section, m).
Proof.
  unfold parse_line.
  rewrite erase_front_keeps by reflexivity.
  change ("["%byte :: section ++ ["]"%byte])
    with (("["%byte :: section) ++ ["]"%byte]).
  rewrite erase_back_keeps by reflexivity.
  rewrite last_last. cbn [app]. 
  change (Byte.eqb "[" ";" || Byte.eqb "[" "#")%byte with false.
  change (Byte.eqb "[" "[" && Byte.eqb "]" "]")%byte with true.
  cbv iota. f_equal. unfold substr. cbn [skipn List.length].
  rewrite length_app. cbn [List.length].
  replace (S (List.length section + 1) - 2) with (List.length section) by lia.
  apply firstn_length_app.
Qed.

Lemma erase_blank_value (after value : str) :
  blanks after = true -> plain_value value = true ->
  erase (plus_one (find_last_not_of blank
           (erase 0 (find_first_not_of blank (after ++ value))
                  (after ++ value))))
        None
        (erase 0 (find_first_not_of blank (after ++ value)) (after ++ value))
  = value.
Proof.
  intros Ha Hv. rewrite erase_front_app by exact Ha.
  destruct value as [|v0 value]; [reflexivity|].
  unfold plain_value in Hv.
  apply andb_prop in Hv as [Hv Hlast]. apply andb_prop in Hv as [_ Hfirst].
  apply negb_true_iff in Hfirst, Hlast.
  rewrite erase_front_keeps by exact Hfirst.
  destruct (@last_split (v0 :: value)) as (init & final & E & El);
    [discriminate|].
  rewrite El in Hlast. rewrite E.
  apply erase_back_keeps. apply not_whitespace_not_blank. exact Hlast.
Qed.

Lemma erase_blank_key (key before : str) :
  plain_key key = true -> blanks before = true ->
  erase (plus_one (find_last_not_of blank
           (erase 0 (find_first_not_of blank (key ++ before))
                  (key ++ before))))
        None
        (erase 0 (find_first_not_of blank (key ++ before)) (key ++ before))
  = key.
Proof.
  intros Hk Hb. destruct key as [|k0 key]; [discriminate|].
  unfold plain_key in Hk.
  apply andb_prop in Hk as [Hk Hlast]. apply andb_prop in Hk as [_ Hfirst].
  apply negb_true_iff in Hfirst, Hlast.
  rewrite member_app in Hfirst. apply orb_false_elim in Hfirst as [Hfirst _].
  rewrite erase_front_keeps
    by (apply not_whitespace_not_blank; exact Hfirst).
  destruct (@last_split (k0 :: key)) as (init & final & E & El);
    [discriminate|].
  rewrite El in Hlast. rewrite E.
  destruct before as [|b0 before].
  - rewrite app_nil_r. apply erase_back_keeps. exact Hlast.
  - rewrite <- app_assoc. cbn [app].
    apply erase_back_app; [exact Hlast|].
    exact Hb.
Qed.

Lemma parse_line_assignment (key before after value cur : str)
    (m : list (str * SectionInfo)) :
  plain_key key = true -> blanks before = true -> blanks after = true ->
  plain_value value = true ->
  parse_line (key ++ before ++ ["="%byte] ++ after ++ value) (cur, m)
  = (cur,
     map_at cur (mkSectionInfo [])
       (fun section =>
          mkSectionInfo
            (map_at key [] (fun _ => value) (_section_datas section)))
       m).
Proof.
  intros Hk Hb Ha Hv.
  pose proof (erase_blank_key _ _ Hk Hb) as Ekey.
  pose proof (erase_blank_value _ _ Ha Hv) as Evalue.
  assert (Eempty : value = [] ->
            erase (plus_one (find_last_not_of blank
                     (erase 0 (find_first_not_of blank []) [])))
                  None (erase 0 (find_first_not_of blank []) []) = value)
    by (intros ->; reflexivity).
  destruct key as [|k0 key1] eqn:Ekey0; [discriminate|].
  rewrite <- Ekey0 in *.
  assert (Hfirst : member k0 (whitespace ++ [";"%byte; "#"%byte; "["%byte])
                   = false /\ member "="%byte key = false).
  { unfold plain_key in Hk. rewrite Ekey0 in Hk. rewrite <- Ekey0 in Hk.
    apply andb_prop in Hk as [Hk _]. apply andb_prop in Hk as [Hk Hf].
    apply andb_prop in Hk as [_ He].
    apply negb_true_iff in Hf, He. auto. }
  destruct Hfirst as [Hfirst Hequals].
  rewrite member_app in Hfirst. apply orb_false_elim in Hfirst as [Hws Hsp].
  unfold parse_line.
  rewrite (@erase_front_keeps whitespace
             (key ++ before ++ ["="%byte] ++ after ++ value))
    by (rewrite Ekey0; exact Hws).
  assert (Eline :
    exists w,
      erase (plus_one (find_last_not_of whitespace
               (key ++ before ++ ["="%byte] ++ after ++ value)))
            None (key ++ before ++ ["="%byte] ++ after ++ value)
      = (key ++ before) ++ "="%byte :: w /\
      (w = after ++ value \/ (w = [] /\ value = []))).
  { destruct value as [|v0 value'] eqn:Ev.
    - exists []. split; [|right; auto].
      rewrite app_nil_r.
      replace (key ++ before ++ ["="%byte] ++ after)
        with ((key ++ before) ++ "="%byte :: after)
        by (rewrite <- app_assoc; reflexivity).
      apply erase_back_app; [reflexivity|].
      apply blanks_whitespace. exact Ha.
    - exists (after ++ value). rewrite <- Ev in *. split; [|left; reflexivity].
      destruct (@last_split value) as (init & final & E & El);
        [rewrite Ev; discriminate|].
      assert (Hl : member final whitespace = false).
      { unfold plain_value in Hv. rewrite Ev in Hv. rewrite <- Ev in Hv.
        apply andb_prop in Hv as [_ Hl]. apply negb_true_iff in Hl.
        rewrite El in Hl. exact Hl. }
      replace (key ++ before ++ ["="%byte] ++ after ++ value)
        with ((key ++ before ++ ["="%byte] ++ after ++ init) ++ [final])
        by (rewrite E, <- !app_assoc; reflexivity).
      rewrite erase_back_keeps by exact Hl.
      rewrite E, <- !app_assoc. reflexivity. }
  destruct Eline as (w & -> & Hw).
  assert (Ew : erase (plus_one (find_last_not_of blank
                        (erase 0 (find_first_not_of blank w) w)))
                     None (erase 0 (find_first_not_of blank w) w) = value).
  { destruct Hw as [->|[-> Hv0]]; [exact Evalue | exact (Eempty Hv0)]. }
  assert (Hno : ~ In "="%byte (key ++ before)).
  { intro H. apply in_app_or in H as [H|H].
    - apply member_In in H. congruence.
    - revert H. apply blanks_without; [exact Hb | reflexivity]. }
  rewrite (@find_app "="%byte (key ++ before) w Hno).
  unfold substr. cbn [skipn].
  rewrite firstn_length_app.
  replace (List.length (key ++ before) + 1)
    with (List.length ((key ++ before) ++ ["="%byte]))
    by (rewrite (length_app (key ++ before)); reflexivity).
  assert (Eskip : skipn (List.length ((key ++ before) ++ ["="%byte]))
                        ((key ++ before) ++ "="%byte :: w) = w).
  { replace ((key ++ before) ++ "="%byte :: w)
      with (((key ++ before) ++ ["="%byte]) ++ w)
      by (rewrite <- app_assoc; reflexivity).
    apply skipn_length_app. }
  rewrite Eskip.
  rewrite Ekey, Ew.
  rewrite Ekey0 at 1. cbn [app].
  unfold member in Hsp. cbn [existsb] in Hsp.
  apply orb_false_elim in Hsp as [H1 Hsp].
  apply orb_false_elim in Hsp as [H2 Hsp].
  apply orb_false_elim in Hsp as [H3 _].
  rewrite H1, H2, H3. cbn [orb andb].
  rewrite Ekey0. reflexivity.
Qed.

Lemma getlines_line (line rest : str) :
  one_line line = true ->
  getlines (line ++ x0a :: rest) = line :: getlines rest.
Proof.
  unfold one_line. intro H. apply negb_true_iff in H.
  induction line as [|c line IH]; [reflexivity|].
  unfold member in H. cbn [existsb] in H.
  apply orb_false_elim in H as [Hc H].
  cbn [app getlines].
  destruct (Byte.eqb c x0a) eqn:E.
  - apply byte_dec_bl in E. subst c. discriminate.
  - rewrite (IH H). reflexivity.
Qed.

Lemma getlines_last (line : str) :
  one_line line = true -> line <> [] -> getlines line = [line].
Proof.
  unfold one_line. intros H Hne. apply negb_true_iff in H.
  induction line as [|c line IH]; [contradiction|].
  unfold member in H. cbn [existsb] in H.
  apply orb_false_elim in H as [Hc H].
  cbn [getlines].
  destruct (Byte.eqb c x0a) eqn:E.
  - apply byte_dec_bl in E. subst c. discriminate.
  - destruct line as [|d line]; [reflexivity|].
    rewrite (IH H) by discriminate. reflexivity.
Qed.

Lemma getlines_not_empty (c : byte) (rest : str) : getlines (c :: rest) <> [].
Proof.
  cbn [getlines]. destruct (Byte.eqb c x0a); [discriminate|].
  destruct (getlines rest); discriminate.
Qed.

Lemma getlines_split (a b : str) :
  getlines (a ++ x0a :: b) = getlines (a ++ [x0a]) ++ getlines b.
Proof.
  induction a as [|c a IH]; [reflexivity|].
  cbn [app getlines]. rewrite IH.
  destruct (Byte.eqb c x0a); [reflexivity|].
  destruct (getlines (a ++ [x0a])) as [|l ls] eqn:E; [|reflexivity].
  exfalso. destruct a; simpl in E.
  - discriminate.
  - revert E. apply getlines_not_empty.
Qed.

Lemma getlines_newline (a : str) :
  exists tail, getlines (a ++ [x0a]) = getlines a ++ tail /\
               (tail = [] \/ tail = [[]]).
Proof.
  induction a as [|c a (tail & IH & Htail)].
  - exists [[]]. auto.
  - cbn [app getlines]. rewrite IH.
    destruct (Byte.eqb c x0a).
    + exists tail. auto.
    + destruct (getlines a) as [|l ls] eqn:E.
      * destruct a as [|d a].
        -- exists []. simpl in IH. subst tail. auto.
        -- exfalso. revert E. apply getlines_not_empty.
      * exists tail. auto.
Qed.

Lemma fold_getlines_newline (a : str) (st : str * list (str * SectionInfo)) :
  fold_left (fun st line => parse_line line st) (getlines (a ++ [x0a])) st
  = fold_left (fun st line => parse_line line st) (getlines a) st.
Proof.
  destruct (getlines_newline a) as (tail & -> & [->| ->]).
  - rewrite app_nil_r. reflexivity.
  - rewrite fold_left_app. simpl. apply parse_line_empty.
Qed.

Lemma assignment_one_line (key before after value : str) :
  plain_key key = true -> blanks before = true -> blanks after = true ->
  plain_value value = true ->
  one_line (key ++ before ++ ["="%byte] ++ after ++ value) = true /\
  key ++ before ++ ["="%byte] ++ after ++ value <> [].
Proof.
  intros Hk Hb Ha Hv. split.
  - unfold one_line. rewrite !member_app.
    assert (Hk' : member x0a key = false).
    { destruct key; [discriminate|]. unfold plain_key in Hk.
      apply andb_prop in Hk as [Hk _]. apply andb_prop in Hk as [Hk _].
      apply andb_prop in Hk as [Hk _]. apply negb_true_iff in Hk. exact Hk. }
    assert (Hv' : member x0a value = false).
    { destruct value; [reflexivity|]. unfold plain_value in Hv.
      apply andb_prop in Hv as [Hv _]. apply andb_prop in Hv as [Hv _].
      apply negb_true_iff in Hv. exact Hv. }
    assert (Hblank : forall a, blanks a = true -> member x0a a = false).
    { intros a0 H. destruct (member x0a a0) eqn:E; [|reflexivity].
      apply member_In in E. exfalso. revert E.
      apply blanks_without; [exact H | reflexivity]. }
    rewrite Hk', Hv', (Hblank _ Hb), (Hblank _ Ha). reflexivity.
  - destruct key; [discriminate|]. discriminate.
Qed.

(** What [ParseIniFile] makes of content followed by a new line and an
    assignment under a section header. *)
Lemma ParseIniFile_assignment
    (content section key before after value : str) (cm : t) :
  one_line section = true -> plain_key key = true ->
  blanks before = true -> blanks after = true -> plain_value value = true ->
  _config_map
    (snd (ParseIniFile
            (content ++ x0a :: assignment section key before after value) cm))
  = map_at section (mkSectionInfo [])
      (fun info =>
         mkSectionInfo
           (map_at key [] (fun _ => value) (_section_datas info)))
      (_config_map (snd (ParseIniFile content cm))).
Proof.
  intros Hs Hk Hb Ha Hv.
  destruct (assignment_one_line _ _ _ _ Hk Hb Ha Hv) as [Hline Hne].
  unfold ParseIniFile. cbn [snd _config_map].
  rewrite getlines_split, fold_left_app, fold_getlines_newline.
  unfold assignment.
  replace (["["%byte] ++ section ++ ["]"%byte; x0a] ++
           key ++ before ++ ["="%byte] ++ after ++ value)
    with (("["%byte :: section ++ ["]"%byte]) ++
          x0a :: key ++ before ++ ["="%byte] ++ after ++ value)
    by (cbn [app]; rewrite <- app_assoc; reflexivity).
  rewrite getlines_line.
  - rewrite (getlines_last Hline Hne). cbn [fold_left].
    destruct (fold_left (fun st line => parse_line line st)
                        (getlines content) ([], [])) as [cur m].
    rewrite parse_line_header, parse_line_assignment by assumption.
    reflexivity.
  - unfold one_line in *. change ("["%byte :: section ++ ["]"%byte])
      with (["["%byte] ++ section ++ ["]"%byte]).
    rewrite !member_app. apply negb_true_iff in Hs. rewrite Hs. reflexivity.
Qed.

(** X22.  After content that ends with a section header and an assignment on
    the next line, [GetValue] returns the value assigned for that section
    and key, whatever the content before assigned. *)
Theorem appended_assignment_is_read_back
    (content section key before after value : str) (cm : t) :
  one_line section = true -> plain_key key = true ->
  blanks before = true -> blanks after = true -> plain_value value = true ->
  GetValue section key
    (snd (ParseIniFile
            (content ++ x0a :: assignment section key before after value) cm))
  = value.
Proof.
  intros Hs Hk Hb Ha Hv.
  unfold GetValue, section_GetValue, at_section.
  rewrite ParseIniFile_assignment by assumption.
  rewrite map_find_map_at. cbn [_section_datas].
  rewrite map_find_map_at. reflexivity.
Qed.

Lemma appended_assignment_is_read_back_witness :
  let content := list_byte_of_string "[db]" ++ x0a
                 :: list_byte_of_string "port = 3306" in
  let section := list_byte_of_string "db" in
  let key := list_byte_of_string "port" in
  let value := list_byte_of_string "5432" in
  one_line section = true /\ plain_key key = true /\
  blanks [x20] = true /\ blanks [x09] = true /\ plain_value value = true /\
  GetValue section key
    (snd (ParseIniFile
            (content ++ x0a :: assignment section key [x20] [x09] value)
            ctor))
  = value.
Proof.
  cbv zeta.
  split; [vm_compute; reflexivity|]. split; [vm_compute; reflexivity|].
  split; [vm_compute; reflexivity|]. split; [vm_compute; reflexivity|].
  split; [vm_compute; reflexivity|].
  apply (@appended_assignment_is_read_back
           (list_byte_of_string "[db]" ++ x0a
              :: list_byte_of_string "port = 3306")
           (list_byte_of_string "db") (list_byte_of_string "port")
           [x20] [x09] (list_byte_of_string "5432") ctor);
    vm_compute; reflexivity.
Defined.

(** X23.  A section header and an assignment on the next line, at the end
    of the content, change what [GetValue] returns for no other section
    and key. *)
Theorem appended_assignment_keeps_the_rest
    (content section key before after value section' key' : str) (cm : t) :
  one_line section = true -> plain_key key = true ->
  blanks before = true -> blanks after = true -> plain_value value = true ->
  (section', key') <> (section, key) ->
  GetValue section' key'
    (snd (ParseIniFile
            (content ++ x0a :: assignment section key before after value) cm))
  = GetValue section' key' (snd (ParseIniFile content cm)).
Proof.
  intros Hs Hk Hb Ha Hv Hne.
  unfold GetValue, section_GetValue, at_section.
  rewrite ParseIniFile_assignment by assumption.
  destruct (str_eqb section' section) eqn:E.
  - apply str_eqb_eq in E. subst section'.
    rewrite map_find_map_at. cbn [_section_datas].
    rewrite map_find_map_at_other by congruence.
    destruct (map_find section _); reflexivity.
  - rewrite map_find_map_at_other; [reflexivity|].
    intro H. subst. rewrite str_eqb_refl in E. discriminate.
Qed.

Lemma appended_assignment_keeps_the_rest_witness :
  let content := list_byte_of_string "[db]" ++ x0a
                 :: list_byte_of_string "host = localhost" in
  let section := list_byte_of_string "db" in
  let key := list_byte_of_string "port" in
  let value := list_byte_of_string "5432" in
  let key' := list_byte_of_string "host" in
  one_line section = true /\ plain_key key = true /\
  blanks [] = true /\ blanks [] = true /\ plain_value value = true /\
  (section, key') <> (section, key) /\
  GetValue section key' (snd (ParseIniFile content ctor))
  = list_byte_of_string "localhost" /\
  GetValue section key'
    (snd (ParseIniFile
            (content ++ x0a :: assignment section key [] [] value) ctor))
  = GetValue section key' (snd (ParseIniFile content ctor)).
Proof.
  cbv zeta.
  split; [vm_compute; reflexivity|]. split; [vm_compute; reflexivity|].
  split; [vm_compute; reflexivity|]. split; [vm_compute; reflexivity|].
  split; [vm_compute; reflexivity|]. split; [vm_compute; discriminate|].
  split; [vm_compute; reflexivity|].
  apply (@appended_assignment_keeps_the_rest
           (list_byte_of_string "[db]" ++ x0a
              :: list_byte_of_string "host = localhost")
           (list_byte_of_string "db") (list_byte_of_string "port")
           [] [] (list_byte_of_string "5432")
           (list_byte_of_string "db") (list_byte_of_string "host") ctor).
  - vm_compute; reflexivity.
  - vm_compute; reflexivity.
  - vm_compute; reflexivity.
  - vm_compute; reflexivity.
  - vm_compute; reflexivity.
  - vm_compute; discriminate.
Defined.

End ConfigManagerProofs.

(* ================================================================== *)
(** * The free list of the memory pool *)
(* ================================================================== *)

Module MemoryPoolProofs.
Import MemoryPool.

Lemma address_eqb_eq (a b : address) : address_eqb a b = true <-> a = b.
Proof.
  destruct a as [a1 a2], b as [b1 b2]. unfold address_eqb. simpl.
  rewrite andb_true_iff, !Nat.eqb_eq. split.
  - intros [-> ->]. reflexivity.
  - intro H. injection H as -> ->. auto.
Qed.

Lemma address_eqb_refl (a : address) : address_eqb a a = true.
Proof. apply address_eqb_eq. reflexivity. Qed.

Lemma holds_In (a : address) (held : list address) :
  holds a held = true <-> In a held.
Proof.
  unfold holds. rewrite existsb_exists. split.
  - intros (x & Hx & E). apply address_eqb_eq in E. subst. exact Hx.
  - intro H. exists a. split; [exact H | apply address_eqb_refl].
Qed.

Lemma release_In (a b : address) (held : list address) :
  In b (release a held) <-> In b held /\ b <> a.
Proof.
  unfold release. rewrite filter_In. split; intros [H1 H2]; split; auto.
  - intros ->. rewrite address_eqb_refl in H2. discriminate.
  - destruct (address_eqb a b) eqn:E; [|reflexivity].
    apply address_eqb_eq in E. congruence.
Qed.

Lemma length_assign (A : Type) (i : nat) (x : A) (v : list A) :
  List.length (assign i x v) = List.length v.
Proof.
  revert i; induction v as [|y v IH]; intros [|i]; simpl; auto.
Qed.

Lemma nth_error_assign (A : Type) (i j : nat) (x : A) (v : list A) :
  nth_error (assign i x v) j
  = if (i =? j) && (i <? List.length v) then Some x else nth_error v j.
Proof.
  revert i j; induction v as [|y v IH]; intros [|i] [|j]; simpl; auto;
    rewrite ?andb_false_r, ?IH; reflexivity.
Qed.

Lemma NoDup_map_pair (b : nat) (l : list nat) :
  NoDup l -> NoDup (map (pair b) l).
Proof.
  induction 1 as [|x l Hx Hl IH]; simpl; constructor; [|exact IH].
  rewrite in_map_iff. intros (y & E & Hy). injection E as ->. contradiction.
Qed.

Section WithObjectType.

Variable T : Type.
Variable BlockSize : nat.
Variable reinterpret : T -> pointer.

Lemma node_at_in_blocks (a : address) (blocks : list (list (Node T))) :
  node_at a blocks <> None -> fst a < List.length blocks.
Proof.
  unfold node_at. intro H. apply nth_error_Some.
  destruct (nth_error blocks (fst a)); [discriminate | contradiction].
Qed.

Lemma node_at_write (a b : address) (n : Node T)
    (blocks blocks' : list (list (Node T))) :
  write a n blocks = Some blocks' ->
  node_at b blocks' = if address_eqb a b then Some n else node_at b blocks.
Proof.
  unfold write, node_at, address_eqb.
  destruct a as [a1 a2], b as [b1 b2]. simpl.
  destruct (nth_error blocks a1) as [block|] eqn:E1; [|discriminate].
  destruct (nth_error block a2) as [old|] eqn:E2; [|discriminate].
  intro H. injection H as <-.
  rewrite nth_error_assign.
  assert (H1 : a1 < List.length blocks)
    by (apply nth_error_Some; congruence).
  assert (H2 : a2 < List.length block)
    by (apply nth_error_Some; congruence).
  apply Nat.ltb_lt in H1, H2. rewrite H1, andb_true_r.
  destruct (a1 =? b1) eqn:Eb; simpl; [|reflexivity].
  apply Nat.eqb_eq in Eb. subst b1.
  rewrite (nth_error_nth _ _ _ E1), nth_error_assign, H2, andb_true_r, E1.
  destruct (a2 =? b2); reflexivity.
Qed.

Lemma write_defined (a : address) (n : Node T) (blocks : list (list (Node T))) :
  node_at a blocks <> None -> exists blocks', write a n blocks = Some blocks'.
Proof.
  unfold write. destruct (node_at a blocks); [eauto | contradiction].
Qed.

Lemma free_list_nodes (blocks : list (list (Node T))) (p : pointer)
    (free : list address) :
  free_list blocks p free ->
  Forall (fun a => node_at a blocks <> None) free.
Proof.
  induction 1; constructor; [congruence | assumption].
Qed.

Lemma free_list_write (a : address) (n : Node T)
    (blocks blocks' : list (list (Node T))) (p : pointer)
    (free : list address) :
  free_list blocks p free -> ~ In a free ->
  write a n blocks = Some blocks' ->
  free_list blocks' p free.
Proof.
  intros Hfree Hin Hw. induction Hfree as [|b q rest Hb Hrest IH].
  - constructor.
  - apply free_list_node with (p := q).
    + rewrite (@node_at_write _ _ _ _ _ Hw).
      destruct (address_eqb a b) eqn:E; [|exact Hb].
      apply address_eqb_eq in E. subst. exfalso. apply Hin. left. reflexivity.
    + apply IH. intro H. apply Hin. right. exact H.
Qed.

Lemma free_list_more_blocks (blocks : list (list (Node T)))
    (block : list (Node T)) (p : pointer) (free : list address) :
  free_list blocks p free -> free_list (blocks ++ [block]) p free.
Proof.
  induction 1 as [|a q rest Ha Hrest IH]; [constructor|].
  apply free_list_node with (p := q); [|exact IH].
  unfold node_at in *.
  destruct (nth_error blocks (fst a)) as [b|] eqn:E; [|discriminate].
  rewrite nth_error_app1 by (apply nth_error_Some; congruence).
  rewrite E. exact Ha.
Qed.

Lemma node_at_more_blocks (blocks : list (list (Node T)))
    (block : list (Node T)) (a : address) :
  node_at a blocks <> None -> node_at a (blocks ++ [block]) <> None.
Proof.
  unfold node_at.
  destruct (nth_error blocks (fst a)) as [b|] eqn:E; [|contradiction].
  rewrite nth_error_app1 by (apply nth_error_Some; congruence).
  rewrite E. auto.
Qed.

(** The list that [expandPool] builds in the new block. *)
Lemma free_list_new_block (blocks : list (list (Node T))) (final k : nat) :
  k <= final ->
  free_list
    (blocks ++ [map (fun i => next T (Some (List.length blocks, i + 1)))
                    (seq 0 final) ++ [next T None]])
    (Some (List.length blocks, k))
    (map (pair (List.length blocks)) (seq k (S final - k))).
Proof.
  intro Hk. remember (final - k) as d eqn:Hd.
  revert k Hk Hd. induction d as [|d IH]; intros k Hk Hd.
  - assert (k = final) by lia. subst k.
    replace (S final - final) with 1 by lia. simpl.
    apply free_list_node with (p := None); [|constructor].
    unfold node_at. simpl fst. simpl snd.
    rewrite nth_error_app2 by lia. rewrite Nat.sub_diag. simpl.
    rewrite nth_error_app2 by (rewrite length_map, length_seq; lia).
    rewrite length_map, length_seq, Nat.sub_diag. reflexivity.
  - replace (S final - k) with (S (S final - S k)) by lia. simpl.
    apply free_list_node with (p := Some (List.length blocks, S k)).
    + unfold node_at. simpl fst. simpl snd.
      rewrite nth_error_app2 by lia. rewrite Nat.sub_diag. simpl.
      rewrite nth_error_app1 by (rewrite length_map, length_seq; lia).
      rewrite nth_error_map, nth_error_seq.
      replace (k <? final) with true by (symmetry; apply Nat.ltb_lt; lia).
      simpl. replace (k + 1) with (S k) by lia. reflexivity.
    + apply IH; lia.
Qed.

Lemma ctor_sound (pool : t T) :
  ctor T BlockSize = Some pool -> sound pool [].
Proof.
  unfold ctor, expandPool. destruct BlockSize as [|final]; [discriminate|].
  intro H. injection H as <-. simpl.
  exists (map (pair 0) (seq 0 (S final - 0))). split; [|split].
  - apply (@free_list_new_block [] final 0). lia.
  - rewrite app_nil_r. apply NoDup_map_pair, seq_NoDup.
  - constructor.
Qed.

Lemma allocate_sound (object : T) (pool : t T) (held : list address) :
  0 < BlockSize -> sound pool held ->
  exists ptr pool',
    allocate BlockSize reinterpret object pool = Some (ptr, pool') /\
    ~ In ptr held /\ sound pool' (ptr :: held).
Proof.
  intros Hsize (free & Hfree & Hnodup & Hheld).
  assert (Hpop : forall blocks a p rest,
             free_list blocks (Some a) (a :: rest) ->
             node_at a blocks = Some (next T p) ->
             free_list blocks p rest ->
             NoDup ((a :: rest) ++ held) ->
             Forall (fun a => node_at a blocks <> None) held ->
             exists blocks',
               write a (storage object) blocks = Some blocks' /\
               ~ In a held /\
               sound {| freeList_ := p; blocks_ := blocks' |} (a :: held)).
  { intros blocks a p rest _ Ha Hrest Hnd Hh.
    destruct (@write_defined a (storage object) blocks) as [blocks' Hw];
      [congruence|].
    simpl in Hnd. apply NoDup_cons_iff in Hnd as [Hnotin Hnd].
    exists blocks'. split; [exact Hw|]. split.
    - intro H. apply Hnotin. apply in_or_app. right. exact H.
    - exists rest. simpl. split; [|split].
      + apply (@free_list_write a (storage object) blocks blocks' p rest);
          [exact Hrest | | exact Hw].
        intro H. apply Hnotin. apply in_or_app. left. exact H.
      + apply NoDup_Add with (a := a) (l := rest ++ held).
        * apply Add_app.
        * split; assumption.
      + constructor.
        * rewrite (@node_at_write _ _ _ _ _ Hw), address_eqb_refl. discriminate.
        * rewrite Forall_forall in *. intros b Hb.
          rewrite (@node_at_write _ _ _ _ _ Hw).
          destruct (address_eqb a b); [discriminate | apply Hh, Hb]. }
  unfold allocate. destruct pool as [head blocks]. simpl in *.
  inversion Hfree as [Eh Ef | a p rest Ha Hrest Eh Ef]; subst.
  - (* the free list is empty: the pool grows *)
    unfold expandPool. destruct BlockSize as [|final]; [lia|]. simpl.
    pose proof (@free_list_new_block blocks final 0 (Nat.le_0_l _)) as Hnew.
    replace (S final - 0) with (S final) in Hnew by lia.
    simpl in Hnew. inversion Hnew as [|a p rest Ha Hrest Eh Ef]; subst.
    rewrite Ha.
    edestruct (Hpop _ _ _ _ Hnew Ha Hrest) as (blocks' & Hw & Hnotin & Hsound).
    + change (NoDup (map (pair (List.length blocks)) (seq 0 (S final))
                     ++ held)).
      apply NoDup_app.
      * apply NoDup_map_pair, seq_NoDup.
      * simpl in Hnodup. exact Hnodup.
      * intros x Hx Hh. apply in_map_iff in Hx as (i & <- & _).
        rewrite Forall_forall in Hheld. apply Hheld in Hh.
        apply node_at_in_blocks in Hh. simpl in Hh. lia.
    + rewrite Forall_forall in *. intros b Hb.
      apply node_at_more_blocks. apply Hheld, Hb.
    + rewrite Hw. eauto.
  - cbn [freeList_ blocks_]. rewrite Ha.
    destruct (Hpop _ _ _ _ Hfree Ha Hrest Hnodup Hheld)
      as (blocks' & Hw & Hnotin & Hsound).
    rewrite Hw. eauto.
Qed.

Lemma deallocate_sound (ptr : address) (pool : t T) (held : list address) :
  sound pool held -> holds ptr held = true ->
  exists pool',
    deallocate (Some ptr) pool = Some pool' /\
    sound pool' (release ptr held).
Proof.
  intros (free & Hfree & Hnodup & Hheld) Hin. apply holds_In in Hin.
  destruct pool as [head blocks]. simpl in *.
  assert (Hnode : node_at ptr blocks <> None)
    by (rewrite Forall_forall in Hheld; apply Hheld, Hin).
  destruct (@write_defined ptr (next T head) blocks Hnode) as [blocks' Hw].
  unfold deallocate. simpl. rewrite Hw.
  eexists. split; [reflexivity|].
  assert (Hnotfree : ~ In ptr free).
  { intro H. apply NoDup_app_remove_r in Hnodup as Hf.
    clear Hf. revert Hnodup. clear - H Hin.
    induction free as [|x free IH]; [contradiction|].
    simpl. intro Hnd. apply NoDup_cons_iff in Hnd as [Hx Hnd].
    destruct H as [->|H]; [|auto].
    apply Hx. apply in_or_app. right. exact Hin. }
  exists (ptr :: free). simpl. split; [|split].
  - apply free_list_node with (p := head).
    + rewrite (@node_at_write _ _ _ _ _ Hw), address_eqb_refl. reflexivity.
    + apply (@free_list_write ptr (next T head) blocks blocks' head free);
        assumption.
  - constructor.
    + intro H. apply in_app_or in H as [H|H]; [contradiction|].
      apply release_In in H as [_ H]. congruence.
    + clear - Hnodup. induction free as [|x free IH]; simpl in *.
      * unfold release. apply NoDup_filter. exact Hnodup.
      * apply NoDup_cons_iff in Hnodup as [Hx Hnd]. constructor; [|auto].
        intro H. apply Hx. apply in_app_or in H as [H|H]; apply in_or_app;
          [left; exact H | right].
        apply release_In in H as [H _]. exact H.
  - rewrite Forall_forall in *. intros b Hb.
    apply release_In in Hb as [Hb _].
    rewrite (@node_at_write _ _ _ _ _ Hw).
    destruct (address_eqb ptr b); [discriminate | apply Hheld, Hb].
Qed.

Lemma run_from_sound (calls : list (call T)) (pool : t T)
    (held : list address) :
  0 < BlockSize -> sound pool held ->
  run_from BlockSize reinterpret calls pool held <> Undefined T /\
  forall pool' held',
    run_from BlockSize reinterpret calls pool held = Holds pool' held' ->
    sound pool' held'.
Proof.
  intro Hsize. revert pool held.
  induction calls as [|c calls IH]; intros pool held Hsound.
  - simpl. split; [discriminate|]. intros pool' held' H.
    injection H as <- <-. exact Hsound.
  - destruct c as [object|ptr]; cbn [run_from exec].
    + destruct (@allocate_sound object pool held Hsize Hsound)
        as (a & pool1 & -> & _ & Hs1).
      apply IH, Hs1.
    + destruct (holds ptr held) eqn:Eh.
      * destruct (@deallocate_sound ptr pool held Hsound Eh)
          as (pool1 & -> & Hs1).
        apply IH, Hs1.
      * split; [discriminate|]. intros ? ? H. discriminate.
Qed.

(** X24.  While the client deallocates only pointers that it holds, no call of
    the pool reads or writes where no node is. *)
Theorem disciplined_use_is_defined (calls : list (call T)) :
  0 < BlockSize -> run BlockSize reinterpret calls <> Undefined T.
Proof.
  intro Hsize. unfold run.
  destruct (ctor T BlockSize) as [pool|] eqn:E.
  - apply run_from_sound; [exact Hsize | apply ctor_sound; exact E].
  - unfold ctor, expandPool in E. destruct BlockSize; [lia | discriminate].
Qed.

(** X25.  After any calls of a client that deallocates only pointers that
    it holds, the pointers that it holds are distinct, and [allocate]
    returns a pointer that is none of them. *)
Theorem allocate_returns_unused_node (calls : list (call T)) (pool : t T)
    (held : list address) (object : T) :
  run BlockSize reinterpret calls = Holds pool held ->
  NoDup held /\
  exists ptr pool',
    allocate BlockSize reinterpret object pool = Some (ptr, pool') /\
    ~ In ptr held.
Proof.
  unfold run. destruct (ctor T BlockSize) as [pool0|] eqn:E; [|discriminate].
  assert (Hsize : 0 < BlockSize).
  { unfold ctor, expandPool in E. destruct BlockSize; [discriminate | lia]. }
  intro Hrun.
  assert (Hsound : sound pool held).
  { apply (@run_from_sound calls pool0 [] Hsize (ctor_sound E)). exact Hrun. }
  split.
  - destruct Hsound as (free & _ & Hnodup & _).
    revert Hnodup. clear. induction free as [|x free IH]; simpl; [auto|].
    intro H. apply NoDup_cons_iff in H as [_ H]. auto.
  - destruct (@allocate_sound object pool held Hsize Hsound)
      as (ptr & pool' & Ha & Hnotin & _).
    eauto.
Qed.

(** X26.  The node deallocated last is the node allocated next, and the free
    list is then as it was. *)
Theorem deallocate_then_allocate (ptr : address) (object : T) (pool : t T) :
  node_at ptr (blocks_ pool) <> None ->
  exists pool1 pool2,
    deallocate (Some ptr) pool = Some pool1 /\
    allocate BlockSize reinterpret object pool1 = Some (ptr, pool2) /\
    freeList_ pool2 = freeList_ pool /\
    forall a, node_at a (blocks_ pool2)
              = if address_eqb ptr a then Some (storage object)
                else node_at a (blocks_ pool).
Proof.
  intro Hnode. destruct pool as [head blocks]. cbn [blocks_ freeList_] in *.
  destruct (@write_defined ptr (next T head) blocks Hnode) as [blocks1 Hw1].
  assert (Hnode1 : node_at ptr blocks1 = Some (next T head))
    by (rewrite (@node_at_write _ _ _ _ _ Hw1), address_eqb_refl; reflexivity).
  destruct (@write_defined ptr (storage object) blocks1) as [blocks2 Hw2];
    [congruence|].
  exists {| freeList_ := Some ptr; blocks_ := blocks1 |},
         {| freeList_ := head; blocks_ := blocks2 |}.
  unfold deallocate, allocate. cbn [blocks_ freeList_].
  rewrite Hw1. cbn [blocks_ freeList_]. rewrite Hnode1, Hw2.
  repeat split.
  intro a. rewrite (@node_at_write _ _ _ _ _ Hw2).
  destruct (address_eqb ptr a) eqn:E; [reflexivity|].
  rewrite (@node_at_write _ _ _ _ _ Hw1), E. reflexivity.
Qed.

(** X27.  After a pointer is deallocated twice, [allocate] returns it twice: two
    objects share the node, and the head of the free list is then what the
    bytes of the first object are as a pointer. *)
Theorem double_deallocate_allocates_twice (ptr : address) (first second : T)
    (pool : t T) :
  node_at ptr (blocks_ pool) <> None ->
  exists pool1 pool2 pool3 pool4,
    deallocate (Some ptr) pool = Some pool1 /\
    deallocate (Some ptr) pool1 = Some pool2 /\
    allocate BlockSize reinterpret first pool2 = Some (ptr, pool3) /\
    allocate BlockSize reinterpret second pool3 = Some (ptr, pool4) /\
    freeList_ pool4 = reinterpret first.
Proof.
  intro Hnode. destruct pool as [head blocks]. cbn [blocks_ freeList_] in *.
  destruct (@write_defined ptr (next T head) blocks Hnode) as [blocks1 Hw1].
  assert (Hnode1 : node_at ptr blocks1 = Some (next T head))
    by (rewrite (@node_at_write _ _ _ _ _ Hw1), address_eqb_refl; reflexivity).
  destruct (@write_defined ptr (next T (Some ptr)) blocks1) as [blocks2 Hw2];
    [congruence|].
  assert (Hnode2 : node_at ptr blocks2 = Some (next T (Some ptr)))
    by (rewrite (@node_at_write _ _ _ _ _ Hw2), address_eqb_refl; reflexivity).
  destruct (@write_defined ptr (storage first) blocks2) as [blocks3 Hw3];
    [congruence|].
  assert (Hnode3 : node_at ptr blocks3 = Some (storage first))
    by (rewrite (@node_at_write _ _ _ _ _ Hw3), address_eqb_refl; reflexivity).
  destruct (@write_defined ptr (storage second) blocks3) as [blocks4 Hw4];
    [congruence|].
  exists {| freeList_ := Some ptr; blocks_ := blocks1 |},
         {| freeList_ := Some ptr; blocks_ := blocks2 |},
         {| freeList_ := Some ptr; blocks_ := blocks3 |},
         {| freeList_ := reinterpret first; blocks_ := blocks4 |}.
  unfold deallocate, allocate. cbn [blocks_ freeList_].
  rewrite Hw1. cbn [blocks_ freeList_]. rewrite Hw2, Hnode2, Hw3.
  cbn [blocks_ freeList_ read_next]. rewrite Hnode3, Hw4.
  cbn [read_next]. repeat split.
Qed.

End WithObjectType.

Lemma disciplined_use_is_defined_witness :
  0 < 2 /\
  run 2 (fun _ : nat => None)
      [Allocate 7; Allocate 8; Allocate 9; Deallocate nat (0, 1); Allocate 5]
  <> Undefined nat.
Proof.
  split; [lia|].
  apply (@disciplined_use_is_defined nat 2 (fun _ => None)). lia.
Defined.

Lemma allocate_returns_unused_node_witness :
  let pool := {| freeList_ := Some (1, 1);
                 blocks_ := [[storage 7; storage 8];
                             [storage 9; next nat None]] |} in
  run 2 (fun _ : nat => None) [Allocate 7; Allocate 8; Allocate 9]
  = Holds pool [(1, 0); (0, 1); (0, 0)] /\
  NoDup [(1, 0); (0, 1); (0, 0)] /\
  exists ptr pool',
    allocate 2 (fun _ : nat => None) 5 pool = Some (ptr, pool') /\
    ~ In ptr [(1, 0); (0, 1); (0, 0)].
Proof.
  cbv zeta. split; [vm_compute; reflexivity|].
  apply (@allocate_returns_unused_node nat 2 (fun _ => None)
           [Allocate 7; Allocate 8; Allocate 9]).
  vm_compute; reflexivity.
Defined.

Lemma deallocate_then_allocate_witness :
  let pool := {| freeList_ := None;
                 blocks_ := [[storage 7; storage 8]] |} in
  node_at (0, 1) (blocks_ pool) <> None /\
  exists pool1 pool2,
    deallocate (Some (0, 1)) pool = Some pool1 /\
    allocate 2 (fun _ : nat => None) 5 pool1 = Some ((0, 1), pool2) /\
    freeList_ pool2 = freeList_ pool /\
    forall a, node_at a (blocks_ pool2)
              = if address_eqb (0, 1) a then Some (storage 5)
                else node_at a (blocks_ pool).
Proof.
  cbv zeta. split; [vm_compute; discriminate|].
  apply (@deallocate_then_allocate nat 2 (fun _ => None) (0, 1) 5).
  vm_compute; discriminate.
Defined.

Lemma double_deallocate_allocates_twice_witness :
  let pool := {| freeList_ := None;
                 blocks_ := [[storage 7; storage 8]] |} in
  node_at (0, 1) (blocks_ pool) <> None /\
  exists pool1 pool2 pool3 pool4,
    deallocate (Some (0, 1)) pool = Some pool1 /\
    deallocate (Some (0, 1)) pool1 = Some pool2 /\
    allocate 2 (fun n : nat => Some (n, 0)) 5 pool2 = Some ((0, 1), pool3) /\
    allocate 2 (fun n : nat => Some (n, 0)) 6 pool3 = Some ((0, 1), pool4) /\
    freeList_ pool4 = Some (5, 0).
Proof.
  cbv zeta. split; [vm_compute; discriminate|].
  apply (@double_deallocate_allocates_twice nat 2 (fun n => Some (n, 0))
           (0, 1) 5 6).
  vm_compute; discriminate.
Defined.

End MemoryPoolProofs.

(* ================================================================== *)
(** * The logger *)
(* ================================================================== *)

Module LoggerProofs.
Import StdString Logger.

(** X28.  [Init] of a logger that is not initialised, with the level [DEBUG] or
    [INFO], which is the default, locks [_logMutex] a second time in [Log];
    with a higher level it returns, and nothing is written. *)
Theorem Init_locks_twice (opens : bool) (now logFile : str)
    (level : LogLevel) (lg : t) :
  _initialized lg = false ->
  Init opens now logFile level lg
  = match level with
    | DEBUG | INFO => Relocks
    | _ => Returns {| _logFile_is_open := opens; _currentLevel := level;
                      _initialized := true; cout := cout lg;
                      _logFile := _logFile lg |}
    end.
Proof.
  intro H. unfold Init, Info, Log. rewrite H. cbn [_currentLevel].
  destruct level; reflexivity.
Qed.

Lemma Init_locks_twice_witness :
  _initialized ctor = false /\
  Init true (list_byte_of_string "2025-07-12 10:00:00.000")
       (list_byte_of_string "llfcchat.log") INFO ctor = Relocks.
Proof.
  split; [reflexivity|].
  apply (@Init_locks_twice true (list_byte_of_string "2025-07-12 10:00:00.000")
           (list_byte_of_string "llfcchat.log") INFO ctor).
  reflexivity.
Defined.

Lemma no_brace_starts_with (s : str) :
  no_brace s = true ->
  starts_with (list_byte_of_string "{}") s = false.
Proof.
  destruct s as [|c s]; [reflexivity|].
  unfold no_brace, member. cbn [existsb]. intro H.
  apply negb_true_iff, orb_false_elim in H as [H _].
  change (list_byte_of_string "{}") with ["{"%byte; "}"%byte].
  cbn [starts_with]. rewrite H. reflexivity.
Qed.

Lemma no_brace_cons (c : byte) (s : str) :
  no_brace (c :: s) = true -> Byte.eqb "{" c = false /\ no_brace s = true.
Proof.
  unfold no_brace, member. cbn [existsb]. intro H.
  apply negb_true_iff, orb_false_elim in H as [H1 H2].
  split; [exact H1 | apply negb_true_iff; exact H2].
Qed.

Lemma no_brace_app (a b : str) :
  no_brace (a ++ b) = no_brace a && no_brace b.
Proof.
  unfold no_brace, member. rewrite existsb_app, negb_orb. reflexivity.
Qed.

Lemma find_str_no_brace (s : str) :
  no_brace s = true -> find_str (list_byte_of_string "{}") s = None.
Proof.
  induction s as [|c s IH]; intro H; [reflexivity|].
  cbn [find_str]. rewrite (@no_brace_starts_with (c :: s) H).
  apply no_brace_cons in H as [_ H]. rewrite (IH H). reflexivity.
Qed.

Lemma find_str_placeholder (a b : str) :
  no_brace a = true ->
  find_str (list_byte_of_string "{}") (a ++ list_byte_of_string "{}" ++ b)
  = Some (List.length a).
Proof.
  induction a as [|c a IH]; intro H.
  - reflexivity.
  - cbn [app find_str].
    assert (Hs : starts_with (list_byte_of_string "{}")
                   (c :: a ++ list_byte_of_string "{}" ++ b) = false).
    { apply no_brace_cons in H as [H _].
      change (list_byte_of_string "{}") with ["{"%byte; "}"%byte].
      cbn [starts_with]. rewrite H. reflexivity. }
    rewrite Hs. apply no_brace_cons in H as [_ H].
    rewrite (IH H). reflexivity.
Qed.

Lemma placeholders_between_app (x first : str) (pieces : list str) :
  placeholders_between (x ++ first) pieces
  = x ++ placeholders_between first pieces.
Proof.
  destruct pieces; simpl; [reflexivity|]. rewrite <- app_assoc. reflexivity.
Qed.

Lemma arguments_between_app (x first : str) (pieces args : list str) :
  arguments_between (x ++ first) pieces args
  = x ++ arguments_between first pieces args.
Proof.
  destruct pieces as [|p ps], args as [|a args]; cbn [arguments_between];
    rewrite ?placeholders_between_app, <- ?app_assoc; reflexivity.
Qed.

(** X29.  When neither the pieces of the format around its placeholders nor the
    arguments hold a ['{'], [FormatMessage] puts the arguments in the place
    of the placeholders in their order; arguments without a placeholder are
    dropped, and placeholders without an argument stay. *)
Theorem FormatMessage_fills_in_order (first : str) (pieces args : list str) :
  forallb no_brace (first :: pieces) = true ->
  forallb no_brace args = true ->
  FormatMessage (placeholders_between first pieces) args
  = arguments_between first pieces args.
Proof.
  revert first pieces. induction args as [|value args IH];
    intros first pieces Hp Ha.
  - destruct pieces; reflexivity.
  - cbn [forallb] in Hp, Ha.
    apply andb_prop in Hp as [Hfirst Hpieces].
    apply andb_prop in Ha as [Hvalue Hargs].
    destruct pieces as [|piece pieces].
    + cbn [placeholders_between arguments_between FormatMessage].
      rewrite (@find_str_no_brace first Hfirst). reflexivity.
    + cbn [forallb] in Hpieces. apply andb_prop in Hpieces as [Hpiece Hpieces].
      cbn [placeholders_between arguments_between FormatMessage].
      rewrite (@find_str_placeholder first
                 (placeholders_between piece pieces) Hfirst).
      unfold substr. cbn [skipn].
      rewrite firstn_app, Nat.sub_diag, firstn_all. cbn [firstn].
      rewrite app_nil_r.
      replace (List.length first + 2)
        with (List.length (first ++ list_byte_of_string "{}"))
        by (rewrite length_app; reflexivity).
      rewrite (app_assoc first (list_byte_of_string "{}")).
      rewrite skipn_app, Nat.sub_diag, skipn_all. cbn [skipn app].
      rewrite <- (placeholders_between_app value),
              <- (placeholders_between_app first).
      rewrite IH.
      * rewrite !arguments_between_app. reflexivity.
      * cbn [forallb]. rewrite !no_brace_app, Hfirst, Hvalue, Hpiece.
        exact Hpieces.
      * exact Hargs.
Qed.

Lemma FormatMessage_fills_in_order_witness :
  let first := list_byte_of_string "Got " in
  let pieces := [list_byte_of_string " of "; list_byte_of_string " left"] in
  let args := [list_byte_of_string "3"; list_byte_of_string "8";
               list_byte_of_string "unused"] in
  forallb no_brace (first :: pieces) = true /\
  forallb no_brace args = true /\
  FormatMessage (list_byte_of_string "Got {} of {} left") args
  = list_byte_of_string "Got 3 of 8 left".
Proof.
  cbv zeta. split; [vm_compute; reflexivity|].
  split; [vm_compute; reflexivity|].
  apply (@FormatMessage_fills_in_order (list_byte_of_string "Got ")
           [list_byte_of_string " of "; list_byte_of_string " left"]
           [list_byte_of_string "3"; list_byte_of_string "8";
            list_byte_of_string "unused"]);
    vm_compute; reflexivity.
Defined.

End LoggerProofs.
